(** * KubeVirt host-disk materialisation and configuration convergence

    A shallow embedding of [pkg/host-disk/host-disk.go] (the PVC to HostDisk
    rewriter, the capacity probe, the sparse image allocator and the
    [DiskImgCreator]) and of the configuration propagation waiter of
    [tests/utils.go], together with the properties the specification states
    about them.

    Conventions.  Go's [int64], [uint64] and [int] are integers of [Z] with
    the wrap-around written out ([int64], [uint64] below).  Strings are
    [string]; Go maps are [gmap]/[gset].  The file system, the clock and the
    calls made to the outside are an explicit [World] threaded through a
    small state-and-error monad. *)

From Stdlib Require Import ZArith String Ascii List Lia DecimalString.
From stdpp Require Import base option list gmap strings.

Local Open Scope string_scope.
Local Open Scope list_scope.
Local Open Scope Z_scope.

(* ===================================================================== *)
(** ** Machine integers *)
(* ===================================================================== *)

Definition MaxInt64 : Z := 2 ^ 63 - 1.
Definition MinInt64 : Z := - 2 ^ 63.
Definition MaxUint64 : Z := 2 ^ 64 - 1.

(** The conversion [uint64(x)]: reduction modulo 2^64. *)
Definition uint64 (x : Z) : Z := x mod 2 ^ 64.

(** The conversion [int64(x)]: two's complement reading of the low 64 bits. *)
Definition int64 (x : Z) : Z := (x + 2 ^ 63) mod 2 ^ 64 - 2 ^ 63.

Definition is_int64 (x : Z) : Prop := MinInt64 <= x <= MaxInt64.
Definition is_uint64 (x : Z) : Prop := 0 <= x <= MaxUint64.

#[global] Instance is_int64_dec x : Decision (is_int64 x).
Proof. unfold is_int64; apply _. Defined.
#[global] Instance is_uint64_dec x : Decision (is_uint64 x).
Proof. unfold is_uint64; apply _. Defined.

(** Signed 64-bit operators of Go: [*], [-] wrap, [/] truncates toward zero. *)
Module I64.
Definition mul (a b : Z) : Z := int64 (a * b).
Definition sub (a b : Z) : Z := int64 (a - b).
Definition div (a b : Z) : Z := int64 (Z.quot a b).
End I64.

(** Unsigned 64-bit operators of Go. *)
Module U64.
Definition mul (a b : Z) : Z := uint64 (a * b).
Definition sub (a b : Z) : Z := uint64 (a - b).
End U64.

(** [%d] / [%v] of an integer. *)
Definition fmt_d (z : Z) : string := NilZero.string_of_int (Z.to_int z).

(* ===================================================================== *)
(** ** Paths: Go's [path.Join], [path.Clean] and [filepath.Base] (Unix) *)
(* ===================================================================== *)

Definition slash : ascii := "/"%char.

(** [strings.Split(s, "/")]: always at least one component. *)
Fixpoint split_slash (s : string) : list string :=
  match s with
  | EmptyString => [EmptyString]
  | String a rest =>
      if Ascii.eqb a slash then EmptyString :: split_slash rest
      else match split_slash rest with
           | h :: t => String a h :: t
           | [] => [String a EmptyString]
           end
  end.

Fixpoint join_slash (l : list string) : string :=
  match l with
  | [] => EmptyString
  | [x] => x
  | x :: rest => x +:+ "/" +:+ join_slash rest
  end.

(** One step of [path.Clean] on a path element; [out] is the cleaned prefix,
    last element first. *)
Definition clean_step (rooted : bool) (out : list string) (elem : string)
  : list string :=
  if String.eqb elem "" then out
  else if String.eqb elem "." then out
  else if String.eqb elem ".." then
    match out with
    | top :: below =>
        if String.eqb top ".." then elem :: out else below
    | [] => if rooted then out else [elem]
    end
  else elem :: out.

Definition path_Clean (p : string) : string :=
  match p with
  | EmptyString => "."
  | String c _ =>
      let rooted := Ascii.eqb c slash in
      let out := rev (fold_left (clean_step rooted) (split_slash p) []) in
      let body := join_slash out in
      if rooted then "/" +:+ body
      else if String.eqb body "" then "." else body
  end.

Fixpoint path_Join (elem : list string) : string :=
  match elem with
  | [] => EmptyString
  | e :: rest =>
      if String.eqb e "" then path_Join rest
      else path_Clean (join_slash elem)
  end.

(** [filepath.Base]: the last element of the path, trailing slashes removed. *)
Definition filepath_Base (p : string) : string :=
  match p with
  | EmptyString => "."
  | _ =>
      match filter (fun e => e <> EmptyString) (rev (split_slash p)) with
      | last :: _ => last
      | [] => "/"
      end
  end.

(* ===================================================================== *)
(** ** Errors, files and the world *)
(* ===================================================================== *)

(** A Go [error] value.  [ErrNotExist] is the class recognised by
    [os.IsNotExist]; [ErrOS] is any other failure reported by the operating
    system or a collaborator; [ErrFmt] is an error built by [fmt.Errorf]. *)
Inductive error : Type :=
| ErrNotExist (path : string)
| ErrOS (msg : string)
| ErrFmt (msg : string).

Definition os_IsNotExist (e : error) : bool :=
  match e with ErrNotExist _ => true | _ => false end.

Inductive res (A : Type) : Type :=
| Ok (a : A)
| Err (e : error).
Arguments Ok {A} a.
Arguments Err {A} e.

Inductive owner : Type := OwnerProcess | OwnerQemu.

(** What [os.Stat] reports of a regular file: logical length, modification
    time (a reading of the world's logical clock) and owner. *)
Record FileInfo : Type := mkFileInfo {
  Size : Z;
  ModTime : nat;
  Owner : owner;
}.

(** Calls made to the outside, in the order they are issued. *)
Inductive Op : Type :=
| OpStat (path : string)
| OpProbe (dir : string) (reserve : Z)
| OpCreate (path : string)
| OpWriteAt (path : string) (offset : Z)
| OpClose (path : string)
| OpChown (path : string)
| OpSendK8sEvent (namespace name severity reason message : string).

Record World : Type := mkWorld {
  files : gmap string FileInfo;
  now : nat;
  trace : list Op;
}.

Definition record_op (op : Op) (w : World) : World :=
  {| files := files w; now := now w; trace := trace w ++ [op] |}.

Definition put_file (path : string) (f : FileInfo) (w : World) : World :=
  {| files := <[path := f]> (files w); now := S (now w); trace := trace w |}.

(** [syscall.Statfs_t], the two fields the probe reads. *)
Record Statfs_t : Type := mkStatfs {
  Bavail : Z;   (* uint64 *)
  Bsize : Z;    (* int64 *)
}.

(** What the program cannot decide itself: failures of system calls (a
    message when the call fails with an error other than "not exist", [None]
    when it goes through), the file system statistics, the mutable package
    variable [pvcBaseDir], and [types.HasSharedAccessMode], whose body lies
    outside this package. *)
Record Env : Type := mkEnv {
  pvcBaseDir : string;
  stat_fault : World -> string -> option string;
  statfs : World -> string -> res Statfs_t;
  create_fault : World -> string -> option string;
  write_fault : World -> string -> Z -> option string;
  close_fault : World -> string -> option string;
  chown_fault : World -> string -> option string;
  HasSharedAccessMode : list string -> bool;
}.

(** *** The state-and-error monad *)

Definition M (A : Type) : Type := World -> res A * World.

Definition ret {A} (a : A) : M A := fun w => (Ok a, w).
Definition fail {A} (e : error) : M A := fun w => (Err e, w).
Definition bind {A B} (m : M A) (k : A -> M B) : M B :=
  fun w => match m w with
           | (Ok a, w') => k a w'
           | (Err e, w') => (Err e, w')
           end.

Notation "'let*' x ':=' m 'in' k" := (bind m (fun x => k))
  (at level 10, x name, m at level 100, k at level 200, only parsing).
Notation "'let*' '_' ':=' m 'in' k" := (bind m (fun _ => k))
  (at level 10, m at level 100, k at level 200, only parsing).

(** Modelled from the spec: [util.CloseIOAndCheckErr(f, &err)], which is
    not part of this package, run by [defer] ("any I/O error here is fatal").
    The deferred [cleanup] runs after [body] on every path; its error
    becomes the named result [err] when [body] left that nil. *)
Definition defer_check (body cleanup : M unit) : M unit :=
  fun w =>
    let (r, w1) := body w in
    let (c, w2) := cleanup w1 in
    (match r with Ok _ => c | Err e => Err e end, w2).

Section Program.

Context (E : Env).

(* ===================================================================== *)
(** ** Operating system calls *)
(* ===================================================================== *)

(** [os.Create]: creates the file, or truncates it when it exists. *)
Definition os_Create (path : string) : M unit :=
  fun w =>
    let w1 := record_op (OpCreate path) w in
    match create_fault E w path with
    | Some msg => (Err (ErrOS msg), w1)
    | None =>
        let o := match files w !! path with
                 | Some f => Owner f
                 | None => OwnerProcess
                 end in
        (Ok tt, put_file path (mkFileInfo 0 (now w) o) w1)
    end.

(** [f.WriteAt([]byte{0}, offset)] on the file opened at [path].  Go rejects
    a negative offset; the kernel rejects a write that would end beyond the
    largest file offset. *)
Definition os_WriteAt (path : string) (offset : Z) : M unit :=
  fun w =>
    let w1 := record_op (OpWriteAt path offset) w in
    if offset <? 0 then (Err (ErrOS "negative offset"), w1)
    else if MaxInt64 <=? offset then (Err (ErrOS "file too large"), w1)
    else
      match write_fault E w path offset, files w !! path with
      | Some msg, _ => (Err (ErrOS msg), w1)
      | None, None => (Err (ErrOS "bad file descriptor"), w1)
      | None, Some f =>
          (Ok tt,
           put_file path
             (mkFileInfo (Z.max (Size f) (offset + 1)) (now w) (Owner f)) w1)
      end.

Definition os_Close (path : string) : M unit :=
  fun w =>
    let w1 := record_op (OpClose path) w in
    match close_fault E w path with
    | Some msg => (Err (ErrOS msg), w1)
    | None => (Ok tt, w1)
    end.

(** Modelled from the spec: [ephemeraldiskutils.FileExists], which is not
    part of this package ("if the target file already exists").  It stats
    the path; "not exist" is the answer [false], any other failure is an
    error. *)
Definition FileExists (path : string) : M bool :=
  fun w =>
    let w1 := record_op (OpStat path) w in
    match stat_fault E w path with
    | Some msg => (Err (ErrOS msg), w1)
    | None => (Ok (bool_decide (is_Some (files w !! path))), w1)
    end.

(** Modelled from the spec:
    [ephemeraldiskutils.DefaultOwnershipManager.SetFileOwnership], which is
    not part of this package ("normalize ownership of Path to the
    hypervisor's runtime user"; "not exists" is the error it reports for a
    missing file).  Neither the length nor the modification time of the file
    changes. *)
Definition SetFileOwnership (path : string) : M unit :=
  fun w =>
    let w1 := record_op (OpChown path) w in
    match files w !! path with
    | None => (Err (ErrNotExist path), w1)
    | Some f =>
        match chown_fault E w path with
        | Some msg => (Err (ErrOS msg), w1)
        | None =>
            (Ok tt,
             {| files := <[path := mkFileInfo (Size f) (ModTime f) OwnerQemu]>
                           (files w1);
                now := now w1; trace := trace w1 |})
        end
    end.

End Program.

(* ===================================================================== *)
(** ** The VM instance, as far as this package reads it *)
(* ===================================================================== *)

(** [resource.Quantity], restricted to whole numbers of bytes.  [AsInt64]
    answers [(0, false)] for an amount that does not fit 64 signed bits. *)
Definition Quantity : Type := Z.

Definition Quantity_AsInt64 (q : Quantity) : Z * bool :=
  if decide (is_int64 q) then (q, true) else (0, false).

(** Constants of the API packages ([v1.HostDiskType],
    [k8sv1.PersistentVolumeMode], [k8sv1.ResourceName], event types). *)
Definition HostDiskExists : string := "Disk".
Definition HostDiskExistsOrCreate : string := "DiskOrCreate".
Definition PersistentVolumeBlock : string := "Block".
Definition PersistentVolumeFilesystem : string := "Filesystem".
Definition ResourceStorage : string := "storage".
Definition EventTypeNormal : string := "Normal".
Definition EventTypeWarning : string := "Warning".

Record HostDisk : Type := mkHostDisk {
  Path : string;
  Type_ : string;
  Capacity : Quantity;
  Shared : option bool;
}.

Record PersistentVolumeClaimVolumeSource : Type := mkPVCSource {
  ClaimName : string;
}.

(** [v1.VolumeSource]: a struct of optional sources.  The sources this
    package never looks at are kept as one opaque field. *)
Record VolumeSource : Type := mkVolumeSource {
  vs_HostDisk : option HostDisk;
  vs_PersistentVolumeClaim : option PersistentVolumeClaimVolumeSource;
  vs_Other : option string;
}.

Record Volume : Type := mkVolume {
  Name : string;
  Source : VolumeSource;
}.

Record PersistentVolumeClaimInfo : Type := mkPVCInfo {
  VolumeMode : option string;
  AccessModes : list string;
  info_Capacity : gmap string Quantity;
}.

Record VolumeStatus : Type := mkVolumeStatus {
  status_Name : string;
  HotplugVolume : option unit;
  status_PersistentVolumeClaimInfo : option PersistentVolumeClaimInfo;
}.

Record Filesystem : Type := mkFilesystem {
  fs_Name : string;
}.

Record VirtualMachineInstance : Type := mkVMI {
  Namespace : string;
  vmi_Name : string;
  Spec_Volumes : list Volume;
  Spec_Domain_Devices_Filesystems : list Filesystem;
  Status_VolumeStatus : list VolumeStatus;
}.

Definition set_Volumes (vmi : VirtualMachineInstance) (vols : list Volume)
  : VirtualMachineInstance :=
  {| Namespace := Namespace vmi;
     vmi_Name := vmi_Name vmi;
     Spec_Volumes := vols;
     Spec_Domain_Devices_Filesystems := Spec_Domain_Devices_Filesystems vmi;
     Status_VolumeStatus := Status_VolumeStatus vmi |}.

(** The [k8sNotifier] interface: what delivering an event answers.  The
    event itself is recorded in the world's trace by [SendK8sEvent]. *)
Record k8sNotifier : Type := mkNotifier {
  deliver : World -> VirtualMachineInstance -> string -> string -> string
            -> option error;
}.

Definition SendK8sEvent (n : k8sNotifier) (vmi : VirtualMachineInstance)
    (severity reason message : string) : M unit :=
  fun w =>
    let w1 := record_op
                (OpSendK8sEvent (Namespace vmi) (vmi_Name vmi)
                   severity reason message) w in
    match deliver n w vmi severity reason message with
    | Some e => (Err e, w1)
    | None => (Ok tt, w1)
    end.

Record DiskImgCreator : Type := mkDiskImgCreator {
  dirBytesAvailableFunc : World -> string -> Z -> res Z;
  notifier : k8sNotifier;
  lessPVCSpaceToleration : Z;     (* int *)
  minimumPVCReserveBytes : Z;     (* uint64 *)
}.

Definition EventReasonToleratedSmallPV : string := "ToleratedSmallPV".
Definition EventTypeToleratedSmallPV : string := EventTypeNormal.

Definition passthoughFSVolumes_of (fss : list Filesystem) : gset string :=
  foldl (fun m fs => {[ fs_Name fs ]} ∪ m) ∅ fss.

(** The first loop of [ReplacePVCByHostDisk] over the volume status: the
    maps [pvcVolume] and [hotplugVolumes]. *)
Definition index_status_step
    (acc : gmap string VolumeStatus * gmap string bool)
    (volumeStatus : VolumeStatus)
  : gmap string VolumeStatus * gmap string bool :=
  let '(pvcVolume, hotplugVolumes) := acc in
  let hotplugVolumes :=
    match HotplugVolume volumeStatus with
    | Some _ => <[status_Name volumeStatus := true]> hotplugVolumes
    | None => hotplugVolumes
    end in
  let pvcVolume :=
    match status_PersistentVolumeClaimInfo volumeStatus with
    | Some _ => <[status_Name volumeStatus := volumeStatus]> pvcVolume
    | None => pvcVolume
    end in
  (pvcVolume, hotplugVolumes).

Definition index_status (sts : list VolumeStatus)
  : gmap string VolumeStatus * gmap string bool :=
  foldl index_status_step (∅, ∅) sts.

(** Result of the rewriting loop: the volumes as they stand, the error
    returned (if any) and the world. *)
Definition rewrite_result : Type := list Volume * res unit * World.

Definition keep (v : Volume) (r : rewrite_result) : rewrite_result :=
  let '(vols, e, w) := r in (v :: vols, e, w).

Section HostDiskPackage.

Context (E : Env).

(* ===================================================================== *)
(** ** [host-disk.go] *)
(* ===================================================================== *)

Definition getPVCDiskImgPath (volumeName diskName : string) : string :=
  path_Join [pvcBaseDir E; volumeName; diskName].

Definition GetMountedHostDiskPath (volumeName path : string) : string :=
  getPVCDiskImgPath volumeName (filepath_Base path).

Definition GetMountedHostDiskDir (volumeName : string) : string :=
  getPVCDiskImgPath volumeName "".

(** The volume [ReplacePVCByHostDisk] writes in place of a PVC volume. *)
Definition hostDiskVolume (volume : Volume) (info : PersistentVolumeClaimInfo)
  : Volume :=
  let isShared := HasSharedAccessMode E (AccessModes info) in
  let file := getPVCDiskImgPath (Name volume) "disk.img" in
  {| Name := Name volume;
     Source :=
       {| vs_HostDisk :=
            Some {| Path := file;
                    Type_ := HostDiskExistsOrCreate;
                    Capacity := default 0 (info_Capacity info !! ResourceStorage);
                    Shared := Some isShared |};
          vs_PersistentVolumeClaim := None;
          vs_Other := vs_Other (Source volume) |} |}.

(** The second loop of [ReplacePVCByHostDisk].  The volumes are mutated in
    place, so the list is handed back on every path, also with an error. *)
Fixpoint replace_volumes
    (passthoughFSVolumes : gset string)
    (hotplugVolumes : gmap string bool)
    (pvcVolume : gmap string VolumeStatus)
    (volumes : list Volume) (w : World) : rewrite_result :=
  match volumes with
  | [] => ([], Ok tt, w)
  | volume :: rest =>
      let continue v w' :=
        keep v (replace_volumes passthoughFSVolumes hotplugVolumes pvcVolume
                  rest w') in
      match vs_PersistentVolumeClaim (Source volume) with
      | None => continue volume w
      | Some _ =>
          if decide (Name volume ∈ passthoughFSVolumes) then continue volume w
          else if default false (hotplugVolumes !! Name volume)
          then continue volume w
          else
            match pvcVolume !! Name volume with
            | None => continue volume w
            | Some volumeStatus =>
                match status_PersistentVolumeClaimInfo volumeStatus with
                | None => continue volume w   (* never stored in [pvcVolume] *)
                | Some info =>
                    match VolumeMode info with
                    | None => continue volume w
                    | Some mode =>
                        if String.eqb mode PersistentVolumeBlock
                        then continue volume w
                        else
                          let volume' := hostDiskVolume volume info in
                          let file :=
                            getPVCDiskImgPath (Name volume) "disk.img" in
                          match SetFileOwnership E file w with
                          | (Err err, w1) =>
                              if negb (os_IsNotExist err)
                              then (volume' :: rest, Err err, w1)
                              else continue volume' w1
                          | (Ok _, w1) => continue volume' w1
                          end
                    end
                end
            end
      end
  end.

Definition ReplacePVCByHostDisk (vmi : VirtualMachineInstance) (w : World)
  : VirtualMachineInstance * res unit * World :=
  let passthoughFSVolumes :=
    passthoughFSVolumes_of (Spec_Domain_Devices_Filesystems vmi) in
  let '(pvcVolume, hotplugVolumes) :=
    index_status (Status_VolumeStatus vmi) in
  let '(vols, r, w') :=
    replace_volumes passthoughFSVolumes hotplugVolumes pvcVolume
      (Spec_Volumes vmi) w in
  (set_Volumes vmi vols, r, w').

Definition dirBytesAvailable (w : World) (path : string) (reserve : Z)
  : res Z :=
  match statfs E w path with
  | Err err => Err err
  | Ok stat => Ok (U64.sub (U64.mul (Bavail stat) (uint64 (Bsize stat))) reserve)
  end.

Definition createSparseRaw (fullPath : string) (size : Z) : M unit :=
  let offset := I64.sub size 1 in
  let* _ := os_Create E fullPath in
  defer_check (os_WriteAt E fullPath offset) (os_Close E fullPath).

Definition NewHostDiskCreator (notifier : k8sNotifier)
    (lessPVCSpaceToleration : Z) (minimumPVCReserveBytes : Z)
  : DiskImgCreator :=
  {| dirBytesAvailableFunc := dirBytesAvailable;
     notifier := notifier;
     lessPVCSpaceToleration := lessPVCSpaceToleration;
     minimumPVCReserveBytes := minimumPVCReserveBytes |}.

Definition setlessPVCSpaceToleration (hdc : DiskImgCreator) (toleration : Z)
  : DiskImgCreator :=
  {| dirBytesAvailableFunc := dirBytesAvailableFunc hdc;
     notifier := notifier hdc;
     lessPVCSpaceToleration := toleration;
     minimumPVCReserveBytes := minimumPVCReserveBytes hdc |}.

Definition shouldMountHostDisk (hostDisk : option HostDisk) : bool :=
  match hostDisk with
  | None => false
  | Some hd =>
      String.eqb (Type_ hd) HostDiskExistsOrCreate
      && negb (String.eqb (Path hd) "")
  end.

(** The call [hdc.dirBytesAvailableFunc(diskDir, reserve)], recorded. *)
Definition probe (hdc : DiskImgCreator) (dir : string) (reserve : Z) : M Z :=
  fun w => (dirBytesAvailableFunc hdc w dir reserve,
            record_op (OpProbe dir reserve) w).

Definition toleratedSize (hdc : DiskImgCreator) (requestedSize : Z) : Z :=
  I64.div
    (I64.mul requestedSize (I64.sub 100 (int64 (lessPVCSpaceToleration hdc))))
    100.

Definition shrink_error (hdc : DiskImgCreator) (hostDisk : HostDisk)
    (requestedSize availableSize : Z) : error :=
  ErrFmt ("unable to create " +:+ Path hostDisk
          +:+ ", not enough space, demanded size "
          +:+ fmt_d (uint64 requestedSize)
          +:+ " B is bigger than available space "
          +:+ fmt_d availableSize
          +:+ " B, also after taking "
          +:+ fmt_d (lessPVCSpaceToleration hdc)
          +:+ " % toleration into account").

Definition shrink_message (hdc : DiskImgCreator)
    (requestedSize availableSize : Z) : string :=
  "PV size too small: expected " +:+ fmt_d requestedSize
  +:+ " B, found " +:+ fmt_d availableSize
  +:+ " B. Using it anyway, it is within "
  +:+ fmt_d (lessPVCSpaceToleration hdc) +:+ " % toleration".

Definition shrinkRequestedSize (hdc : DiskImgCreator)
    (vmi : VirtualMachineInstance) (requestedSize availableSize : Z)
    (hostDisk : HostDisk) : M Z :=
  if toleratedSize hdc requestedSize >? availableSize
  then fail (shrink_error hdc hostDisk requestedSize availableSize)
  else
    let msg := shrink_message hdc requestedSize availableSize in
    fun w =>
      (* the error of the notifier is logged and dropped *)
      let (_, w1) :=
        SendK8sEvent (notifier hdc) vmi EventTypeToleratedSmallPV
          EventReasonToleratedSmallPV msg w in
      (Ok availableSize, w1).

Definition handleRequestedSizeAndCreateSparseRaw (hdc : DiskImgCreator)
    (vmi : VirtualMachineInstance) (diskDir diskPath : string)
    (hostDisk : HostDisk) : M unit :=
  let* size := probe hdc diskDir (minimumPVCReserveBytes hdc) in
  let availableSize := int64 size in
  let requestedSize := fst (Quantity_AsInt64 (Capacity hostDisk)) in
  let* requestedSize :=
    (if requestedSize >? availableSize
     then shrinkRequestedSize hdc vmi requestedSize availableSize hostDisk
     else ret requestedSize) in
  createSparseRaw diskPath requestedSize.

Definition mountHostDiskAndSetOwnership (hdc : DiskImgCreator)
    (vmi : VirtualMachineInstance) (volumeName : string)
    (hostDisk : HostDisk) : M unit :=
  let diskPath := GetMountedHostDiskPath volumeName (Path hostDisk) in
  let diskDir := GetMountedHostDiskDir volumeName in
  let* fileExists := FileExists E diskPath in
  let* _ :=
    (if negb fileExists
     then handleRequestedSizeAndCreateSparseRaw hdc vmi diskDir diskPath
            hostDisk
     else ret tt) in
  SetFileOwnership E diskPath.

(** The loop of [Create] over [vmi.Spec.Volumes]. *)
Fixpoint create_volumes (hdc : DiskImgCreator) (vmi : VirtualMachineInstance)
    (volumes : list Volume) : M unit :=
  match volumes with
  | [] => ret tt
  | volume :: rest =>
      match vs_HostDisk (Source volume) with
      | Some hostDisk =>
          if shouldMountHostDisk (Some hostDisk)
          then
            let* _ := mountHostDiskAndSetOwnership hdc vmi (Name volume)
                        hostDisk in
            create_volumes hdc vmi rest
          else create_volumes hdc vmi rest
      | None => create_volumes hdc vmi rest
      end
  end.

Definition Create (hdc : DiskImgCreator) (vmi : VirtualMachineInstance)
  : M unit :=
  create_volumes hdc vmi (Spec_Volumes vmi).

End HostDiskPackage.

(* ===================================================================== *)
(** ** [tests/utils.go]: waiting for configuration propagation *)
(* ===================================================================== *)

(** *** [strconv.ParseInt] in base 10 *)

Inductive NumError : Type := ErrSyntax | ErrRange.

Definition digit_of (c : ascii) : option Z :=
  let n := Z.of_N (N_of_ascii c) in
  if (48 <=? n) && (n <=? 57) then Some (n - 48) else None.

(** The loop of [strconv.ParseUint(s, 10, bitSize)] with accumulator [n];
    [maxVal] is [1<<bitSize - 1].  The result is Go's pair (value, error). *)
Fixpoint ParseUint_loop (maxVal : Z) (s : string) (n : Z)
  : Z * option NumError :=
  match s with
  | EmptyString => (n, None)
  | String c rest =>
      match digit_of c with
      | None => (0, Some ErrSyntax)
      | Some d =>
          if n >=? MaxUint64 / 10 + 1 then (maxVal, Some ErrRange)
          else
            let n := U64.mul n 10 in
            let n1 := uint64 (n + d) in
            if (n1 <? n) || (n1 >? maxVal) then (maxVal, Some ErrRange)
            else ParseUint_loop maxVal rest n1
      end
  end.

Definition ParseUint10 (s : string) (bitSize : Z) : Z * option NumError :=
  match s with
  | EmptyString => (0, Some ErrSyntax)
  | _ => ParseUint_loop (2 ^ bitSize - 1) s 0
  end.

Definition ParseInt10 (s : string) (bitSize : Z) : Z * option NumError :=
  match s with
  | EmptyString => (0, Some ErrSyntax)
  | String c rest =>
      let '(neg, s) :=
        if Ascii.eqb c "+"%char then (false, rest)
        else if Ascii.eqb c "-"%char then (true, rest)
        else (false, s) in
      match ParseUint10 s bitSize with
      | (_, Some ErrSyntax) => (0, Some ErrSyntax)
      | (un, _) =>
          let cutoff := 2 ^ (bitSize - 1) in
          if negb neg && (un >=? cutoff) then (cutoff - 1, Some ErrRange)
          else if neg && (un >? cutoff) then (- cutoff, Some ErrRange)
          else
            let n := int64 un in
            (if neg then - n else n, None)
      end
  end.

(** Go's [>] on strings: byte-wise lexicographic order. *)
Definition string_gt (a b : string) : bool :=
  match String.compare a b with Gt => true | _ => false end.

Definition compare : Type := string -> string -> bool.

Definition ExpectResourceVersionToBeLessThanConfigVersion
    (resourceVersion configVersion : string) : bool :=
  match ParseInt10 resourceVersion 32 with
  | (_, Some _) => false
  | (rv, None) =>
      match ParseInt10 configVersion 32 with
      | (_, Some _) => false
      | (crv, None) => if rv >? crv then false else true
      end
  end.

Definition ExpectResourceVersionToBeEqualConfigVersion
    (resourceVersion configVersion : string) : bool :=
  if string_gt resourceVersion configVersion then false else true.

(** *** The polled cluster *)

Inductive JSON : Type :=
| JString (s : string)
| JOther.

(** A response body, identified with what [json.Unmarshal] into a
    [map[string]interface{}] makes of it. *)
Inductive body : Type :=
| NotAnObject
| Object (fields : gmap string JSON).

Definition json_Unmarshal (b : body) : res (gmap string JSON) :=
  match b with
  | NotAnObject => Err (ErrOS "invalid character")
  | Object fields => Ok fields
  end.

Record Pod : Type := mkPod {
  pod_Name : string;
  DeletionTimestamp : option nat;
}.

(** What the cluster answers during one poll. *)
Record Cluster : Type := mkCluster {
  list_pods : string -> res (list Pod);
  CallUrlOnPod : Pod -> string -> string -> res body;
}.

(** What the polled function does: return nil, return an error, or panic. *)
Inductive outcome : Type :=
| ReturnsNil
| ReturnsError (msg : string)
| Panics.

Inductive wait_result : Type :=
| Converged
| TimedOut (lastError : string)
| Panicked.

Fixpoint trim_prefix (s prefix : string) : option string :=
  match prefix, s with
  | EmptyString, _ => Some s
  | String p ps, String c cs =>
      if Ascii.eqb c p then trim_prefix cs ps else None
  | String _ _, EmptyString => None
  end.

Definition strings_TrimPrefix (s prefix : string) : string :=
  default s (trim_prefix s prefix).

Definition dquote : string := String (ascii_of_nat 34) EmptyString.

Section Waiter.

Context (podLabel resourceVersion : string)
        (compareResourceVersions : compare).

Definition errComponentInfo : string :=
  "component: " +:+ dquote
  +:+ strings_TrimPrefix podLabel "kubevirt.io=" +:+ dquote.

(** The body of the loop [for _, pod := range pods.Items]. *)
Fixpoint check_pods (c : Cluster) (pods : list Pod) : outcome :=
  match pods with
  | [] => ReturnsNil
  | pod :: rest =>
      let errAdditionalInfo :=
        errComponentInfo +:+ ", pod: " +:+ dquote +:+ pod_Name pod
        +:+ dquote in
      match DeletionTimestamp pod with
      | Some _ => check_pods c rest
      | None =>
          match CallUrlOnPod c pod "8443" "/healthz" with
          | Err _ =>
              ReturnsError
                ("failed to call healthz endpoint. " +:+ errAdditionalInfo)
          | Ok b =>
              match json_Unmarshal b with
              | Err _ =>
                  ReturnsError
                    ("failed to parse response from healthz endpoint. "
                     +:+ errAdditionalInfo)
              | Ok result =>
                  (* result["config-resource-version"].(string) *)
                  match result !! "config-resource-version" with
                  | Some (JString configVersion) =>
                      if negb (compareResourceVersions resourceVersion
                                 configVersion)
                      then
                        ReturnsError
                          ("resource & config versions (" +:+ resourceVersion
                           +:+ " and " +:+ configVersion
                           +:+ " respectively) are not as expected. "
                           +:+ errAdditionalInfo +:+ " ")
                      else check_pods c rest
                  | _ => Panics
                  end
              end
          end
      end
  end.

(** The function handed to [EventuallyWithOffset]. *)
Definition poll (c : Cluster) : outcome :=
  match list_pods c podLabel with
  | Err _ => ReturnsError ("failed to fetch pods. " +:+ errComponentInfo)
  | Ok pods => check_pods c pods
  end.

(** [Eventually(f, timeout, interval).ShouldNot(HaveOccurred())]: the polls
    that fit in the timeout see the clusters [attempts], in this order.  A
    nil result ends the wait, an error is retried, a panic is not caught. *)
Fixpoint Eventually (last : string) (attempts : list Cluster) : wait_result :=
  match attempts with
  | [] => TimedOut last
  | c :: later =>
      match poll c with
      | ReturnsNil => Converged
      | ReturnsError msg => Eventually msg later
      | Panics => Panicked
      end
  end.

Definition WaitForConfigToBePropagatedToComponent (attempts : list Cluster)
  : wait_result :=
  Eventually "" attempts.

End Waiter.

(* ===================================================================== *)
(** ** Vocabulary of the statements *)
(* ===================================================================== *)

(** [f'] has the length and the modification time of [f]. *)
Definition same_data (f f' : FileInfo) : Prop :=
  Size f' = Size f /\ ModTime f' = ModTime f.

(** Every file of [w] is still there in [w'], with its length and its
    modification time. *)
Definition keeps_files (w w' : World) : Prop :=
  forall p f, files w !! p = Some f ->
    exists f', files w' !! p = Some f' /\ same_data f f'.

(** No system call fails in the environment [E], whatever the world. *)
Definition no_faults (E : Env) (path : string) : Prop :=
  (forall w, stat_fault E w path = None) /\
  (forall w, create_fault E w path = None) /\
  (forall w off, write_fault E w path off = None) /\
  (forall w, close_fault E w path = None) /\
  (forall w, chown_fault E w path = None).

(** The volumes of [vols] that [Create] materialises, with their target. *)
Definition mounted_targets (E : Env) (vols : list Volume) : list string :=
  omap (fun v =>
          match vs_HostDisk (Source v) with
          | Some hd =>
              if shouldMountHostDisk (Some hd)
              then Some (GetMountedHostDiskPath E (Name v) (Path hd))
              else None
          | None => None
          end) vols.

(** The trace of [w'] continues the trace of [w]. *)
Definition continues (w w' : World) : Prop :=
  exists ops, trace w' = trace w ++ ops.

(* ===================================================================== *)
(** ** Fixtures, after the package's test suite *)
(* ===================================================================== *)

Module Fixture.

Definition tempDir : string := "/tmp/host-disk-images".

(** An environment in which no system call fails and the file system
    reports [stat]. *)
Definition quiet (stat : Statfs_t) : Env :=
  {| pvcBaseDir := tempDir;
     stat_fault := fun _ _ => None;
     statfs := fun _ _ => Ok stat;
     create_fault := fun _ _ => None;
     write_fault := fun _ _ _ => None;
     close_fault := fun _ _ => None;
     chown_fault := fun _ _ => None;
     HasSharedAccessMode :=
       fun modes => bool_decide ("ReadWriteMany" ∈ modes) |}.

(** The same, except that changing the owner of [path] is refused. *)
Definition chown_refused (stat : Statfs_t) (path : string) : Env :=
  {| pvcBaseDir := tempDir;
     stat_fault := fun _ _ => None;
     statfs := fun _ _ => Ok stat;
     create_fault := fun _ _ => None;
     write_fault := fun _ _ _ => None;
     close_fault := fun _ _ => None;
     chown_fault :=
       fun _ p => if String.eqb p path
                  then Some "operation not permitted" else None;
     HasSharedAccessMode :=
       fun modes => bool_decide ("ReadWriteMany" ∈ modes) |}.

(** 1 GiB free in 4 KiB blocks. *)
Definition roomy : Statfs_t := {| Bavail := 262144; Bsize := 4096 |}.

Definition MockNotifier : k8sNotifier :=
  {| deliver := fun _ _ _ _ _ => None |}.


Definition empty_world : World := {| files := ∅; now := 0; trace := [] |}.

Definition NewMinimalVMI (name : string) : VirtualMachineInstance :=
  {| Namespace := "default";
     vmi_Name := name;
     Spec_Volumes := [];
     Spec_Domain_Devices_Filesystems := [];
     Status_VolumeStatus := [] |}.

Definition hostDiskOf (volumeName hostDiskType : string)
    (capacity : Quantity) : Volume :=
  {| Name := volumeName;
     Source :=
       {| vs_HostDisk :=
            Some {| Path := path_Join [tempDir; volumeName; "disk.img"];
                    Type_ := hostDiskType;
                    Capacity := capacity;
                    Shared := None |};
          vs_PersistentVolumeClaim := None;
          vs_Other := None |} |}.

Definition addHostDisk (vmi : VirtualMachineInstance)
    (volumeName hostDiskType : string) (capacity : Quantity)
  : VirtualMachineInstance :=
  set_Volumes vmi
    (Spec_Volumes vmi ++ [hostDiskOf volumeName hostDiskType capacity]).

Definition Mi : Z := 1048576.

(** A probe that reports a fixed amount, as the tests install. *)
Definition fixed_probe (available : Z) : World -> string -> Z -> res Z :=
  fun _ _ reserve => Ok (U64.sub available reserve).

Definition with_probe (hdc : DiskImgCreator)
    (f : World -> string -> Z -> res Z) : DiskImgCreator :=
  {| dirBytesAvailableFunc := f;
     notifier := notifier hdc;
     lessPVCSpaceToleration := lessPVCSpaceToleration hdc;
     minimumPVCReserveBytes := minimumPVCReserveBytes hdc |}.

Definition volume1_img : string := "/tmp/host-disk-images/volume1/disk.img".

End Fixture.

(* ===================================================================== *)
(** ** Vocabulary of the rewriter's statements *)
(* ===================================================================== *)

(** The test the loop of [ReplacePVCByHostDisk] applies to one volume: the
    claim information the HostDisk is built from, when the volume is to be
    rewritten. *)
Definition replacement (passthoughFSVolumes : gset string)
    (hotplugVolumes : gmap string bool)
    (pvcVolume : gmap string VolumeStatus) (volume : Volume)
  : option PersistentVolumeClaimInfo :=
  match vs_PersistentVolumeClaim (Source volume) with
  | None => None
  | Some _ =>
      if decide (Name volume ∈ passthoughFSVolumes) then None
      else if default false (hotplugVolumes !! Name volume) then None
      else
        info ← (pvcVolume !! Name volume ≫= status_PersistentVolumeClaimInfo);
        mode ← VolumeMode info;
        if String.eqb mode PersistentVolumeBlock then None else Some info
  end.

Definition replacement_of (vmi : VirtualMachineInstance) (volume : Volume)
  : option PersistentVolumeClaimInfo :=
  replacement
    (passthoughFSVolumes_of (Spec_Domain_Devices_Filesystems vmi))
    (snd (index_status (Status_VolumeStatus vmi)))
    (fst (index_status (Status_VolumeStatus vmi)))
    volume.

(** The volume as the loop leaves it. *)
Definition rewritten (E : Env) (vmi : VirtualMachineInstance)
    (volume : Volume) : Volume :=
  match replacement_of vmi volume with
  | Some info => hostDiskVolume E volume info
  | None => volume
  end.

(** The volume's name is that of a filesystem (passthrough) device. *)
Definition passthrough_named (vmi : VirtualMachineInstance) (name : string)
  : Prop :=
  exists fs, fs ∈ Spec_Domain_Devices_Filesystems vmi /\ fs_Name fs = name.

(** Some entry of the volume status marks the name as hotplugged. *)
Definition marked_hotplugged (vmi : VirtualMachineInstance) (name : string)
  : Prop :=
  exists st, st ∈ Status_VolumeStatus vmi /\ status_Name st = name
             /\ is_Some (HotplugVolume st).

(** The status entry the rewriter goes by: the last one of that name that
    carries claim information. *)
Definition recorded_claim (vmi : VirtualMachineInstance) (name : string)
  : option VolumeStatus :=
  last (filter (fun st => status_Name st = name
                          /\ is_Some (status_PersistentVolumeClaimInfo st))
          (Status_VolumeStatus vmi)).

(** Eligibility as the code decides it. *)
Definition eligible (vmi : VirtualMachineInstance) (volume : Volume)
    (info : PersistentVolumeClaimInfo) : Prop :=
  is_Some (vs_PersistentVolumeClaim (Source volume))
  /\ ~ passthrough_named vmi (Name volume)
  /\ ~ marked_hotplugged vmi (Name volume)
  /\ exists st mode,
       recorded_claim vmi (Name volume) = Some st
       /\ status_PersistentVolumeClaimInfo st = Some info
       /\ VolumeMode info = Some mode
       /\ mode <> PersistentVolumeBlock.

(** Eligibility in the words of the specification: a claim source, no
    passthrough declaration of that name, no hotplug mark, and a status
    entry whose claim information reports the Filesystem mode. *)
Definition eligible_as_stated (vmi : VirtualMachineInstance)
    (volume : Volume) : Prop :=
  is_Some (vs_PersistentVolumeClaim (Source volume))
  /\ ~ passthrough_named vmi (Name volume)
  /\ ~ marked_hotplugged vmi (Name volume)
  /\ exists st info,
       st ∈ Status_VolumeStatus vmi /\ status_Name st = Name volume
       /\ status_PersistentVolumeClaimInfo st = Some info
       /\ VolumeMode info = Some PersistentVolumeFilesystem.

(** The volume status names each volume once, and every volume mode is one
    of the two modes of the API. *)
Definition well_formed_status (vmi : VirtualMachineInstance) : Prop :=
  NoDup (status_Name <$> Status_VolumeStatus vmi)
  /\ forall st info mode,
       st ∈ Status_VolumeStatus vmi ->
       status_PersistentVolumeClaimInfo st = Some info ->
       VolumeMode info = Some mode ->
       mode = PersistentVolumeBlock \/ mode = PersistentVolumeFilesystem.

(** The two components of [index_status_step]. *)
Definition pvc_step (pvcVolume : gmap string VolumeStatus)
    (volumeStatus : VolumeStatus) : gmap string VolumeStatus :=
  match status_PersistentVolumeClaimInfo volumeStatus with
  | Some _ => <[status_Name volumeStatus := volumeStatus]> pvcVolume
  | None => pvcVolume
  end.

Definition hotplug_step (hotplugVolumes : gmap string bool)
    (volumeStatus : VolumeStatus) : gmap string bool :=
  match HotplugVolume volumeStatus with
  | Some _ => <[status_Name volumeStatus := true]> hotplugVolumes
  | None => hotplugVolumes
  end.

(** Fixtures of the rewriter's test table. *)
Module RewriteFixture.

Definition pvcVolumeOf (volumeName : string) : Volume :=
  {| Name := volumeName;
     Source := {| vs_HostDisk := None;
                  vs_PersistentVolumeClaim :=
                    Some {| ClaimName := "madeup" |};
                  vs_Other := None |} |}.

Definition infoOf (mode : string) : PersistentVolumeClaimInfo :=
  {| VolumeMode := Some mode; AccessModes := []; info_Capacity := ∅ |}.

Definition statusOf (volumeName mode : string) : VolumeStatus :=
  {| status_Name := volumeName;
     HotplugVolume := None;
     status_PersistentVolumeClaimInfo := Some (infoOf mode) |}.

Definition vmiOf (volumes : list Volume) (fss : list Filesystem)
    (statuses : list VolumeStatus) : VirtualMachineInstance :=
  {| Namespace := "testns";
     vmi_Name := "testvmi";
     Spec_Volumes := volumes;
     Spec_Domain_Devices_Filesystems := fss;
     Status_VolumeStatus := statuses |}.

Definition img (volumeName : string) : string :=
  path_Join [Fixture.tempDir; volumeName; "disk.img"].

(** A world in which the image of [volumeName] is already there. *)
Definition world_with (volumeName : string) : World :=
  {| files := {[ img volumeName := mkFileInfo (64 * Fixture.Mi) 3
                                     OwnerProcess ]};
     now := 4; trace := [] |}.

End RewriteFixture.

(* ===================================================================== *)
(** ** Vocabulary of the waiter's statements *)
(* ===================================================================== *)

(** The value of a string of decimal digits, continuing from [acc]. *)
Fixpoint digits_value (acc : Z) (s : string) : option Z :=
  match s with
  | EmptyString => Some acc
  | String c rest =>
      match digit_of c with
      | Some d => digits_value (acc * 10 + d) rest
      | None => None
      end
  end.

Definition unsigned_base10 (s : string) : option Z :=
  match s with
  | EmptyString => None
  | _ => digits_value 0 s
  end.

(** The integer a string denotes in base 10, in the words of the
    specification: an optional sign followed by one or more decimal digits,
    of any magnitude. *)
Definition base10_integer (s : string) : option Z :=
  match s with
  | EmptyString => None
  | String c rest =>
      if Ascii.eqb c "+"%char then unsigned_base10 rest
      else if Ascii.eqb c "-"%char then Z.opp <$> unsigned_base10 rest
      else unsigned_base10 s
  end.

Definition is_int32 (x : Z) : Prop := - 2 ^ 31 <= x <= 2 ^ 31 - 1.

(** The body of [ParseInt] after the sign has been taken off. *)
Definition ParseInt_signed (neg : bool) (s : string) : Z * option NumError :=
  match ParseUint10 s 32 with
  | (_, Some ErrSyntax) => (0, Some ErrSyntax)
  | (un, _) =>
      let cutoff := 2 ^ (32 - 1) in
      if negb neg && (un >=? cutoff) then (cutoff - 1, Some ErrRange)
      else if neg && (un >? cutoff) then (- cutoff, Some ErrRange)
      else let n := int64 un in (if neg then - n else n, None)
  end.

(** Lexicographic order on strings, byte by byte. *)
Inductive lex_le : string -> string -> Prop :=
| lex_le_empty s : lex_le EmptyString s
| lex_le_lt a s b t :
    (N_of_ascii a < N_of_ascii b)%N -> lex_le (String a s) (String b t)
| lex_le_eq a s t : lex_le s t -> lex_le (String a s) (String a t).

Definition version_key : string := "config-resource-version".

(** A pod that is not marked for deletion. *)
Definition live (pod : Pod) : Prop := DeletionTimestamp pod = None.

(** The pod answers the health call with an object whose version is a
    string the comparison accepts. *)
Definition passes (cmp : compare) (target : string) (c : Cluster) (pod : Pod)
  : Prop :=
  exists fields observed,
    CallUrlOnPod c pod "8443" "/healthz" = Ok (Object fields)
    /\ fields !! version_key = Some (JString observed)
    /\ cmp target observed = true.

(** The three conditions of the specification: the health call fails, the
    response does not parse, or the reported version fails the
    comparison. *)
Definition falls_short (cmp : compare) (target : string) (c : Cluster)
    (pod : Pod) : Prop :=
  (exists e, CallUrlOnPod c pod "8443" "/healthz" = Err e)
  \/ CallUrlOnPod c pod "8443" "/healthz" = Ok NotAnObject
  \/ (exists fields observed,
        CallUrlOnPod c pod "8443" "/healthz" = Ok (Object fields)
        /\ fields !! version_key = Some (JString observed)
        /\ cmp target observed = false).

(** The response parses, but carries no string under the version key: the
    type assertion of the polled function panics. *)
Definition lacks_version (c : Cluster) (pod : Pod) : Prop :=
  exists fields,
    CallUrlOnPod c pod "8443" "/healthz" = Ok (Object fields)
    /\ forall observed, fields !! version_key <> Some (JString observed).

(** Fixtures of the waiter. *)
Module WaitFixture.

Definition podOf (name : string) : Pod :=
  {| pod_Name := name; DeletionTimestamp := None |}.

(** [virt-api-a] answers with the empty object, [virt-api-b] cannot be
    reached. *)
Definition half_broken : Cluster :=
  {| list_pods := fun _ => Ok [podOf "virt-api-a"; podOf "virt-api-b"];
     CallUrlOnPod := fun pod _ _ =>
       if String.eqb (pod_Name pod) "virt-api-a" then Ok (Object ∅)
       else Err (ErrOS "connection refused") |}.

(** Every pod reports the version [observed]. *)
Definition settled (observed : string) : Cluster :=
  {| list_pods := fun _ => Ok [podOf "virt-api-a"; podOf "virt-api-b"];
     CallUrlOnPod := fun _ _ _ =>
       Ok (Object {[ version_key := JString observed ]}) |}.

End WaitFixture.

(* ===================================================================== *)
(** ** More of the two files: further definitions *)
(* ===================================================================== *)

(** The string contains a slash. *)
Fixpoint has_slash (s : string) : bool :=
  match s with
  | EmptyString => false
  | String c rest => Ascii.eqb c slash || has_slash rest
  end.

(** A path element [path.Clean] keeps as it is: no slash, and none of the
    empty string, "." and "..". *)
Definition plain (s : string) : Prop :=
  has_slash s = false /\ s <> "" /\ s <> "." /\ s <> "..".

(** A rooted path that is already clean and is not the root: a slash
    followed by plain elements separated by single slashes. *)
Definition clean_rooted (base : string) : Prop :=
  exists comps, comps <> [] /\ Forall plain comps
                /\ base = "/" +:+ join_slash comps.

(** Every file of [w] is in [w'] as it was, or as it was but for the owner,
    which is now qemu. *)
Definition settles (w w' : World) : Prop :=
  forall p f, files w !! p = Some f ->
    files w' !! p = Some f
    \/ files w' !! p = Some (mkFileInfo (Size f) (ModTime f) OwnerQemu).

Definition owned_by_qemu (w : World) (p : string) : Prop :=
  exists f, files w !! p = Some f /\ Owner f = OwnerQemu.

(** The calls made for an image that is already there. *)
Definition housekeeping (op : Op) : Prop :=
  exists p, op = OpStat p \/ op = OpChown p.

(** [tests/utils.go], [AddPVCFS]: a virtiofs filesystem and a claim volume
    of the same name.  (A [Filesystem] is kept by its name, the one field
    the rewriter reads.) *)
Definition AddPVCFS (vmi : VirtualMachineInstance) (name claimName : string)
  : VirtualMachineInstance :=
  {| Namespace := Namespace vmi;
     vmi_Name := vmi_Name vmi;
     Spec_Volumes :=
       Spec_Volumes vmi
       ++ [ {| Name := name;
               Source :=
                 {| vs_HostDisk := None;
                    vs_PersistentVolumeClaim :=
                      Some {| ClaimName := claimName |};
                    vs_Other := None |} |} ];
     Spec_Domain_Devices_Filesystems :=
       Spec_Domain_Devices_Filesystems vmi ++ [ {| fs_Name := name |} ];
     Status_VolumeStatus := Status_VolumeStatus vmi |}.

(** [tests/utils.go], [waitForConfigToBePropagated]: the three component
    classes one after the other, each with the polls that fit its own
    timeout.  A wait that does not converge fails the test there. *)
Definition waitForConfigToBePropagated (resourceVersion : string)
    (controller api handler : list Cluster) : wait_result :=
  match WaitForConfigToBePropagatedToComponent "kubevirt.io=virt-controller"
          resourceVersion ExpectResourceVersionToBeLessThanConfigVersion
          controller with
  | Converged =>
      match WaitForConfigToBePropagatedToComponent "kubevirt.io=virt-api"
              resourceVersion ExpectResourceVersionToBeLessThanConfigVersion
              api with
      | Converged =>
          WaitForConfigToBePropagatedToComponent "kubevirt.io=virt-handler"
            resourceVersion ExpectResourceVersionToBeLessThanConfigVersion
            handler
      | failed => failed
      end
  | failed => failed
  end.

(** [tests/utils.go], [RetryIfModified].  [do] is what the call number [k]
    of the closure answers ([None] is nil); [IsConflict] is
    [errors.IsConflict] on the errors of the closure. *)
Inductive retry_error (Err : Type) : Type :=
| Passed (e : Err)                 (* the closure's own error *)
| PermanentlyModified (e : Err).   (* fmt.Errorf("object seems to be ...") *)
Arguments Passed {Err} e.
Arguments PermanentlyModified {Err} e.

(** The loop, at the call number [calls], with [left] retries to go
    ([retries >= 10] is [left = 0]).  The result comes with the number of
    calls made. *)
Fixpoint retry_loop {Err : Type} (IsConflict : Err -> bool)
    (do : nat -> option Err) (calls left : nat)
  : option (retry_error Err) * nat :=
  match do calls with
  | None => (None, S calls)
  | Some e =>
      if IsConflict e then
        match left with
        | O => (Some (PermanentlyModified e), S calls)
        | S left' => retry_loop IsConflict do (S calls) left'
        end
      else (Some (Passed e), S calls)
  end.

Definition RetryIfModified {Err : Type} (IsConflict : Err -> bool)
    (do : nat -> option Err) : option (retry_error Err) * nat :=
  retry_loop IsConflict do 0 10.

(** [RetryWithMetadataIfModified]: the closure is called with the same
    object metadata every time. *)
Definition RetryWithMetadataIfModified {Meta Err : Type}
    (IsConflict : Err -> bool) (objectMeta : Meta)
    (do : Meta -> nat -> option Err) : option (retry_error Err) * nat :=
  RetryIfModified IsConflict (do objectMeta).

(** [tests/utils.go], [GetPodsCertIfSynced].  A certificate is a [[]byte];
    [None] is the nil slice, which [reflect.DeepEqual] tells from an empty
    one.  [GetCertsForPods] asks the pods; its answer is the argument. *)
Definition bytes : Type := option (list Byte.byte).

#[global] Instance bytes_eq_dec : EqDecision bytes.
Proof.
  unfold bytes. intros x y. unfold Decision.
  decide equality. decide equality. apply Byte.byte_eq_dec.
Defined.

(** The loop [for _, crt := range certs]: it stops at the first certificate
    that differs from the first one. *)
Fixpoint all_DeepEqual (first : bytes) (certs : list bytes) : bool :=
  match certs with
  | [] => true
  | crt :: rest =>
      if negb (bool_decide (first = crt)) then false
      else all_DeepEqual first rest
  end.

Definition GetPodsCertIfSynced (GetCertsForPods : res (list bytes))
  : bytes * bool * option error :=
  match GetCertsForPods with
  | Err err => (None, false, Some err)
  | Ok certs =>
      match certs with
      | [] => (None, true, None)
      | first :: _ =>
          if all_DeepEqual first certs then (first, true, None)
          else (None, false, None)
      end
  end.

(** *** Vocabulary of the further statements *)

(** The calls the loop of [ReplacePVCByHostDisk] makes when it goes through
    [vols]: one change of owner for each volume it rewrites, on the image of
    that volume. *)
Definition rewriter_calls (E : Env) (vmi : VirtualMachineInstance)
    (vols : list Volume) : list Op :=
  omap (fun v =>
          match replacement_of vmi v with
          | Some _ => Some (OpChown (getPVCDiskImgPath E (Name v) "disk.img"))
          | None => None
          end) vols.

(** The pod answers the health call with a version that is, as a number, at
    least the target: both are base-10 integers of 32 signed bits. *)
Definition reports_at_least (target : string) (c : Cluster) (pod : Pod)
  : Prop :=
  exists fields observed a b,
    CallUrlOnPod c pod "8443" "/healthz" = Ok (Object fields)
    /\ fields !! version_key = Some (JString observed)
    /\ base10_integer target = Some a /\ base10_integer observed = Some b
    /\ is_int32 a /\ is_int32 b /\ a <= b.

(** The pods of the component are listed, and every one of them that is not
    marked for deletion reports at least the target. *)
Definition in_sync (podLabel target : string) (c : Cluster) : Prop :=
  exists pods,
    list_pods c podLabel = Ok pods
    /\ forall pod, pod ∈ pods -> live pod -> reports_at_least target c pod.

(** Some poll finds the component in sync, after polls that all returned an
    error. *)
Definition converges_on (podLabel target : string) (attempts : list Cluster)
  : Prop :=
  exists before c after,
    attempts = before ++ c :: after
    /\ in_sync podLabel target c
    /\ forall c', c' ∈ before ->
         exists msg,
           poll podLabel target
             ExpectResourceVersionToBeLessThanConfigVersion c'
           = ReturnsError msg.

(* ===================================================================== *)
(** ** The model on the inputs of the package's tests *)
(* ===================================================================== *)

Example getPVCDiskImgPath_volume1 :
  getPVCDiskImgPath (Fixture.quiet Fixture.roomy) "volume1" "disk.img"
  = "/tmp/host-disk-images/volume1/disk.img".
Proof. reflexivity. Qed.

Example GetMountedHostDiskDir_volume1 :
  GetMountedHostDiskDir (Fixture.quiet Fixture.roomy) "volume1"
  = "/tmp/host-disk-images/volume1".
Proof. reflexivity. Qed.

Example path_Join_cleans :
  path_Join ["/var/run//"; ".."; "disk.img"] = "/var/disk.img"
  /\ path_Join [""; "a/../../b"; ""] = "../b"
  /\ path_Join [""; ""] = "".
Proof. repeat split. Qed.

Example filepath_Base_cases :
  filepath_Base "/tmp/x/volume1/disk.img" = "disk.img"
  /\ filepath_Base "/tmp/x/volume1/" = "volume1"
  /\ filepath_Base "///" = "/"
  /\ filepath_Base "" = ".".
Proof. repeat split. Qed.

Example ParseInt10_cases :
  ParseInt10 "+007" 32 = (7, None)
  /\ ParseInt10 "-2147483648" 32 = (-2147483648, None)
  /\ ParseInt10 "2147483648" 32 = (2147483647, Some ErrRange)
  /\ ParseInt10 "12a" 32 = (0, Some ErrSyntax)
  /\ ParseInt10 "" 32 = (0, Some ErrSyntax).
Proof. repeat split. Qed.

(** "Should subtract reserve if there is NOT enough space on storage for
    requested size": 10 % toleration, 1 Mi reserve, 64 Mi on the directory,
    64 Mi requested; the image gets 64 Mi minus the reserve. *)
Example test_subtracts_reserve_under_shortage :
  let E := Fixture.quiet Fixture.roomy in
  let hdc := Fixture.with_probe
               (NewHostDiskCreator E Fixture.MockNotifier 10 Fixture.Mi)
               (Fixture.fixed_probe (64 * Fixture.Mi)) in
  let vmi := Fixture.addHostDisk (Fixture.NewMinimalVMI "fake-vmi")
               "volume1" HostDiskExistsOrCreate (64 * Fixture.Mi) in
  let out := Create E hdc vmi Fixture.empty_world in
  fst out = Ok tt
  /\ Size <$> files (snd out) !! Fixture.volume1_img = Some (63 * Fixture.Mi).
Proof. split; vm_compute; reflexivity. Qed.

(** "Should refuse to create disk image if reserve causes image to exceed
    lessPVCSpaceToleration": the same with 1 % toleration. *)
Example test_refuses_beyond_toleration :
  let E := Fixture.quiet Fixture.roomy in
  let hdc := Fixture.with_probe
               (setlessPVCSpaceToleration
                  (NewHostDiskCreator E Fixture.MockNotifier 10 Fixture.Mi) 1)
               (Fixture.fixed_probe (64 * Fixture.Mi)) in
  let vmi := Fixture.addHostDisk (Fixture.NewMinimalVMI "fake-vmi")
               "volume1" HostDiskExistsOrCreate (64 * Fixture.Mi) in
  let out := Create E hdc vmi Fixture.empty_world in
  fst out =
    Err (ErrFmt "unable to create /tmp/host-disk-images/volume1/disk.img, not enough space, demanded size 67108864 B is bigger than available space 66060288 B, also after taking 1 % toleration into account")
  /\ files (snd out) !! Fixture.volume1_img = None.
Proof. split; vm_compute; reflexivity. Qed.

(** "HostDisk with 'Disk' type" and "with unknown type": nothing is done. *)
Example test_other_types_are_left_alone :
  let E := Fixture.quiet Fixture.roomy in
  let hdc := NewHostDiskCreator E Fixture.MockNotifier 0 0 in
  let vmi := Fixture.addHostDisk
               (Fixture.addHostDisk (Fixture.NewMinimalVMI "fake-vmi")
                  "volume1" HostDiskExists 0)
               "volume2" "UnknownType" 0 in
  Create E hdc vmi Fixture.empty_world = (Ok tt, Fixture.empty_world).
Proof. reflexivity. Qed.

(** The request "1E" of the fail-fast test: the product with 100 does not
    fit 64 bits, and the tolerated size is the quotient of the wrapped
    product. *)
Example toleratedSize_of_1E :
  toleratedSize
    (NewHostDiskCreator (Fixture.quiet Fixture.roomy) Fixture.MockNotifier 0 0)
    (10 ^ 18)
  = 77662796314522419.
Proof. reflexivity. Qed.

(* ===================================================================== *)
(** ** Machine integers: ranges *)
(* ===================================================================== *)

Lemma int64_range x : is_int64 (int64 x).
Proof.
  unfold is_int64, int64, MinInt64, MaxInt64.
  pose proof (Z.mod_pos_bound (x + 2 ^ 63) (2 ^ 64) ltac:(lia)). lia.
Qed.

Lemma int64_id x : is_int64 x -> int64 x = x.
Proof.
  unfold is_int64, int64, MinInt64, MaxInt64. intros H.
  rewrite Z.mod_small; lia.
Qed.

Lemma uint64_id x : is_uint64 x -> uint64 x = x.
Proof.
  unfold is_uint64, uint64, MaxUint64. intros H. rewrite Z.mod_small; lia.
Qed.

Lemma uint64_wrap_neg x : - 2 ^ 64 <= x < 0 -> uint64 x = x + 2 ^ 64.
Proof.
  unfold uint64. intros H.
  rewrite <- (Z.mod_add x 1 (2 ^ 64)) by lia.
  rewrite Z.mod_small; lia.
Qed.

Lemma int64_high x : 2 ^ 63 <= x < 2 ^ 64 -> int64 x = x - 2 ^ 64.
Proof.
  unfold int64. intros H.
  replace (x + 2 ^ 63) with ((x - 2 ^ 63) + 1 * 2 ^ 64) by lia.
  rewrite Z.mod_add by lia. rewrite Z.mod_small; lia.
Qed.

Lemma AsInt64_range q : is_int64 (fst (Quantity_AsInt64 q)).
Proof.
  unfold Quantity_AsInt64. case_decide; simpl; [done|].
  unfold is_int64, MinInt64, MaxInt64. lia.
Qed.

(* ===================================================================== *)
(** ** Files are never lost *)
(* ===================================================================== *)

Lemma keeps_files_refl w : keeps_files w w.
Proof. intros p f Hp. exists f. by repeat split. Qed.

Lemma keeps_files_trans w1 w2 w3 :
  keeps_files w1 w2 -> keeps_files w2 w3 -> keeps_files w1 w3.
Proof.
  intros H12 H23 p f Hp.
  destruct (H12 p f Hp) as (f2 & Hp2 & Hs2 & Hm2).
  destruct (H23 p f2 Hp2) as (f3 & Hp3 & Hs3 & Hm3).
  exists f3. repeat split; congruence.
Qed.

Lemma keeps_files_eq w w' : files w' = files w -> keeps_files w w'.
Proof. intros Heq p f Hp. exists f. rewrite Heq. by repeat split. Qed.

Lemma keeps_files_fresh w w' path :
  files w !! path = None ->
  (forall p, p <> path -> files w' !! p = files w !! p) ->
  keeps_files w w'.
Proof.
  intros Hnone Hother p f Hp. exists f.
  rewrite Hother; [by repeat split|]. intros ->. congruence.
Qed.

Section WorldLemmas.

Context (E : Env).

Lemma FileExists_run path w :
  FileExists E path w =
    (match stat_fault E w path with
     | Some msg => Err (ErrOS msg)
     | None => Ok (bool_decide (is_Some (files w !! path)))
     end, record_op (OpStat path) w).
Proof. unfold FileExists. by destruct (stat_fault E w path). Qed.

Lemma SetFileOwnership_files path w r w' :
  SetFileOwnership E path w = (r, w') ->
  trace w' = trace w ++ [OpChown path] /\
  forall p,
    files w' !! p = files w !! p \/
    (p = path /\ r = Ok tt /\
     exists f, files w !! p = Some f /\
       files w' !! p = Some (mkFileInfo (Size f) (ModTime f) OwnerQemu)).
Proof.
  unfold SetFileOwnership. intros Hrun.
  destruct (files w !! path) as [f|] eqn:Hf.
  - destruct (chown_fault E w path); simplify_eq; simpl; split; auto.
    intros p. destruct (decide (p = path)) as [->|Hne].
    + right. rewrite lookup_insert_eq. eauto.
    + left. by rewrite lookup_insert_ne.
  - simplify_eq; simpl; auto.
Qed.

Lemma SetFileOwnership_keeps path w r w' :
  SetFileOwnership E path w = (r, w') -> keeps_files w w'.
Proof.
  intros Hrun p f Hp.
  destruct (SetFileOwnership_files _ _ _ _ Hrun) as [_ Hall].
  destruct (Hall p) as [Heq | (-> & _ & f0 & Hf0 & Hf')].
  - exists f. rewrite Heq. by repeat split.
  - eexists. split; [exact Hf'|]. simplify_eq. by split.
Qed.

Lemma SetFileOwnership_ok path w w' :
  SetFileOwnership E path w = (Ok tt, w') ->
  exists f, files w !! path = Some f /\
    files w' !! path = Some (mkFileInfo (Size f) (ModTime f) OwnerQemu).
Proof.
  unfold SetFileOwnership. intros Hrun.
  destruct (files w !! path) as [f|] eqn:Hf; [|simplify_eq].
  destruct (chown_fault E w path); simplify_eq; simpl.
  exists f. by rewrite lookup_insert_eq.
Qed.

Lemma SetFileOwnership_no_fault path w f :
  files w !! path = Some f -> chown_fault E w path = None ->
  exists w', SetFileOwnership E path w = (Ok tt, w').
Proof. unfold SetFileOwnership. intros -> ->. eauto. Qed.

(** What [createSparseRaw] leaves behind, by cases. *)
Lemma createSparseRaw_files path size w r w' :
  createSparseRaw E path size w = (r, w') ->
  (forall p, p <> path -> files w' !! p = files w !! p) /\
  (r = Ok tt -> is_int64 size ->
     1 <= size /\ exists f, files w' !! path = Some f /\ Size f = size).
Proof.
  unfold createSparseRaw, bind, defer_check, os_Create, os_WriteAt, os_Close.
  intros Hrun.
  destruct (create_fault E w path) eqn:Hc; simpl in Hrun.
  { simplify_eq. simpl. split; [done|]. intros; discriminate. }
  set (offset := I64.sub size 1) in *.
  destruct (offset <? 0) eqn:Hneg.
  { destruct (close_fault E _ path); simplify_eq; simpl;
      (split; [intros; by rewrite lookup_insert_ne | intros; discriminate]). }
  destruct (MaxInt64 <=? offset) eqn:Hbig.
  { destruct (close_fault E _ path); simplify_eq; simpl;
      (split; [intros; by rewrite lookup_insert_ne | intros; discriminate]). }
  destruct (write_fault E _ path offset) eqn:Hw.
  { destruct (close_fault E _ path); simplify_eq; simpl;
      (split; [intros; by rewrite lookup_insert_ne | intros; discriminate]). }
  simpl in Hrun. rewrite lookup_insert_eq in Hrun.
  destruct (close_fault E _ path); simplify_eq; simpl.
  { split; [intros; by rewrite !lookup_insert_ne | intros; discriminate]. }
  split; [intros; by rewrite !lookup_insert_ne |].
  intros _ Hsz. rewrite lookup_insert_eq.
  apply Z.ltb_ge in Hneg. apply Z.leb_gt in Hbig.
  assert (Hoff : offset = size - 1).
  { subst offset. unfold I64.sub.
    unfold is_int64, MinInt64, MaxInt64 in *.
    destruct (decide (size = - 2 ^ 63)) as [->|Hne].
    - exfalso. revert Hbig. unfold I64.sub. vm_compute. congruence.
    - apply int64_id. unfold is_int64, MinInt64, MaxInt64. lia. }
  split; [lia|]. eexists; split; [done|]. simpl. lia.
Qed.

Lemma createSparseRaw_keeps path size w r w' :
  files w !! path = None ->
  createSparseRaw E path size w = (r, w') -> keeps_files w w'.
Proof.
  intros Hnone Hrun. eapply keeps_files_fresh; [done|].
  by apply (createSparseRaw_files _ _ _ _ _ Hrun).
Qed.

(** Without a failing system call, a positive size is allocated. *)
Lemma createSparseRaw_no_fault path size w :
  no_faults E path -> 1 <= size <= MaxInt64 ->
  exists w', createSparseRaw E path size w = (Ok tt, w').
Proof.
  intros (_ & Hc & Hw & Hcl & _) Hsz.
  unfold createSparseRaw, bind, defer_check, os_Create, os_WriteAt, os_Close.
  rewrite Hc. simpl.
  assert (Hoff : I64.sub size 1 = size - 1).
  { apply int64_id. unfold is_int64, MinInt64, MaxInt64 in *. lia. }
  rewrite Hoff.
  destruct (size - 1 <? 0) eqn:Hneg; [apply Z.ltb_lt in Hneg; lia|].
  destruct (MaxInt64 <=? size - 1) eqn:Hbig; [apply Z.leb_le in Hbig; lia|].
  rewrite Hw. simpl. rewrite lookup_insert_eq. rewrite Hcl. eauto.
Qed.

End WorldLemmas.

(* ===================================================================== *)
(** ** The materialiser, volume by volume *)
(* ===================================================================== *)

Section MaterialiserLemmas.

Context (E : Env) (hdc : DiskImgCreator) (vmi : VirtualMachineInstance).

Lemma shrinkRequestedSize_run requestedSize availableSize hostDisk w :
  shrinkRequestedSize hdc vmi requestedSize availableSize hostDisk w =
    if toleratedSize hdc requestedSize >? availableSize
    then (Err (shrink_error hdc hostDisk requestedSize availableSize), w)
    else (Ok availableSize,
          record_op
            (OpSendK8sEvent (Namespace vmi) (vmi_Name vmi)
               EventTypeToleratedSmallPV EventReasonToleratedSmallPV
               (shrink_message hdc requestedSize availableSize)) w).
Proof.
  unfold shrinkRequestedSize, SendK8sEvent, fail.
  destruct (_ >? _); [done|]. by destruct (deliver _ _ _ _ _ _).
Qed.

Lemma shrinkRequestedSize_files requestedSize availableSize hostDisk w r w' :
  shrinkRequestedSize hdc vmi requestedSize availableSize hostDisk w
    = (r, w') ->
  files w' = files w.
Proof.
  rewrite shrinkRequestedSize_run. destruct (_ >? _); by intros [= <- <-].
Qed.

Lemma handle_keeps diskDir diskPath hostDisk w r w' :
  files w !! diskPath = None ->
  handleRequestedSizeAndCreateSparseRaw E hdc vmi diskDir diskPath hostDisk w
    = (r, w') ->
  keeps_files w w'.
Proof.
  unfold handleRequestedSizeAndCreateSparseRaw, bind, probe, ret.
  intros Hnone Hrun.
  destruct (dirBytesAvailableFunc hdc w diskDir _) as [size|e];
    [|simplify_eq; by apply keeps_files_eq].
  destruct (_ >? _).
  - destruct (shrinkRequestedSize _ _ _ _ _ _) as [[sz|e] w1] eqn:Hs;
      apply shrinkRequestedSize_files in Hs; simpl in Hs.
    + eapply keeps_files_trans; [by apply keeps_files_eq|].
      eapply createSparseRaw_keeps; [|done]. by rewrite Hs.
    + simplify_eq. by apply keeps_files_eq.
  - eapply keeps_files_trans;
      [|eapply createSparseRaw_keeps; [|done]; done].
    by apply keeps_files_eq.
Qed.

Lemma mount_keeps volumeName hostDisk w r w' :
  mountHostDiskAndSetOwnership E hdc vmi volumeName hostDisk w = (r, w') ->
  keeps_files w w'.
Proof.
  unfold mountHostDiskAndSetOwnership, bind. rewrite FileExists_run.
  set (diskPath := GetMountedHostDiskPath E volumeName (Path hostDisk)).
  destruct (stat_fault E w diskPath);
    [intros [= <- <-]; by apply keeps_files_eq|].
  intros Hrun.
  destruct (files w !! diskPath) as [f|] eqn:Hf.
  - rewrite bool_decide_eq_true_2 in Hrun by eauto. simpl in Hrun.
    eapply keeps_files_trans; [|by eapply SetFileOwnership_keeps].
    by apply keeps_files_eq.
  - rewrite bool_decide_eq_false_2 in Hrun by (intros [? ?]; congruence).
    simpl in Hrun.
    destruct (handleRequestedSizeAndCreateSparseRaw _ _ _ _ _ _ _)
      as [[[]|e] w1] eqn:Hh;
      apply handle_keeps in Hh; try done.
    + eapply keeps_files_trans; [|by eapply SetFileOwnership_keeps].
      eapply keeps_files_trans; [|done]. by apply keeps_files_eq.
    + simplify_eq. eapply keeps_files_trans; [|done]. by apply keeps_files_eq.
Qed.

(** A volume whose materialisation returned nil has its file. *)
Lemma mount_ok_exists volumeName hostDisk w w' :
  mountHostDiskAndSetOwnership E hdc vmi volumeName hostDisk w = (Ok tt, w') ->
  is_Some (files w' !! GetMountedHostDiskPath E volumeName (Path hostDisk)).
Proof.
  unfold mountHostDiskAndSetOwnership, bind. intros Hrun.
  destruct (FileExists _ _ _) as [[b|e] w1]; [|done].
  destruct (negb b).
  - destruct (handleRequestedSizeAndCreateSparseRaw _ _ _ _ _ _ _)
      as [[[]|e] w2]; [|done].
    apply SetFileOwnership_ok in Hrun as (f & _ & Hf). eauto.
  - simpl in Hrun. apply SetFileOwnership_ok in Hrun as (f & _ & Hf). eauto.
Qed.

Lemma create_volumes_keeps vols w r w' :
  create_volumes E hdc vmi vols w = (r, w') -> keeps_files w w'.
Proof.
  revert w. induction vols as [|v vols IH]; intros w; cbn [create_volumes].
  - intros [= <- <-]. apply keeps_files_refl.
  - destruct (vs_HostDisk (Source v)) as [hd|]; [|by apply IH].
    destruct (shouldMountHostDisk (Some hd)); [|by apply IH].
    unfold bind.
    destruct (mountHostDiskAndSetOwnership _ _ _ _ _ _) as [[[]|e] w1] eqn:Hm;
      apply mount_keeps in Hm.
    + intros Hrun. eapply keeps_files_trans; [done|by eapply IH].
    + by intros [= <- <-].
Qed.

Lemma create_volumes_app before after w :
  create_volumes E hdc vmi (before ++ after) w =
    match create_volumes E hdc vmi before w with
    | (Ok _, w1) => create_volumes E hdc vmi after w1
    | (Err e, w1) => (Err e, w1)
    end.
Proof.
  revert w. induction before as [|v before IH]; intros w;
    cbn [create_volumes app]; [done|].
  destruct (vs_HostDisk (Source v)) as [hd|]; [|by apply IH].
  destruct (shouldMountHostDisk (Some hd)); [|by apply IH].
  unfold bind.
  by destruct (mountHostDiskAndSetOwnership _ _ _ _ _ _) as [[[]|e] w1].
Qed.

Lemma mounted_targets_cons v vols :
  mounted_targets E (v :: vols) =
    match vs_HostDisk (Source v) with
    | Some hd =>
        if shouldMountHostDisk (Some hd)
        then GetMountedHostDiskPath E (Name v) (Path hd)
             :: mounted_targets E vols
        else mounted_targets E vols
    | None => mounted_targets E vols
    end.
Proof.
  unfold mounted_targets. cbn [omap list_omap].
  destruct (vs_HostDisk (Source v)) as [hd|]; [|done].
  by destruct (shouldMountHostDisk (Some hd)).
Qed.

(** The volumes materialised by a run that returned nil all have a file. *)
Lemma create_volumes_ok_exists vols w w' :
  create_volumes E hdc vmi vols w = (Ok tt, w') ->
  forall p, p ∈ mounted_targets E vols -> is_Some (files w' !! p).
Proof.
  revert w. induction vols as [|v vols IH]; intros w;
    [intros _ p Hp; by apply elem_of_nil in Hp|].
  rewrite mounted_targets_cons. cbn [create_volumes].
  - destruct (vs_HostDisk (Source v)) as [hd|]; [|by apply IH].
    destruct (shouldMountHostDisk (Some hd)); [|by apply IH].
    unfold bind.
    destruct (mountHostDiskAndSetOwnership _ _ _ _ _ _) as [[[]|e] w1] eqn:Hm;
      [|done].
    intros Hrun p [->|Hp]%elem_of_cons; [|by eapply IH].
    apply mount_ok_exists in Hm as [f Hf].
    apply create_volumes_keeps in Hrun.
    destruct (Hrun _ _ Hf) as (f' & Hf' & _). eauto.
Qed.

(** [Create] at a volume it materialises, the volumes before it done. *)
Lemma Create_at before volume hostDisk after w w1 :
  Spec_Volumes vmi = before ++ volume :: after ->
  create_volumes E hdc vmi before w = (Ok tt, w1) ->
  vs_HostDisk (Source volume) = Some hostDisk ->
  shouldMountHostDisk (Some hostDisk) = true ->
  Create E hdc vmi w =
    match mountHostDiskAndSetOwnership E hdc vmi (Name volume) hostDisk w1 with
    | (Ok _, w2) => create_volumes E hdc vmi after w2
    | (Err e, w2) => (Err e, w2)
    end.
Proof.
  intros Hvols Hbefore Hhd Hshould. unfold Create.
  rewrite Hvols, create_volumes_app, Hbefore. cbn [create_volumes].
  rewrite Hhd, Hshould. unfold bind.
  by destruct (mountHostDiskAndSetOwnership _ _ _ _ _ _) as [[[]|e] w2].
Qed.

(** The run of a volume whose file is missing and whose probe answers. *)
Lemma mount_missing_run volumeName hostDisk w size :
  let diskPath := GetMountedHostDiskPath E volumeName (Path hostDisk) in
  let diskDir := GetMountedHostDiskDir E volumeName in
  let reserve := minimumPVCReserveBytes hdc in
  let requested := fst (Quantity_AsInt64 (Capacity hostDisk)) in
  let w1 := record_op (OpProbe diskDir reserve)
              (record_op (OpStat diskPath) w) in
  files w !! diskPath = None ->
  stat_fault E w diskPath = None ->
  dirBytesAvailableFunc hdc (record_op (OpStat diskPath) w) diskDir reserve
    = Ok size ->
  mountHostDiskAndSetOwnership E hdc vmi volumeName hostDisk w =
    (let* finalSize :=
       (if requested >? int64 size
        then shrinkRequestedSize hdc vmi requested (int64 size) hostDisk
        else ret requested) in
     let* _ := createSparseRaw E diskPath finalSize in
     SetFileOwnership E diskPath) w1.
Proof.
  intros diskPath diskDir reserve requested w1 Hnone Hstat Hprobe.
  unfold mountHostDiskAndSetOwnership, bind. rewrite FileExists_run.
  fold diskPath diskDir. rewrite Hstat, Hnone.
  rewrite bool_decide_eq_false_2 by (intros [? ?]; congruence). simpl.
  unfold handleRequestedSizeAndCreateSparseRaw, bind, probe.
  fold reserve. rewrite Hprobe. fold requested. fold w1.
  destruct (requested >? int64 size).
  - destruct (shrinkRequestedSize _ _ _ _ _ _) as [[sz|e] w2]; [|done].
    by destruct (createSparseRaw E diskPath sz w2) as [[[]|e] w3].
  - unfold ret.
    by destruct (createSparseRaw E diskPath requested w1) as [[[]|e] w3].
Qed.

(** After an allocation that went through, a successful run of the volume
    leaves the file with the allocated length. *)
Lemma allocate_then_own diskPath size w w' :
  is_int64 size ->
  (let* _ := createSparseRaw E diskPath size in
   SetFileOwnership E diskPath) w = (Ok tt, w') ->
  1 <= size /\ exists f, files w' !! diskPath = Some f /\ Size f = size.
Proof.
  unfold bind. intros Hsz Hrun.
  destruct (createSparseRaw E diskPath size w) as [[[]|e] w1] eqn:Hc; [|done].
  destruct (createSparseRaw_files _ _ _ _ _ _ Hc) as [_ Hok].
  destruct (Hok eq_refl Hsz) as (Hpos & f & Hf & Hsize).
  split; [done|].
  apply SetFileOwnership_ok in Hrun as (f0 & Hf0 & Hf').
  eexists; split; [exact Hf'|]. simpl. congruence.
Qed.

Lemma allocate_then_own_no_fault diskPath size w :
  no_faults E diskPath -> 1 <= size <= MaxInt64 ->
  exists w', (let* _ := createSparseRaw E diskPath size in
              SetFileOwnership E diskPath) w = (Ok tt, w').
Proof.
  intros Hnf Hsz. unfold bind.
  destruct (createSparseRaw_no_fault E diskPath size w Hnf Hsz) as [w1 Hc].
  rewrite Hc.
  destruct (createSparseRaw_files _ _ _ _ _ _ Hc) as [_ Hok].
  destruct (Hok eq_refl) as (_ & f & Hf & _).
  { unfold is_int64, MinInt64, MaxInt64 in *. lia. }
  destruct Hnf as (_ & _ & _ & _ & Hch).
  by eapply SetFileOwnership_no_fault.
Qed.

End MaterialiserLemmas.

(* ===================================================================== *)
(** ** The trace only grows *)
(* ===================================================================== *)

Lemma continues_refl w : continues w w.
Proof. exists []. by rewrite app_nil_r. Qed.

Lemma continues_trans w1 w2 w3 :
  continues w1 w2 -> continues w2 w3 -> continues w1 w3.
Proof.
  intros [s1 H1] [s2 H2]. exists (s1 ++ s2). by rewrite H2, H1, app_assoc.
Qed.

Lemma continues_record op w : continues w (record_op op w).
Proof. by exists [op]. Qed.


Section TraceLemmas.

Context (E : Env) (hdc : DiskImgCreator) (vmi : VirtualMachineInstance).

Lemma SetFileOwnership_continues path w r w' :
  SetFileOwnership E path w = (r, w') -> continues w w'.
Proof.
  intros Hrun. exists [OpChown path].
  by apply (SetFileOwnership_files _ _ _ _ _ Hrun).
Qed.

Lemma createSparseRaw_continues path size w r w' :
  createSparseRaw E path size w = (r, w') -> continues w w'.
Proof.
  unfold createSparseRaw, bind, defer_check, os_Create, os_WriteAt, os_Close.
  intros Hrun.
  unfold continues.
  destruct (create_fault E w path); simpl in Hrun;
    [simplify_eq; by eexists|].
  repeat case_match; simplify_eq; simpl;
    rewrite <- ?app_assoc; by eexists.
Qed.


Lemma mount_continues volumeName hostDisk w r w' :
  mountHostDiskAndSetOwnership E hdc vmi volumeName hostDisk w = (r, w') ->
  continues w w'.
Proof.
  unfold mountHostDiskAndSetOwnership, bind. rewrite FileExists_run.
  set (diskPath := GetMountedHostDiskPath E volumeName (Path hostDisk)).
  pose proof (continues_record (OpStat diskPath) w) as Hstat.
  destruct (stat_fault E w diskPath); [by intros [= <- <-]|].
  destruct (bool_decide _); simpl.
  - intros Hrun. apply SetFileOwnership_continues in Hrun.
    by eapply continues_trans.
  - unfold handleRequestedSizeAndCreateSparseRaw, bind, probe, ret.
    set (w1 := record_op (OpStat diskPath) w) in *.
    pose proof (continues_record
                  (OpProbe (GetMountedHostDiskDir E volumeName)
                     (minimumPVCReserveBytes hdc)) w1) as Hprobe.
    destruct (dirBytesAvailableFunc hdc w1 _ _) as [size|e];
      [|intros [= <- <-]; by eapply continues_trans].
    set (w2 := record_op _ w1) in *.
    assert (H12 : continues w w2) by by eapply continues_trans.
    destruct (_ >? _).
    + rewrite shrinkRequestedSize_run. destruct (_ >? _);
        [by intros [= <- <-]|].
      set (w3 := record_op _ w2).
      assert (H13 : continues w w3)
        by (eapply continues_trans; [done|apply continues_record]).
      destruct (createSparseRaw E diskPath _ w3) as [[[]|e] w4] eqn:Hc;
        apply createSparseRaw_continues in Hc.
      * intros Hrun. apply SetFileOwnership_continues in Hrun.
        eapply continues_trans; [done|]. by eapply continues_trans.
      * intros [= <- <-]. by eapply continues_trans.
    + destruct (createSparseRaw E diskPath _ w2) as [[[]|e] w4] eqn:Hc;
        apply createSparseRaw_continues in Hc.
      * intros Hrun. apply SetFileOwnership_continues in Hrun.
        eapply continues_trans; [done|]. by eapply continues_trans.
      * intros [= <- <-]. by eapply continues_trans.
Qed.

Lemma create_volumes_continues vols w r w' :
  create_volumes E hdc vmi vols w = (r, w') -> continues w w'.
Proof.
  revert w. induction vols as [|v vols IH]; intros w; cbn [create_volumes].
  - intros [= <- <-]. apply continues_refl.
  - destruct (vs_HostDisk (Source v)) as [hd|]; [|by apply IH].
    destruct (shouldMountHostDisk (Some hd)); [|by apply IH].
    unfold bind.
    destruct (mountHostDiskAndSetOwnership _ _ _ _ _ _) as [[[]|e] w1] eqn:Hm;
      apply mount_continues in Hm.
    + intros Hrun. eapply continues_trans; [done|by eapply IH].
    + by intros [= <- <-].
Qed.

End TraceLemmas.

(* ===================================================================== *)
(** ** Properties of [Create] *)
(* ===================================================================== *)

(** C3.  [Create] leaves existing disk images alone.  For a volume whose
    target file exists, the run consists of the existence check and, when
    that check goes through, the change of owner: no capacity probe, no
    event, no [os.Create], no write; the file keeps its length and its
    modification time.  Hence a second [Create] on the same instance changes
    neither the length nor the modification time of any file that is there
    after the first. *)
Theorem Create_keeps_existing_images
    (E : Env) (hdc : DiskImgCreator) (vmi : VirtualMachineInstance) :
  (forall volumeName hostDisk w f,
      let diskPath := GetMountedHostDiskPath E volumeName (Path hostDisk) in
      files w !! diskPath = Some f ->
      exists r w' f',
        mountHostDiskAndSetOwnership E hdc vmi volumeName hostDisk w = (r, w')
        /\ (trace w' = trace w ++ [OpStat diskPath]
            \/ trace w' = trace w ++ [OpStat diskPath; OpChown diskPath])
        /\ files w' !! diskPath = Some f' /\ same_data f f')
  /\ (forall w, keeps_files w (snd (Create E hdc vmi w)))
  /\ (forall w p f,
        let w1 := snd (Create E hdc vmi w) in
        let w2 := snd (Create E hdc vmi w1) in
        files w1 !! p = Some f ->
        exists f', files w2 !! p = Some f' /\ same_data f f').
Proof.
  assert (Hkeep : forall w, keeps_files w (snd (Create E hdc vmi w))).
  { intros w. destruct (Create E hdc vmi w) as [r w'] eqn:Hrun.
    by apply create_volumes_keeps in Hrun. }
  split; [|split; [done|]].
  - intros volumeName hostDisk w f diskPath Hf.
    destruct (mountHostDiskAndSetOwnership E hdc vmi volumeName hostDisk w)
      as [r w'] eqn:Hrun.
    pose proof (mount_keeps _ _ _ _ _ _ _ _ Hrun _ _ Hf) as (f' & Hf' & Hsame).
    exists r, w', f'. split; [done|]. split; [|done].
    revert Hrun. unfold mountHostDiskAndSetOwnership, bind.
    rewrite FileExists_run. fold diskPath.
    destruct (stat_fault E w diskPath); [intros [= <- <-]; by left|].
    rewrite bool_decide_eq_true_2 by eauto. simpl.
    intros Hrun. apply SetFileOwnership_files in Hrun as [-> _].
    right. simpl. by rewrite <- app_assoc.
  - intros w p f w1 w2 Hf. by apply (Hkeep w1).
Qed.

Lemma Create_keeps_existing_images_witness :
  let E := Fixture.quiet Fixture.roomy in
  let hdc := NewHostDiskCreator E Fixture.MockNotifier 0 0 in
  let vmi := Fixture.addHostDisk (Fixture.NewMinimalVMI "fake-vmi")
               "volume1" HostDiskExistsOrCreate (128 * Fixture.Mi) in
  let w := {| files := {[ Fixture.volume1_img :=
                            mkFileInfo (64 * Fixture.Mi) 7 OwnerProcess ]};
              now := 9; trace := [] |} in
  exists r w' f',
    mountHostDiskAndSetOwnership E hdc vmi "volume1"
      (mkHostDisk Fixture.volume1_img HostDiskExistsOrCreate
         (128 * Fixture.Mi) None) w = (r, w')
    /\ (trace w' = trace w ++ [OpStat Fixture.volume1_img]
        \/ trace w' = trace w ++ [OpStat Fixture.volume1_img;
                                  OpChown Fixture.volume1_img])
    /\ files w' !! Fixture.volume1_img = Some f'
    /\ same_data (mkFileInfo (64 * Fixture.Mi) 7 OwnerProcess) f'.
Proof.
  intros E hdc vmi w.
  apply (proj1 (Create_keeps_existing_images E hdc vmi) "volume1"
           (mkHostDisk Fixture.volume1_img HostDiskExistsOrCreate
              (128 * Fixture.Mi) None) w).
  vm_compute. reflexivity.
Defined.

(** C4.  [Create] is fail-fast.  When the volumes before volume [i] have
    been materialised and volume [i] fails (with whatever error), [Create]
    returns that error in the world volume [i] left: nothing is done for the
    volumes after it, and the files of the volumes before it are all still
    there, with their data (no rollback). *)
Theorem Create_fail_fast
    (E : Env) (hdc : DiskImgCreator) (vmi : VirtualMachineInstance)
    (before : list Volume) (volume : Volume) (hostDisk : HostDisk)
    (after : list Volume) (w w1 w2 : World) (e : error) :
  Spec_Volumes vmi = before ++ volume :: after ->
  create_volumes E hdc vmi before w = (Ok tt, w1) ->
  vs_HostDisk (Source volume) = Some hostDisk ->
  shouldMountHostDisk (Some hostDisk) = true ->
  mountHostDiskAndSetOwnership E hdc vmi (Name volume) hostDisk w1
    = (Err e, w2) ->
  Create E hdc vmi w = (Err e, w2)
  /\ continues w w1 /\ continues w1 w2
  /\ keeps_files w1 w2
  /\ (forall p, p ∈ mounted_targets E before -> is_Some (files w2 !! p)).
Proof.
  intros Hvols Hbefore Hhd Hshould Hfail.
  split; [|split; [|split; [|split]]].
  - by rewrite (Create_at E hdc vmi _ _ _ _ _ _ Hvols Hbefore Hhd Hshould),
      Hfail.
  - by eapply create_volumes_continues.
  - by eapply mount_continues.
  - by eapply mount_keeps.
  - intros p Hp.
    destruct (create_volumes_ok_exists _ _ _ _ _ _ Hbefore p Hp) as [f Hf].
    apply mount_keeps in Hfail. destruct (Hfail _ _ Hf) as (f' & Hf' & _).
    eauto.
Qed.

Lemma Create_fail_fast_witness :
  let E := Fixture.quiet Fixture.roomy in
  let hdc := NewHostDiskCreator E Fixture.MockNotifier 0 0 in
  let vmi :=
    Fixture.addHostDisk
      (Fixture.addHostDisk
         (Fixture.addHostDisk (Fixture.NewMinimalVMI "fake-vmi")
            "volume1" HostDiskExistsOrCreate (64 * Fixture.Mi))
         "volume2" HostDiskExistsOrCreate (10 ^ 18))
      "volume3" HostDiskExistsOrCreate (128 * Fixture.Mi) in
  exists e w2,
    Create E hdc vmi Fixture.empty_world = (Err e, w2)
    /\ (exists f, files w2 !! Fixture.volume1_img = Some f
                  /\ Size f = 64 * Fixture.Mi)
    /\ files w2 !! "/tmp/host-disk-images/volume2/disk.img" = None
    /\ files w2 !! "/tmp/host-disk-images/volume3/disk.img" = None.
Proof.
  intros E hdc vmi.
  set (v1 := Fixture.hostDiskOf "volume1" HostDiskExistsOrCreate
               (64 * Fixture.Mi)).
  set (v2 := Fixture.hostDiskOf "volume2" HostDiskExistsOrCreate (10 ^ 18)).
  set (v3 := Fixture.hostDiskOf "volume3" HostDiskExistsOrCreate
               (128 * Fixture.Mi)).
  set (hd2 := mkHostDisk "/tmp/host-disk-images/volume2/disk.img"
                HostDiskExistsOrCreate (10 ^ 18) None).
  set (w1 := snd (create_volumes E hdc vmi [v1] Fixture.empty_world)).
  set (r2 := mountHostDiskAndSetOwnership E hdc vmi "volume2" hd2 w1).
  destruct (fst r2) as [u|e] eqn:Hr2; [vm_compute in Hr2; discriminate|].
  exists e, (snd r2).
  destruct (Create_fail_fast E hdc vmi [v1] v2 hd2 [v3]
              Fixture.empty_world w1 (snd r2) e) as (Hrun & _ & _ & _ & _).
  - vm_compute. reflexivity.
  - vm_compute. reflexivity.
  - vm_compute. reflexivity.
  - vm_compute. reflexivity.
  - rewrite <- Hr2. apply surjective_pairing.
  - split; [exact Hrun|]. vm_compute. eauto.
Defined.

(** C5, as the code has it.  Exact sizing.  The available size the request
    is compared with is the probed number of bytes converted to [int64]: the
    probed number itself when that is below 2^63, and a negative number
    otherwise.  For a volume [Create] materialises (the volumes before it
    done) whose target file is missing and whose requested capacity is at
    most that available size: the allocator is called with the requested
    capacity itself, whatever the reserve, so when the volume is
    materialised its file has exactly the requested length, in the world it
    leaves and at the end of [Create]; and it is materialised whenever the
    request is positive and no system call fails.  With the package's own
    probe the reserve is subtracted from the free bytes in the available
    figure, and nowhere else. *)
Theorem Create_exact_size
    (E : Env) (hdc : DiskImgCreator) (vmi : VirtualMachineInstance)
    (before : list Volume) (volume : Volume) (hostDisk : HostDisk)
    (after : list Volume) (w0 w : World) (size : Z) :
  let diskPath := GetMountedHostDiskPath E (Name volume) (Path hostDisk) in
  let diskDir := GetMountedHostDiskDir E (Name volume) in
  let reserve := minimumPVCReserveBytes hdc in
  let requested := fst (Quantity_AsInt64 (Capacity hostDisk)) in
  let w1 := record_op (OpProbe diskDir reserve)
              (record_op (OpStat diskPath) w) in
  Spec_Volumes vmi = before ++ volume :: after ->
  create_volumes E hdc vmi before w0 = (Ok tt, w) ->
  vs_HostDisk (Source volume) = Some hostDisk ->
  shouldMountHostDisk (Some hostDisk) = true ->
  files w !! diskPath = None ->
  stat_fault E w diskPath = None ->
  dirBytesAvailableFunc hdc (record_op (OpStat diskPath) w) diskDir reserve
    = Ok size ->
  requested <= int64 size ->
  mountHostDiskAndSetOwnership E hdc vmi (Name volume) hostDisk w =
    (let* _ := createSparseRaw E diskPath requested in
     SetFileOwnership E diskPath) w1
  /\ (forall w2,
        mountHostDiskAndSetOwnership E hdc vmi (Name volume) hostDisk w
          = (Ok tt, w2) ->
        (exists f, files w2 !! diskPath = Some f /\ Size f = requested)
        /\ (exists f, files (snd (Create E hdc vmi w0)) !! diskPath = Some f
                      /\ Size f = requested))
  /\ (1 <= requested -> no_faults E diskPath ->
        exists w2,
          mountHostDiskAndSetOwnership E hdc vmi (Name volume) hostDisk w
            = (Ok tt, w2))
  /\ (dirBytesAvailableFunc hdc = dirBytesAvailable E ->
      forall stat,
        statfs E (record_op (OpStat diskPath) w) diskDir = Ok stat ->
        size = U64.sub (U64.mul (Bavail stat) (uint64 (Bsize stat))) reserve)
  /\ (0 <= size <= MaxInt64 -> int64 size = size).
Proof.
  intros diskPath diskDir reserve requested w1
    Hvols Hbefore Hhd Hshould Hnone Hstat Hprobe Hle.
  pose proof (mount_missing_run E hdc vmi (Name volume) hostDisk w size
                Hnone Hstat Hprobe) as Hrun.
  cbv zeta in Hrun. fold diskPath diskDir reserve requested w1 in Hrun.
  assert (Hgt : (requested >? int64 size) = false)
    by (rewrite Z.gtb_ltb; apply Z.ltb_ge; lia).
  rewrite Hgt in Hrun.
  assert (Hrun' :
    mountHostDiskAndSetOwnership E hdc vmi (Name volume) hostDisk w =
      (let* _ := createSparseRaw E diskPath requested in
       SetFileOwnership E diskPath) w1).
  { rewrite Hrun. unfold bind, ret. done. }
  pose proof (AsInt64_range (Capacity hostDisk)) as Hrange.
  fold requested in Hrange.
  split; [exact Hrun'|split; [|split; [|split]]].
  - intros w2 Hok. rewrite Hrun' in Hok.
    destruct (allocate_then_own E diskPath requested w1 w2 Hrange Hok)
      as (_ & f & Hf & Hsz).
    split; [eauto|].
    rewrite (Create_at E hdc vmi _ _ _ _ _ _ Hvols Hbefore Hhd Hshould).
    rewrite Hrun', Hok.
    destruct (create_volumes E hdc vmi after w2) as [r w3] eqn:Hafter.
    apply create_volumes_keeps in Hafter.
    destruct (Hafter _ _ Hf) as (f' & Hf' & Hs & _).
    exists f'. simpl. split; [done|congruence].
  - intros Hpos Hnf. rewrite Hrun'.
    apply allocate_then_own_no_fault; [done|].
    unfold is_int64 in Hrange. lia.
  - intros Hreal stat Hfs. rewrite Hreal in Hprobe.
    unfold dirBytesAvailable in Hprobe. rewrite Hfs in Hprobe.
    by injection Hprobe as <-.
  - intros Hsmall. apply int64_id.
    unfold is_int64, MinInt64, MaxInt64 in *. lia.
Qed.

Lemma Create_exact_size_witness :
  let E := Fixture.quiet Fixture.roomy in
  let hdc := NewHostDiskCreator E Fixture.MockNotifier 10 Fixture.Mi in
  let vmi := Fixture.addHostDisk (Fixture.NewMinimalVMI "fake-vmi")
               "volume1" HostDiskExistsOrCreate (64 * Fixture.Mi) in
  exists w2,
    Create E hdc vmi Fixture.empty_world = (Ok tt, w2)
    /\ exists f, files w2 !! Fixture.volume1_img = Some f
                 /\ Size f = 67108864.
Proof.
  intros E hdc vmi.
  set (v1 := Fixture.hostDiskOf "volume1" HostDiskExistsOrCreate
               (64 * Fixture.Mi)).
  set (hd1 := mkHostDisk Fixture.volume1_img HostDiskExistsOrCreate
                (64 * Fixture.Mi) None).
  destruct (Create_exact_size E hdc vmi [] v1 hd1 []
              Fixture.empty_world Fixture.empty_world
              (262144 * 4096 - Fixture.Mi))
    as (_ & Hsize & Hok & _).
  - vm_compute. reflexivity.
  - vm_compute. reflexivity.
  - vm_compute. reflexivity.
  - vm_compute. reflexivity.
  - vm_compute. reflexivity.
  - vm_compute. reflexivity.
  - vm_compute. reflexivity.
  - vm_compute. discriminate.
  - destruct Hok as [w2 Hw2].
    + vm_compute. discriminate.
    + vm_compute. repeat split.
    + destruct (Hsize w2 Hw2) as [_ (f & Hf & Hsz)].
      exists (snd (Create E hdc vmi Fixture.empty_world)).
      split; [vm_compute; reflexivity|].
      exists f. split; [exact Hf|exact Hsz].
Defined.

(** C5, as stated, fails.  With no block free and a reserve of 1 MiB the
    package's own probe reports 2^64 - 2^20 available bytes.  A request of
    64 MiB is not more than that; yet [Create] takes the probed number for
    the negative number -2^20, goes to the shrink path, and returns the
    "unable to create" error without having written a file. *)
Lemma Create_exact_size_not_for_wrapped_probe :
  let E := Fixture.quiet {| Bavail := 0; Bsize := 4096 |} in
  let hdc := NewHostDiskCreator E Fixture.MockNotifier 10 Fixture.Mi in
  let vmi := Fixture.addHostDisk (Fixture.NewMinimalVMI "fake-vmi")
               "volume1" HostDiskExistsOrCreate (64 * Fixture.Mi) in
  let out := Create E hdc vmi Fixture.empty_world in
  dirBytesAvailableFunc hdc
    (record_op (OpStat Fixture.volume1_img) Fixture.empty_world)
    "/tmp/host-disk-images/volume1" (minimumPVCReserveBytes hdc)
  = Ok (2 ^ 64 - Fixture.Mi)
  /\ fst (Quantity_AsInt64 (64 * Fixture.Mi)) = 67108864
  /\ 67108864 <= 2 ^ 64 - Fixture.Mi
  /\ fst out =
       Err (ErrFmt "unable to create /tmp/host-disk-images/volume1/disk.img, not enough space, demanded size 67108864 B is bigger than available space -1048576 B, also after taking 10 % toleration into account")
  /\ files (snd out) !! Fixture.volume1_img = None
  /\ trace (snd out) =
       [OpStat Fixture.volume1_img;
        OpProbe "/tmp/host-disk-images/volume1" Fixture.Mi].
Proof.
  intros E hdc vmi out.
  split; [vm_compute; reflexivity|]. split; [vm_compute; reflexivity|].
  split; [vm_compute; discriminate|].
  split; [vm_compute; reflexivity|].
  split; vm_compute; reflexivity.
Qed.


Lemma quot_100_range a : is_int64 a -> is_int64 (Z.quot a 100).
Proof.
  unfold is_int64, MinInt64, MaxInt64. intros Ha.
  pose proof (Z.quot_rem' a 100) as Hqr.
  pose proof (Z.rem_bound_abs a 100 ltac:(lia)) as Hr.
  lia.
Qed.

(** Without overflow of the product, the tolerated size is the truncated
    quotient over the integers. *)
Lemma toleratedSize_exact hdc requested :
  0 <= lessPVCSpaceToleration hdc <= 100 ->
  is_int64 (requested * (100 - lessPVCSpaceToleration hdc)) ->
  toleratedSize hdc requested
    = Z.quot (requested * (100 - lessPVCSpaceToleration hdc)) 100.
Proof.
  intros Htol Hprod. unfold toleratedSize, I64.div, I64.mul, I64.sub.
  rewrite (int64_id (lessPVCSpaceToleration hdc))
    by (unfold is_int64, MinInt64, MaxInt64; lia).
  rewrite (int64_id (100 - _)) by (unfold is_int64, MinInt64, MaxInt64; lia).
  rewrite (int64_id (requested * _)) by done.
  apply int64_id. by apply quot_100_range.
Qed.




(** C6, as the code has it.  Whenever [shrinkRequestedSize] tolerates a
    shrink, the one event it sends through the notifier is a
    "ToleratedSmallPV" event of type Normal. *)
Theorem tolerated_shrink_event_is_normal
    (hdc : DiskImgCreator) (vmi : VirtualMachineInstance)
    (requestedSize availableSize : Z) (hostDisk : HostDisk)
    (w w' : World) (finalSize : Z) :
  shrinkRequestedSize hdc vmi requestedSize availableSize hostDisk w
    = (Ok finalSize, w') ->
  trace w' =
    trace w ++ [OpSendK8sEvent (Namespace vmi) (vmi_Name vmi)
                  "Normal" "ToleratedSmallPV"
                  (shrink_message hdc requestedSize availableSize)]
  /\ EventTypeToleratedSmallPV = EventTypeNormal
  /\ EventTypeToleratedSmallPV <> EventTypeWarning.
Proof.
  rewrite shrinkRequestedSize_run.
  destruct (_ >? _); [discriminate|]. intros [= _ <-].
  repeat split. discriminate.
Qed.

Lemma tolerated_shrink_event_is_normal_witness :
  let hdc := Fixture.with_probe
               (NewHostDiskCreator (Fixture.quiet Fixture.roomy)
                  Fixture.MockNotifier 5 0)
               (Fixture.fixed_probe 95) in
  let vmi := Fixture.NewMinimalVMI "fake-vmi" in
  let hd := mkHostDisk "/data/disk.img" HostDiskExistsOrCreate 100 None in
  trace (snd (shrinkRequestedSize hdc vmi 100 95 hd Fixture.empty_world)) =
    [OpSendK8sEvent "default" "fake-vmi" "Normal" "ToleratedSmallPV"
       (shrink_message hdc 100 95)].
Proof.
  intros hdc vmi hd.
  apply (tolerated_shrink_event_is_normal hdc vmi 100 95 hd
           Fixture.empty_world _ 95).
  vm_compute. reflexivity.
Defined.

(** C6, as stated, fails: in the tolerated-shrink run of the test suite
    (5 % toleration, 64 Mi requested, exactly 95 % available) the only event
    [Create] sends has type Normal, not Warning. *)
Lemma tolerated_shrink_event_is_not_a_warning :
  let E := Fixture.quiet Fixture.roomy in
  let vmi := Fixture.addHostDisk (Fixture.NewMinimalVMI "fake-vmi")
               "volume1" HostDiskExistsOrCreate (64 * Fixture.Mi) in
  let hdc :=
    Fixture.with_probe
      (setlessPVCSpaceToleration
         (NewHostDiskCreator E Fixture.MockNotifier 0 0) 5)
      (Fixture.fixed_probe 63753420) in
  trace (snd (Create E hdc vmi Fixture.empty_world)) =
    [OpStat Fixture.volume1_img;
     OpProbe "/tmp/host-disk-images/volume1" 0;
     OpSendK8sEvent "default" "fake-vmi" "Normal" "ToleratedSmallPV"
       "PV size too small: expected 67108864 B, found 63753420 B. Using it anyway, it is within 5 % toleration";
     OpCreate Fixture.volume1_img;
     OpWriteAt Fixture.volume1_img 63753419;
     OpClose Fixture.volume1_img;
     OpChown Fixture.volume1_img]
  /\ "Normal" <> EventTypeWarning.
Proof. split; [vm_compute; reflexivity|discriminate]. Qed.

(* ===================================================================== *)
(** ** The capacity probe *)
(* ===================================================================== *)

(** C9.  [dirBytesAvailable] subtracts the reserve in unsigned 64-bit
    arithmetic without a guard.  When the reserve exceeds
    [blocksAvailable * blockSize], the call returns no error and the
    difference plus 2^64: a positive value, above what is really free and at
    least [2^64 - reserve].  When the shortfall is at most 2^63, the
    conversion to [int64] in the materialiser makes the available size the
    negative number [blocksAvailable * blockSize - reserve]: a request that
    is not negative is then sent to the shrink path with that negative
    available size. *)
Theorem dirBytesAvailable_wraps
    (E : Env) (w : World) (path : string) (reserve : Z) (stat : Statfs_t) :
  let free := Bavail stat * Bsize stat in
  let result := free - reserve + 2 ^ 64 in
  statfs E w path = Ok stat ->
  is_uint64 (Bavail stat) -> 0 <= Bsize stat <= MaxInt64 ->
  is_uint64 reserve ->
  free < reserve ->
  dirBytesAvailable E w path reserve = Ok result
  /\ 0 < result <= MaxUint64 /\ free < result /\ 2 ^ 64 - reserve <= result
  /\ (reserve - free <= 2 ^ 63 ->
        int64 result = free - reserve /\ int64 result < 0
        /\ forall n toleration vmi diskPath hostDisk,
             0 <= fst (Quantity_AsInt64 (Capacity hostDisk)) ->
             handleRequestedSizeAndCreateSparseRaw E
               (NewHostDiskCreator E n toleration reserve) vmi path diskPath
               hostDisk w =
             (let* finalSize :=
                shrinkRequestedSize
                  (NewHostDiskCreator E n toleration reserve) vmi
                  (fst (Quantity_AsInt64 (Capacity hostDisk)))
                  (free - reserve) hostDisk in
              createSparseRaw E diskPath finalSize)
               (record_op (OpProbe path reserve) w)).
Proof.
  intros free result Hstat Hbavail Hbsize Hreserve Hlt.
  unfold is_uint64, MaxUint64, MaxInt64 in *.
  assert (Hfree : 0 <= free) by (unfold free; nia).
  assert (Hrun : dirBytesAvailable E w path reserve = Ok result).
  { unfold dirBytesAvailable. rewrite Hstat. f_equal.
    unfold U64.sub, U64.mul.
    rewrite (uint64_id (Bsize stat)) by (unfold is_uint64, MaxUint64; lia).
    fold free.
    rewrite (uint64_id free) by (unfold is_uint64, MaxUint64; lia).
    apply uint64_wrap_neg. lia. }
  split; [exact Hrun|]. split; [unfold result; lia|].
  split; [unfold result; lia|]. split; [unfold result; lia|].
  intros Hshort.
  assert (Hcast : int64 result = free - reserve).
  { rewrite int64_high by (unfold result; lia). unfold result. lia. }
  split; [exact Hcast|]. split; [lia|].
  intros n toleration vmi diskPath hostDisk Hreq.
  unfold handleRequestedSizeAndCreateSparseRaw, bind at 1, probe.
  cbn [dirBytesAvailableFunc minimumPVCReserveBytes NewHostDiskCreator].
  rewrite Hrun, Hcast.
  assert (Hgtb : (fst (Quantity_AsInt64 (Capacity hostDisk)) >? free - reserve)
                 = true)
    by (rewrite Z.gtb_ltb; apply Z.ltb_lt; lia).
  rewrite Hgtb. reflexivity.
Qed.

Lemma dirBytesAvailable_wraps_witness :
  let E := Fixture.quiet {| Bavail := 0; Bsize := 4096 |} in
  dirBytesAvailable E Fixture.empty_world "/tmp/host-disk-images/volume1"
    Fixture.Mi = Ok (2 ^ 64 - Fixture.Mi)
  /\ int64 (2 ^ 64 - Fixture.Mi) = - Fixture.Mi.
Proof.
  intros E.
  destruct (dirBytesAvailable_wraps E Fixture.empty_world
              "/tmp/host-disk-images/volume1" Fixture.Mi
              {| Bavail := 0; Bsize := 4096 |})
    as (Hrun & _ & _ & _ & Hneg).
  - reflexivity.
  - vm_compute. split; discriminate.
  - vm_compute. split; discriminate.
  - vm_compute. split; discriminate.
  - vm_compute. reflexivity.
  - split; [exact Hrun|].
    destruct Hneg as (Hcast & _ & _); [vm_compute; discriminate|].
    exact Hcast.
Defined.

(* ===================================================================== *)
(** ** The rewriter: what the three maps hold *)
(* ===================================================================== *)

Lemma passthoughFSVolumes_fold name fss (acc : gset string) :
  name ∈ foldl (fun m fs => {[ fs_Name fs ]} ∪ m) acc fss
  <-> name ∈ acc \/ exists fs, fs ∈ fss /\ fs_Name fs = name.
Proof.
  revert acc. induction fss as [|fs fss IH]; intros acc; simpl.
  - split; [by left|]. intros [?|(fs & Hfs & _)]; [done|].
    by apply elem_of_nil in Hfs.
  - rewrite IH. rewrite elem_of_union, elem_of_singleton. split.
    + intros [[->|?]|(fs' & Hfs' & Hn)].
      * right. exists fs. split; [left|done].
      * by left.
      * right. exists fs'. split; [by right|done].
    + intros [?|(fs' & [->|Hfs']%elem_of_cons & Hn)].
      * left. by right.
      * left. by left.
      * right. by exists fs'.
Qed.

Lemma passthoughFSVolumes_spec vmi name :
  name ∈ passthoughFSVolumes_of (Spec_Domain_Devices_Filesystems vmi)
  <-> passthrough_named vmi name.
Proof.
  unfold passthoughFSVolumes_of, passthrough_named.
  rewrite passthoughFSVolumes_fold. split; [|by right].
  intros [Hin|?]; [|done]. by apply not_elem_of_empty in Hin.
Qed.

Lemma index_status_fold sts pvcVolume hotplugVolumes :
  foldl index_status_step (pvcVolume, hotplugVolumes) sts
  = (foldl pvc_step pvcVolume sts, foldl hotplug_step hotplugVolumes sts).
Proof.
  revert pvcVolume hotplugVolumes.
  induction sts as [|st sts IH]; intros pvcVolume hotplugVolumes; [done|].
  cbn [foldl]. by rewrite <- IH.
Qed.

Lemma hotplug_fold name sts (acc : gmap string bool) :
  foldl hotplug_step acc sts !! name = Some true
  <-> acc !! name = Some true
      \/ exists st, st ∈ sts /\ status_Name st = name
                    /\ is_Some (HotplugVolume st).
Proof.
  revert acc. induction sts as [|st sts IH]; intros acc; cbn [foldl].
  - split; [by left|]. intros [?|(st & Hst & _)]; [done|].
    by apply elem_of_nil in Hst.
  - rewrite IH. unfold hotplug_step at 1. split.
    + intros [Hacc|(st' & Hst' & Hn & Hh)].
      * destruct (HotplugVolume st) as [u|] eqn:Hhot; [|by left].
        destruct (decide (status_Name st = name)) as [Heq|Hne].
        -- right. exists st. rewrite Hhot. split; [left|]. by eauto.
        -- left. by rewrite lookup_insert_ne in Hacc.
      * right. exists st'. split; [by right|done].
    + intros [Hacc|(st' & [->|Hst']%elem_of_cons & Hn & Hh)].
      * left. destruct (HotplugVolume st); [|done].
        destruct (decide (status_Name st = name)) as [->|Hne].
        -- by rewrite lookup_insert_eq.
        -- by rewrite lookup_insert_ne.
      * left. destruct Hh as [u ->]. subst name. by rewrite lookup_insert_eq.
      * right. by exists st'.
Qed.

Lemma hotplug_fold_true name sts (acc : gmap string bool) :
  (forall b, acc !! name = Some b -> b = true) ->
  forall b, foldl hotplug_step acc sts !! name = Some b -> b = true.
Proof.
  revert acc. induction sts as [|st sts IH]; intros acc Hacc; cbn [foldl];
    [done|].
  apply IH. unfold hotplug_step. destruct (HotplugVolume st); [|done].
  intros b. destruct (decide (status_Name st = name)) as [->|Hne].
  - rewrite lookup_insert_eq. congruence.
  - rewrite lookup_insert_ne by done. apply Hacc.
Qed.

Lemma hotplugVolumes_spec vmi name :
  default false (snd (index_status (Status_VolumeStatus vmi)) !! name) = true
  <-> marked_hotplugged vmi name.
Proof.
  unfold index_status, marked_hotplugged. rewrite index_status_fold. simpl.
  pose proof (hotplug_fold name (Status_VolumeStatus vmi) ∅) as Hfold.
  pose proof (hotplug_fold_true name (Status_VolumeStatus vmi) ∅) as Htrue.
  rewrite lookup_empty in Hfold.
  destruct (foldl hotplug_step ∅ (Status_VolumeStatus vmi) !! name)
    as [b|] eqn:Hb; simpl.
  - rewrite (Htrue ltac:(intros b'; by rewrite lookup_empty) b eq_refl) in *.
    split; [|done]. intros _.
    destruct (proj1 Hfold eq_refl) as [?|?]; done.
  - split; [done|]. intros Hm.
    assert (None = Some true) by (apply Hfold; by right). done.
Qed.

Lemma pvc_fold name sts (acc : gmap string VolumeStatus) :
  foldl pvc_step acc sts !! name =
    match last (filter (fun st =>
                          status_Name st = name
                          /\ is_Some (status_PersistentVolumeClaimInfo st))
                  sts) with
    | Some st => Some st
    | None => acc !! name
    end.
Proof.
  revert acc. induction sts as [|st sts IH]; intros acc; cbn [foldl]; [done|].
  rewrite IH. rewrite filter_cons. unfold pvc_step at 1.
  case_decide as Hp.
  - destruct Hp as [Hn [info Hinfo]]. rewrite Hinfo, last_cons.
    destruct (last _); [done|]. subst name. by rewrite lookup_insert_eq.
  - destruct (last _); [done|].
    destruct (status_PersistentVolumeClaimInfo st) as [info|] eqn:Hinfo;
      [|done].
    rewrite lookup_insert_ne; [done|]. intros Heq. apply Hp. eauto.
Qed.

Lemma pvcVolume_spec vmi name :
  fst (index_status (Status_VolumeStatus vmi)) !! name
  = recorded_claim vmi name.
Proof.
  unfold index_status, recorded_claim. rewrite index_status_fold. simpl.
  rewrite pvc_fold. by destruct (last _).
Qed.

Lemma recorded_claim_elem vmi name st :
  recorded_claim vmi name = Some st ->
  st ∈ Status_VolumeStatus vmi /\ status_Name st = name
  /\ is_Some (status_PersistentVolumeClaimInfo st).
Proof.
  unfold recorded_claim. intros Hlast.
  apply last_Some_elem_of in Hlast.
  by apply list_elem_of_filter in Hlast as [[? ?] ?].
Qed.

(** The test of the loop, in terms of the instance. *)
Lemma replacement_of_spec vmi volume info :
  replacement_of vmi volume = Some info <-> eligible vmi volume info.
Proof.
  unfold replacement_of, replacement, eligible.
  rewrite <- passthoughFSVolumes_spec, <- hotplugVolumes_spec.
  rewrite pvcVolume_spec.
  destruct (vs_PersistentVolumeClaim (Source volume)) as [pvc|];
    [|split; [done|by intros [[? ?] _]]].
  case_decide as Hpt; [split; [done|tauto]|].
  destruct (default false _) eqn:Hhot; [split; [done|tauto]|].
  destruct (recorded_claim vmi (Name volume)) as [st|] eqn:Hrec; simpl;
    [|split; [done|by intros (_ & _ & _ & ? & ? & ? & _)]].
  destruct (status_PersistentVolumeClaimInfo st) as [info'|] eqn:Hinfo; simpl;
    [|split; [done|intros (_ & _ & _ & ? & ? & ? & ? & _); congruence]].
  destruct (VolumeMode info') as [mode|] eqn:Hmode; simpl;
    [|split; [done|intros (_ & _ & _ & ? & ? & ? & ? & ? & _); congruence]].
  destruct (String.eqb_spec mode PersistentVolumeBlock) as [->|Hne].
  - split; [done|]. intros (_ & _ & _ & ? & ? & ? & ? & ? & ?). congruence.
  - split.
    + intros [= <-]. repeat split; eauto. exists st, mode. done.
    + intros (_ & _ & _ & ? & ? & ? & ? & ? & ?). congruence.
Qed.

(* ===================================================================== *)
(** ** The rewriter: the loop over the volumes *)
(* ===================================================================== *)

Section RewriterLemmas.

Context (E : Env).

Lemma replace_volumes_cons pt hot pvcs volume rest w :
  replace_volumes E pt hot pvcs (volume :: rest) w =
    match replacement pt hot pvcs volume with
    | None => keep volume (replace_volumes E pt hot pvcs rest w)
    | Some info =>
        let volume' := hostDiskVolume E volume info in
        match SetFileOwnership E
                (getPVCDiskImgPath E (Name volume) "disk.img") w with
        | (Err err, w1) =>
            if negb (os_IsNotExist err)
            then (volume' :: rest, Err err, w1)
            else keep volume' (replace_volumes E pt hot pvcs rest w1)
        | (Ok _, w1) => keep volume' (replace_volumes E pt hot pvcs rest w1)
        end
    end.
Proof.
  cbn [replace_volumes]. unfold replacement.
  destruct (vs_PersistentVolumeClaim (Source volume)); [|done].
  case_decide; [done|].
  destruct (default false (hot !! Name volume)); [done|].
  destruct (pvcs !! Name volume) as [st|]; simpl; [|done].
  destruct (status_PersistentVolumeClaimInfo st) as [info|]; simpl; [|done].
  destruct (VolumeMode info) as [mode|]; simpl; [|done].
  by destruct (String.eqb mode PersistentVolumeBlock).
Qed.

(** What the loop returns: without an error every volume is as the test
    decides; with an error the volumes up to and including the failing one
    are, and those behind it are as they were. *)
Lemma replace_volumes_spec pt hot pvcs vols w vols' r w' :
  let rw v := match replacement pt hot pvcs v with
              | Some info => hostDiskVolume E v info
              | None => v
              end in
  replace_volumes E pt hot pvcs vols w = (vols', r, w') ->
  match r with
  | Ok _ => vols' = rw <$> vols
  | Err e =>
      exists before volume after info w1,
        vols = before ++ volume :: after
        /\ replacement pt hot pvcs volume = Some info
        /\ vols' = (rw <$> before) ++ hostDiskVolume E volume info :: after
        /\ os_IsNotExist e = false
        /\ SetFileOwnership E (getPVCDiskImgPath E (Name volume) "disk.img")
             w1 = (Err e, w')
  end.
Proof.
  intros rw. revert w vols' r w'.
  induction vols as [|v vols IH]; intros w vols' r w'.
  { intros [= <- <- <-]. done. }
  rewrite replace_volumes_cons.
  assert (Hkeep : forall v' w0,
    rw v = v' ->
    keep v' (replace_volumes E pt hot pvcs vols w0) = (vols', r, w') ->
    match r with
    | Ok _ => vols' = rw <$> v :: vols
    | Err e =>
        exists before volume after info w1,
          v :: vols = before ++ volume :: after
          /\ replacement pt hot pvcs volume = Some info
          /\ vols' = (rw <$> before) ++ hostDiskVolume E volume info :: after
          /\ os_IsNotExist e = false
          /\ SetFileOwnership E
               (getPVCDiskImgPath E (Name volume) "disk.img") w1 = (Err e, w')
    end).
  { intros v' w0 Hv' Hrun.
    destruct (replace_volumes E pt hot pvcs vols w0) as [[vs r0] w1] eqn:Hrest.
    simpl in Hrun. injection Hrun as <- <- <-.
    specialize (IH _ _ _ _ Hrest). destruct r0 as [[]|e].
    - rewrite fmap_cons. by rewrite IH, Hv'.
    - destruct IH as (before & volume & after & info & w2
                      & -> & Hrep & -> & Hne & Hown).
      exists (v :: before), volume, after, info, w2.
      rewrite fmap_cons, Hv'. by repeat split. }
  subst rw. simpl in *.
  destruct (replacement pt hot pvcs v) as [info|] eqn:Hrep; [|by apply Hkeep].
  cbv zeta.
  destruct (SetFileOwnership E _ w) as [[[]|err] w1] eqn:Hown;
    [by apply Hkeep|].
  destruct (os_IsNotExist err) eqn:Hne; simpl; [by apply Hkeep|].
  intros [= <- <- <-].
  exists [], v, vols, info, w. by repeat split.
Qed.

End RewriterLemmas.

Lemma NoDup_fmap_same {A B} (f : A -> B) (l : list A) x y :
  NoDup (f <$> l) -> x ∈ l -> y ∈ l -> f x = f y -> x = y.
Proof.
  induction l as [|a l IH]; [by intros _ ?%elem_of_nil|].
  rewrite fmap_cons. intros [Hnotin Hnd]%NoDup_cons.
  intros [->|Hx]%elem_of_cons [->|Hy]%elem_of_cons Hf; [done| | |by apply IH].
  - exfalso. apply Hnotin. rewrite Hf. by apply list_elem_of_fmap_2.
  - exfalso. apply Hnotin. rewrite <- Hf. by apply list_elem_of_fmap_2.
Qed.

(** With one status entry per name and the two modes of the API, the test
    of the code is the one the specification words. *)
Lemma eligible_as_stated_iff vmi volume :
  well_formed_status vmi ->
  (exists info, eligible vmi volume info) <-> eligible_as_stated vmi volume.
Proof.
  intros [Hnd Hmodes]. unfold eligible, eligible_as_stated. split.
  - intros (info & Hpvc & Hpt & Hhot & st & mode & Hrec & Hinfo & Hmode & Hne).
    repeat split; try done.
    apply recorded_claim_elem in Hrec as (Hst & Hn & _).
    exists st, info. repeat split; try done.
    destruct (Hmodes st info mode Hst Hinfo Hmode) as [->| ->]; done.
  - intros (Hpvc & Hpt & Hhot & st & info & Hst & Hn & Hinfo & Hmode).
    exists info. repeat split; try done.
    exists st, PersistentVolumeFilesystem.
    split; [|by repeat split].
    destruct (recorded_claim vmi (Name volume)) as [st'|] eqn:Hrec.
    + apply recorded_claim_elem in Hrec as (Hst' & Hn' & _).
      f_equal. apply (NoDup_fmap_same status_Name _ _ _ Hnd); congruence.
    + exfalso. unfold recorded_claim in Hrec.
      apply last_None in Hrec.
      assert (Hin : st ∈ filter
                (fun st => status_Name st = Name volume
                           /\ is_Some (status_PersistentVolumeClaimInfo st))
                (Status_VolumeStatus vmi)).
      { apply list_elem_of_filter. repeat split; eauto. }
      rewrite Hrec in Hin. by apply elem_of_nil in Hin.
Qed.

(* ===================================================================== *)
(** ** Properties of [ReplacePVCByHostDisk] *)
(* ===================================================================== *)

Lemma ReplacePVCByHostDisk_run E vmi w :
  ReplacePVCByHostDisk E vmi w =
    let '(vols, r, w') :=
      replace_volumes E
        (passthoughFSVolumes_of (Spec_Domain_Devices_Filesystems vmi))
        (snd (index_status (Status_VolumeStatus vmi)))
        (fst (index_status (Status_VolumeStatus vmi)))
        (Spec_Volumes vmi) w in
    (set_Volumes vmi vols, r, w').
Proof.
  unfold ReplacePVCByHostDisk.
  by destruct (index_status (Status_VolumeStatus vmi)).
Qed.

(** C2, as the code has it.  When [ReplacePVCByHostDisk] returns nil, every
    volume of the instance is as the test of the loop decides.  A volume is
    rewritten exactly when it has a claim source, its name is no passthrough
    filesystem's, it is not marked hotplugged, and the last status entry of
    its name that carries claim information has a volume mode that is set
    and is not Block; with one status entry per name and the two modes of
    the API, that is: some status entry of its name reports Filesystem.  The
    rewritten volume has no claim source and the HostDisk
    [baseDir/name/disk.img], ExistsOrCreate, with the storage capacity and
    the shared flag of that status entry; every other volume is as it
    was. *)
Theorem ReplacePVCByHostDisk_rewrites
    (E : Env) (vmi vmi' : VirtualMachineInstance) (w w' : World) :
  ReplacePVCByHostDisk E vmi w = (vmi', Ok tt, w') ->
  vmi' = set_Volumes vmi (rewritten E vmi <$> Spec_Volumes vmi)
  /\ (forall volume info,
        eligible vmi volume info ->
        rewritten E vmi volume =
          {| Name := Name volume;
             Source :=
               {| vs_HostDisk :=
                    Some {| Path := path_Join [pvcBaseDir E; Name volume;
                                               "disk.img"];
                            Type_ := HostDiskExistsOrCreate;
                            Capacity :=
                              default 0 (info_Capacity info !! "storage");
                            Shared := Some (HasSharedAccessMode E
                                              (AccessModes info)) |};
                  vs_PersistentVolumeClaim := None;
                  vs_Other := vs_Other (Source volume) |} |})
  /\ (forall volume,
        ~ (exists info, eligible vmi volume info) ->
        rewritten E vmi volume = volume)
  /\ (well_formed_status vmi ->
      forall volume,
        (exists info, eligible vmi volume info)
        <-> eligible_as_stated vmi volume).
Proof.
  rewrite ReplacePVCByHostDisk_run. intros Hrun.
  destruct (replace_volumes E _ _ _ _ w) as [[vols r] w1] eqn:Hloop.
  injection Hrun as <- -> <-.
  apply replace_volumes_spec in Hloop. simpl in Hloop.
  split; [by rewrite Hloop|]. split; [|split].
  - intros volume info Helig. apply replacement_of_spec in Helig.
    unfold rewritten. by rewrite Helig.
  - intros volume Hnot. unfold rewritten.
    destruct (replacement_of vmi volume) as [info|] eqn:Hrep; [|done].
    exfalso. apply Hnot. exists info. by apply replacement_of_spec.
  - intros Hwf volume. by apply eligible_as_stated_iff.
Qed.

Lemma ReplacePVCByHostDisk_rewrites_witness :
  let E := Fixture.quiet Fixture.roomy in
  let vmi := RewriteFixture.vmiOf
               [RewriteFixture.pvcVolumeOf "pvc-volume"] []
               [RewriteFixture.statusOf "pvc-volume" "Filesystem"] in
  let out := ReplacePVCByHostDisk E vmi Fixture.empty_world in
  Spec_Volumes (fst (fst out)) =
    [ {| Name := "pvc-volume";
         Source :=
           {| vs_HostDisk :=
                Some {| Path := "/tmp/host-disk-images/pvc-volume/disk.img";
                        Type_ := "DiskOrCreate";
                        Capacity := 0;
                        Shared := Some false |};
              vs_PersistentVolumeClaim := None;
              vs_Other := None |} |} ].
Proof.
  intros E vmi out.
  destruct (ReplacePVCByHostDisk_rewrites E vmi (fst (fst out))
              Fixture.empty_world (snd out)) as (Hvols & _).
  - vm_compute. reflexivity.
  - rewrite Hvols. vm_compute. reflexivity.
Defined.

(** C2, as stated, fails in three ways.  (a) When a fatal ownership error
    stops the loop at one volume, an eligible volume behind it is left with
    its claim.  (b) A claim whose volume mode is neither of the two API
    modes is rewritten.  (c) With two status entries of one name, the last
    one decides: an entry reporting Filesystem followed by one reporting
    Block leaves the volume with its claim. *)
Lemma ReplacePVCByHostDisk_not_as_stated :
  (let E := Fixture.chown_refused Fixture.roomy (RewriteFixture.img "v1") in
   let vmi := RewriteFixture.vmiOf
                [RewriteFixture.pvcVolumeOf "v1";
                 RewriteFixture.pvcVolumeOf "v2"] []
                [RewriteFixture.statusOf "v1" "Filesystem";
                 RewriteFixture.statusOf "v2" "Filesystem"] in
   let out := ReplacePVCByHostDisk E vmi (RewriteFixture.world_with "v1") in
   eligible_as_stated vmi (RewriteFixture.pvcVolumeOf "v2")
   /\ snd (fst out) = Err (ErrOS "operation not permitted")
   /\ Spec_Volumes (fst (fst out)) !! 1%nat
      = Some (RewriteFixture.pvcVolumeOf "v2"))
  /\ (let E := Fixture.quiet Fixture.roomy in
      let vmi := RewriteFixture.vmiOf [RewriteFixture.pvcVolumeOf "v1"] []
                   [RewriteFixture.statusOf "v1" "Other"] in
      let out := ReplacePVCByHostDisk E vmi Fixture.empty_world in
      ~ eligible_as_stated vmi (RewriteFixture.pvcVolumeOf "v1")
      /\ snd (fst out) = Ok tt
      /\ Spec_Volumes (fst (fst out)) !! 0%nat
         = Some (hostDiskVolume E (RewriteFixture.pvcVolumeOf "v1")
                   (RewriteFixture.infoOf "Other")))
  /\ (let E := Fixture.quiet Fixture.roomy in
      let vmi := RewriteFixture.vmiOf [RewriteFixture.pvcVolumeOf "v1"] []
                   [RewriteFixture.statusOf "v1" "Filesystem";
                    RewriteFixture.statusOf "v1" "Block"] in
      let out := ReplacePVCByHostDisk E vmi Fixture.empty_world in
      eligible_as_stated vmi (RewriteFixture.pvcVolumeOf "v1")
      /\ snd (fst out) = Ok tt
      /\ Spec_Volumes (fst (fst out)) !! 0%nat
         = Some (RewriteFixture.pvcVolumeOf "v1")).
Proof.
  assert (Hnofs : forall sts name,
            ~ passthrough_named (RewriteFixture.vmiOf sts [] name)
                "v1" /\
            ~ passthrough_named (RewriteFixture.vmiOf sts [] name) "v2").
  { intros sts name.
    split; intros (fs & Hfs & _); by apply elem_of_nil in Hfs. }
  assert (Hnohot : forall vols names modes name,
            ~ marked_hotplugged
                (RewriteFixture.vmiOf vols []
                   (zip_with RewriteFixture.statusOf names modes)) name).
  { intros vols names modes name (st & Hst & _ & [u Hu]). simpl in Hst.
    apply list_elem_of_lookup in Hst as [i Hi].
    apply lookup_zip_with_Some in Hi as (n & m & -> & _ & _). done. }
  split; [|split].
  - intros E vmi out. split; [|split; vm_compute; reflexivity].
    split; [by eexists|]. split; [apply Hnofs|].
    split; [apply (Hnohot _ ["v1"; "v2"] ["Filesystem"; "Filesystem"])|].
    exists (RewriteFixture.statusOf "v2" "Filesystem"),
      (RewriteFixture.infoOf "Filesystem").
    split; [|done]. simpl. right. left.
  - intros E vmi out. split; [|split; vm_compute; reflexivity].
    intros (_ & _ & _ & st & info & Hst & _ & Hinfo & Hmode).
    simpl in Hst. apply list_elem_of_singleton in Hst. subst st.
    simpl in Hinfo. injection Hinfo as <-. discriminate.
  - intros E vmi out. split; [|split; vm_compute; reflexivity].
    split; [by eexists|]. split; [apply Hnofs|].
    split; [apply (Hnohot _ ["v1"; "v1"] ["Filesystem"; "Block"])|].
    exists (RewriteFixture.statusOf "v1" "Filesystem"),
      (RewriteFixture.infoOf "Filesystem").
    split; [|done]. simpl. left.
Qed.

(** C10.  [ReplacePVCByHostDisk] is not atomic.  When it returns an error,
    the error is an ownership error other than "not exist" raised for an
    eligible volume [i]; that volume is already rewritten (claim source
    cleared, HostDisk source set), every eligible volume before it is
    rewritten as well, and the volumes behind it are as they were. *)
Theorem ReplacePVCByHostDisk_not_atomic
    (E : Env) (vmi vmi' : VirtualMachineInstance) (w w' : World)
    (e : error) :
  ReplacePVCByHostDisk E vmi w = (vmi', Err e, w') ->
  exists before volume after info,
    Spec_Volumes vmi = before ++ volume :: after
    /\ eligible vmi volume info
    /\ os_IsNotExist e = false
    /\ (exists w1,
          SetFileOwnership E (getPVCDiskImgPath E (Name volume) "disk.img") w1
            = (Err e, w'))
    /\ vmi' =
         set_Volumes vmi
           ((rewritten E vmi <$> before)
            ++ hostDiskVolume E volume info :: after)
    /\ Spec_Volumes vmi' !! length before
         = Some (hostDiskVolume E volume info)
    /\ vs_PersistentVolumeClaim (Source (hostDiskVolume E volume info)) = None
    /\ is_Some (vs_HostDisk (Source (hostDiskVolume E volume info)))
    /\ (forall j v info',
          before !! j = Some v -> eligible vmi v info' ->
          Spec_Volumes vmi' !! j = Some (hostDiskVolume E v info')).
Proof.
  rewrite ReplacePVCByHostDisk_run. intros Hrun.
  destruct (replace_volumes E _ _ _ _ w) as [[vols r] w1] eqn:Hloop.
  injection Hrun as <- -> <-.
  apply replace_volumes_spec in Hloop.
  destruct Hloop as (before & volume & after & info & w0
                     & Hvols & Hrep & Hvols' & Hne & Hown).
  exists before, volume, after, info. simpl.
  split; [done|]. split; [by apply replacement_of_spec|]. split; [done|].
  split; [by exists w0|]. split; [by rewrite Hvols'|].
  split; [|split; [done|split; [by eexists|]]].
  - rewrite Hvols'. rewrite lookup_app_r by (by rewrite length_fmap).
    by rewrite length_fmap, Nat.sub_diag.
  - intros j v info' Hj Helig. rewrite Hvols'.
    rewrite lookup_app_l
      by (rewrite length_fmap; by eapply lookup_lt_Some).
    rewrite list_lookup_fmap, Hj. simpl. f_equal.
    apply replacement_of_spec in Helig.
    change (rewritten E vmi v = hostDiskVolume E v info').
    unfold rewritten. by rewrite Helig.
Qed.

Lemma ReplacePVCByHostDisk_not_atomic_witness :
  let E := Fixture.chown_refused Fixture.roomy (RewriteFixture.img "v2") in
  let vmi := RewriteFixture.vmiOf
               [RewriteFixture.pvcVolumeOf "v1";
                RewriteFixture.pvcVolumeOf "v2";
                RewriteFixture.pvcVolumeOf "v3"] []
               [RewriteFixture.statusOf "v1" "Filesystem";
                RewriteFixture.statusOf "v2" "Filesystem";
                RewriteFixture.statusOf "v3" "Filesystem"] in
  let out := ReplacePVCByHostDisk E vmi (RewriteFixture.world_with "v2") in
  snd (fst out) = Err (ErrOS "operation not permitted")
  /\ exists before volume after info,
       Spec_Volumes vmi = before ++ volume :: after
       /\ fst (fst out) =
            set_Volumes vmi
              ((rewritten E vmi <$> before)
               ++ hostDiskVolume E volume info :: after).
Proof.
  intros E vmi out. split; [vm_compute; reflexivity|].
  destruct (ReplacePVCByHostDisk_not_atomic E vmi (fst (fst out))
              (RewriteFixture.world_with "v2") (snd out)
              (ErrOS "operation not permitted"))
    as (before & volume & after & info & Hvols & _ & _ & _ & Hvols' & _).
  - vm_compute. reflexivity.
  - exists before, volume, after, info. split; [exact Hvols|exact Hvols'].
Defined.

(* ===================================================================== *)
(** ** Version comparison *)
(* ===================================================================== *)

Lemma digit_of_range c d : digit_of c = Some d -> 0 <= d <= 9.
Proof.
  unfold digit_of. destruct (_ && _) eqn:Hc; [|done].
  intros [= <-]. apply andb_true_iff in Hc as [H1%Z.leb_le H2%Z.leb_le]. lia.
Qed.

Lemma digits_value_ge s n v : 0 <= n -> digits_value n s = Some v -> n <= v.
Proof.
  revert n. induction s as [|c s IH]; intros n Hn; simpl.
  - intros [= <-]. lia.
  - destruct (digit_of c) as [d|] eqn:Hd; [|done].
    apply digit_of_range in Hd. intros Hv. apply IH in Hv; lia.
Qed.

(** The loop of [ParseUint] for 32 bits: either the digits' value, when it
    fits, or one of the two errors. *)
Lemma ParseUint_loop_32 s n :
  0 <= n <= 2 ^ 32 - 1 ->
  match digits_value n s with
  | Some v =>
      if decide (v <= 2 ^ 32 - 1)
      then ParseUint_loop (2 ^ 32 - 1) s n = (v, None)
      else ParseUint_loop (2 ^ 32 - 1) s n = (2 ^ 32 - 1, Some ErrRange)
  | None =>
      ParseUint_loop (2 ^ 32 - 1) s n = (0, Some ErrSyntax)
      \/ ParseUint_loop (2 ^ 32 - 1) s n = (2 ^ 32 - 1, Some ErrRange)
  end.
Proof.
  revert n. induction s as [|c s IH]; intros n Hn; simpl.
  - case_decide; [done|lia].
  - destruct (digit_of c) as [d|] eqn:Hd; [|by left].
    pose proof (digit_of_range _ _ Hd) as Hdr.
    assert (Hcut : (n >=? MaxUint64 / 10 + 1) = false).
    { rewrite Z.geb_leb. apply Z.leb_gt.
      change (MaxUint64 / 10 + 1) with 1844674407370955162. lia. }
    rewrite Hcut. unfold U64.mul.
    rewrite (uint64_id (n * 10)) by (unfold is_uint64, MaxUint64; lia).
    rewrite (uint64_id (n * 10 + d)) by (unfold is_uint64, MaxUint64; lia).
    assert (Hlt : (n * 10 + d <? n * 10) = false) by (apply Z.ltb_ge; lia).
    rewrite Hlt. simpl.
    destruct (n * 10 + d >? 2 ^ 32 - 1) eqn:Hbig.
    + assert (Hbig' : 2 ^ 32 - 1 < n * 10 + d)
        by (rewrite Z.gtb_ltb in Hbig; by apply Z.ltb_lt).
      destruct (digits_value (n * 10 + d) s) as [v|] eqn:Hv; [|by right].
      apply digits_value_ge in Hv; [|lia]. case_decide; [lia|done].
    + apply IH. rewrite Z.gtb_ltb in Hbig. apply Z.ltb_ge in Hbig. lia.
Qed.

Lemma ParseUint10_32 s :
  match unsigned_base10 s with
  | Some v =>
      0 <= v /\
      if decide (v <= 2 ^ 32 - 1)
      then ParseUint10 s 32 = (v, None)
      else ParseUint10 s 32 = (2 ^ 32 - 1, Some ErrRange)
  | None =>
      ParseUint10 s 32 = (0, Some ErrSyntax)
      \/ ParseUint10 s 32 = (2 ^ 32 - 1, Some ErrRange)
  end.
Proof.
  destruct s as [|c s]; [by left|].
  unfold unsigned_base10, ParseUint10.
  pose proof (ParseUint_loop_32 (String c s) 0 ltac:(lia)) as Hloop.
  destruct (digits_value 0 (String c s)) as [v|] eqn:Hv; [|done].
  split; [|done]. by apply digits_value_ge in Hv.
Qed.

Lemma ParseInt_signed_spec neg s v :
  ParseInt_signed neg s = (v, None)
  <-> exists u, unsigned_base10 s = Some u
                /\ v = (if neg then - u else u) /\ is_int32 v.
Proof.
  unfold ParseInt_signed, is_int32.
  pose proof (ParseUint10_32 s) as Hu.
  change (2 ^ (32 - 1)) with 2147483648.
  destruct (unsigned_base10 s) as [u|].
  - destruct Hu as [Hpos Hu]. case_decide as Hfit; rewrite Hu.
    + destruct neg; simpl.
      * destruct (u >? 2147483648) eqn:Hc; rewrite Z.gtb_ltb in Hc.
        -- apply Z.ltb_lt in Hc. split; [done|].
           intros (u' & [= <-] & -> & ?). lia.
        -- apply Z.ltb_ge in Hc.
           rewrite int64_id by (unfold is_int64, MinInt64, MaxInt64; lia).
           split.
           ++ intros [= <-]. exists u. repeat split; lia.
           ++ intros (u' & [= <-] & -> & ?). done.
      * destruct (u >=? 2147483648) eqn:Hc; rewrite Z.geb_leb in Hc.
        -- apply Z.leb_le in Hc. split; [done|].
           intros (u' & [= <-] & -> & ?). lia.
        -- apply Z.leb_gt in Hc.
           rewrite int64_id by (unfold is_int64, MinInt64, MaxInt64; lia).
           split.
           ++ intros [= <-]. exists u. repeat split; lia.
           ++ intros (u' & [= <-] & -> & ?). done.
    + destruct neg; simpl; (split; [done|]);
        intros (u' & [= <-] & -> & ?); lia.
  - destruct Hu as [-> | ->].
    + split; [done|]. by intros (u' & ? & _).
    + destruct neg; simpl; (split; [done|]); by intros (u' & ? & _).
Qed.

Lemma ParseInt10_signed s :
  ParseInt10 s 32 =
    match s with
    | EmptyString => (0, Some ErrSyntax)
    | String c rest =>
        if Ascii.eqb c "+"%char then ParseInt_signed false rest
        else if Ascii.eqb c "-"%char then ParseInt_signed true rest
        else ParseInt_signed false s
    end.
Proof.
  destruct s as [|c rest]; [done|]. unfold ParseInt10, ParseInt_signed.
  destruct (Ascii.eqb c "+"); [done|]. by destruct (Ascii.eqb c "-").
Qed.

(** [strconv.ParseInt(s, 10, 32)] succeeds exactly on the base-10 integers
    of the signed 32-bit range, and returns their value. *)
Lemma ParseInt10_32_spec s v :
  ParseInt10 s 32 = (v, None) <-> base10_integer s = Some v /\ is_int32 v.
Proof.
  rewrite ParseInt10_signed. unfold base10_integer.
  destruct s as [|c rest]; [split; [done|by intros [? _]]|].
  destruct (Ascii.eqb c "+"); [|destruct (Ascii.eqb c "-")];
    rewrite ParseInt_signed_spec.
  - split.
    + intros (u & -> & -> & ?). done.
    + intros [Hu ?]. by exists v.
  - split.
    + intros (u & -> & -> & ?). done.
    + intros [Hu ?]. destruct (unsigned_base10 rest) as [u|]; [|done].
      injection Hu as <-. by exists u.
  - split.
    + intros (u & -> & -> & ?). done.
    + intros [Hu ?]. by exists v.
Qed.

Lemma lex_le_compare s t : lex_le s t <-> String.compare s t <> Gt.
Proof.
  split.
  - induction 1 as [s|a s b t Hlt|a s t Hle IH]; simpl.
    + by destruct s.
    + unfold Ascii.compare. apply N.compare_lt_iff in Hlt. by rewrite Hlt.
    + unfold Ascii.compare. by rewrite N.compare_refl.
  - revert t. induction s as [|a s IH]; intros t; [constructor|].
    destruct t as [|b t]; simpl; [done|].
    destruct (Ascii.compare a b) eqn:Hab.
    + apply Ascii.compare_eq_iff in Hab as ->. intros H. apply lex_le_eq.
      by apply IH.
    + intros _. apply lex_le_lt. by apply N.compare_lt_iff.
    + done.
Qed.

(** C7, as the code has it.  The numeric policy answers true exactly when
    both strings are base-10 integers of the signed 32-bit range and the
    target is at most the observed value; a string that does not parse makes
    it answer false.  The lexical policy answers true exactly when the
    target is lexicographically at most the observed string. *)
Theorem version_comparison_policies (target observed : string) :
  (ExpectResourceVersionToBeLessThanConfigVersion target observed = true
   <-> exists a b,
         base10_integer target = Some a /\ base10_integer observed = Some b
         /\ is_int32 a /\ is_int32 b /\ a <= b)
  /\ (base10_integer target = None \/ base10_integer observed = None ->
      ExpectResourceVersionToBeLessThanConfigVersion target observed = false)
  /\ (ExpectResourceVersionToBeEqualConfigVersion target observed = true
      <-> lex_le target observed).
Proof.
  assert (Hnum :
    ExpectResourceVersionToBeLessThanConfigVersion target observed = true
    <-> exists a b,
          base10_integer target = Some a /\ base10_integer observed = Some b
          /\ is_int32 a /\ is_int32 b /\ a <= b).
  { unfold ExpectResourceVersionToBeLessThanConfigVersion.
    pose proof (ParseInt10_32_spec target) as Ht.
    pose proof (ParseInt10_32_spec observed) as Ho.
    destruct (ParseInt10 target 32) as [rv [et|]].
    { split; [done|]. intros (a & b & Ha & _ & Hra & _).
      by pose proof (proj2 (Ht a) (conj Ha Hra)). }
    destruct (ParseInt10 observed 32) as [crv [eo|]].
    { split; [done|]. intros (a & b & _ & Hb & _ & Hrb & _).
      by pose proof (proj2 (Ho b) (conj Hb Hrb)). }
    destruct (proj1 (Ht rv) eq_refl) as [Hrv Hrrv].
    destruct (proj1 (Ho crv) eq_refl) as [Hcrv Hrcrv].
    destruct (rv >? crv) eqn:Hc; rewrite Z.gtb_ltb in Hc.
    - apply Z.ltb_lt in Hc. split; [done|].
      intros (a & b & Ha & Hb & _ & _ & Hle).
      rewrite Hrv in Ha. rewrite Hcrv in Hb. simplify_eq. lia.
    - apply Z.ltb_ge in Hc. split; [|done]. intros _.
      exists rv, crv. split; [done|]. split; [done|]. split; [done|].
      split; [done|lia]. }
  split; [exact Hnum|]. split.
  - intros Hnone.
    destruct (ExpectResourceVersionToBeLessThanConfigVersion target observed)
      eqn:Hres; [|done].
    destruct (proj1 Hnum eq_refl) as (a & b & Ha & Hb & _).
    destruct Hnone; congruence.
  - unfold ExpectResourceVersionToBeEqualConfigVersion, string_gt.
    rewrite lex_le_compare.
    destruct (String.compare target observed); split; done.
Qed.

Lemma version_comparison_policies_witness :
  ExpectResourceVersionToBeLessThanConfigVersion "9" "10" = true
  /\ ExpectResourceVersionToBeLessThanConfigVersion "ten" "10" = false
  /\ lex_le "10" "9".
Proof.
  split; [|split].
  - apply (proj1 (version_comparison_policies "9" "10")).
    exists 9, 10. unfold is_int32. repeat split; (reflexivity || lia).
  - apply (proj1 (proj2 (version_comparison_policies "ten" "10"))).
    left. reflexivity.
  - apply (proj2 (proj2 (version_comparison_policies "10" "9"))).
    reflexivity.
Defined.

(** C7, as stated, fails: 2147483648 is a base-10 integer and is at most
    itself, yet the numeric policy answers false, because it parses into 32
    bits. *)
Lemma numeric_policy_rejects_large_versions :
  base10_integer "2147483648" = Some 2147483648
  /\ 2147483648 <= 2147483648
  /\ ExpectResourceVersionToBeLessThanConfigVersion
       "2147483648" "2147483648" = false.
Proof. split; [reflexivity|]. split; [lia|reflexivity]. Qed.

(* ===================================================================== *)
(** ** The convergence waiter *)
(* ===================================================================== *)

Section WaiterLemmas.

Context (podLabel target : string) (cmp : compare).

#[local] Abbreviation checks := (check_pods podLabel target cmp).
#[local] Abbreviation polls := (poll podLabel target cmp).
#[local] Abbreviation eventually := (Eventually podLabel target cmp).

(** One pod, three ways. *)
Lemma pod_cases c pod :
  passes cmp target c pod \/ falls_short cmp target c pod
  \/ lacks_version c pod.
Proof.
  unfold passes, falls_short, lacks_version.
  destruct (CallUrlOnPod c pod "8443" "/healthz") as [[|fields]|e] eqn:Hcall.
  - right. left. by right; left.
  - destruct (fields !! version_key) as [[observed|]|] eqn:Hkey.
    + destruct (cmp target observed) eqn:Hcmp.
      * left. by exists fields, observed.
      * right. left. right. right. by exists fields, observed.
    + right. right. exists fields. split; [done|]. congruence.
    + right. right. exists fields. split; [done|]. congruence.
  - right. left. left. by exists e.
Qed.

Lemma check_pods_cons c pod rest :
  checks c (pod :: rest) =
    match DeletionTimestamp pod with
    | Some _ => checks c rest
    | None =>
        match CallUrlOnPod c pod "8443" "/healthz" with
        | Err _ =>
            ReturnsError
              ("failed to call healthz endpoint. "
               +:+ errComponentInfo podLabel +:+ ", pod: " +:+ dquote
               +:+ pod_Name pod +:+ dquote)
        | Ok NotAnObject =>
            ReturnsError
              ("failed to parse response from healthz endpoint. "
               +:+ errComponentInfo podLabel +:+ ", pod: " +:+ dquote
               +:+ pod_Name pod +:+ dquote)
        | Ok (Object fields) =>
            match fields !! version_key with
            | Some (JString observed) =>
                if cmp target observed then checks c rest
                else
                  ReturnsError
                    ("resource & config versions (" +:+ target
                     +:+ " and " +:+ observed
                     +:+ " respectively) are not as expected. "
                     +:+ (errComponentInfo podLabel +:+ ", pod: " +:+ dquote
                          +:+ pod_Name pod +:+ dquote) +:+ " ")
            | _ => Panics
            end
        end
    end.
Proof.
  cbn [check_pods].
  destruct (DeletionTimestamp pod); [done|].
  destruct (CallUrlOnPod c pod "8443" "/healthz") as [[|fields]|e]; try done.
  simpl. unfold version_key.
  destruct (fields !! "config-resource-version") as [[observed|]|]; try done.
  by destruct (cmp target observed).
Qed.

Lemma check_pods_nil_iff c pods :
  checks c pods = ReturnsNil
  <-> forall pod, pod ∈ pods -> live pod -> passes cmp target c pod.
Proof.
  induction pods as [|pod rest IH].
  - split; [|done]. intros _ pod Hpod. by apply elem_of_nil in Hpod.
  - rewrite check_pods_cons. unfold live, passes in *.
    destruct (DeletionTimestamp pod) as [ts|] eqn:Hdel.
    + rewrite IH. split.
      * intros Hrest p [->|Hp]%elem_of_cons Hlive; [congruence|].
        by apply Hrest.
      * intros Hall p Hp. apply Hall. by right.
    + destruct (CallUrlOnPod c pod "8443" "/healthz") as [[|fields]|e]
        eqn:Hcall.
      * split; [done|]. intros Hall.
        destruct (Hall pod ltac:(left) Hdel) as (? & ? & ? & _). congruence.
      * destruct (fields !! version_key) as [[observed|]|] eqn:Hkey.
        -- destruct (cmp target observed) eqn:Hcmp.
           ++ rewrite IH. split.
              ** intros Hrest p [->|Hp]%elem_of_cons Hlive;
                   [by exists fields, observed|by apply Hrest].
              ** intros Hall p Hp. apply Hall. by right.
           ++ split; [done|]. intros Hall.
              destruct (Hall pod ltac:(left) Hdel) as (? & ? & ? & ? & ?).
              congruence.
        -- split; [done|]. intros Hall.
           destruct (Hall pod ltac:(left) Hdel) as (? & ? & ? & ? & ?).
           congruence.
        -- split; [done|]. intros Hall.
           destruct (Hall pod ltac:(left) Hdel) as (? & ? & ? & ? & ?).
           congruence.
      * split; [done|]. intros Hall.
        destruct (Hall pod ltac:(left) Hdel) as (? & ? & ? & _). congruence.
Qed.

(** The first live pod that does not pass decides: when it falls short and
    no live pod before it lacks a version, the poll returns an error. *)
Lemma check_pods_falls_short c before pod after :
  (forall p, p ∈ before -> live p -> ~ lacks_version c p) ->
  live pod -> falls_short cmp target c pod ->
  exists msg, checks c (before ++ pod :: after) = ReturnsError msg.
Proof.
  intros Hbefore Hlive Hshort.
  induction before as [|p before IH]; cbn [app]; rewrite check_pods_cons.
  - rewrite Hlive.
    destruct Hshort as [[e ->]|[->|(fields & observed & -> & -> & ->)]];
      by eexists.
  - assert (IH' : exists msg,
                checks c (before ++ pod :: after) = ReturnsError msg).
    { apply IH. intros q Hq. apply Hbefore. by right. }
    destruct (DeletionTimestamp p) as [ts|] eqn:Hdel; [done|].
    destruct (pod_cases c p) as [Hp|[Hp|Hp]].
    + destruct Hp as (fields & observed & -> & -> & ->). done.
    + destruct Hp as [[e ->]|[->|(fields & observed & -> & -> & ->)]];
        by eexists.
    + by destruct (Hbefore p ltac:(left) Hdel).
Qed.

Lemma check_pods_filter_live c pods :
  checks c pods = checks c (filter live pods).
Proof.
  induction pods as [|pod rest IH]; [done|].
  rewrite filter_cons. unfold live at 1. case_decide as Hlive.
  - rewrite !check_pods_cons, Hlive, IH. done.
  - rewrite check_pods_cons. by destruct (DeletionTimestamp pod).
Qed.

Lemma Eventually_converged_iff last attempts :
  eventually last attempts = Converged
  <-> exists before c after,
        attempts = before ++ c :: after
        /\ polls c = ReturnsNil
        /\ forall c', c' ∈ before -> exists msg, polls c' = ReturnsError msg.
Proof.
  revert last. induction attempts as [|c later IH]; intros last; simpl.
  - split; [done|]. intros (before & c & after & Heq & _).
    by destruct before.
  - destruct (polls c) as [|msg|] eqn:Hpoll.
    + split; [|done]. intros _. exists [], c, later.
      split; [done|]. split; [done|]. intros c' Hc'.
      by apply elem_of_nil in Hc'.
    + rewrite IH. split.
      * intros (before & c0 & after & -> & Hnil & Herr).
        exists (c :: before), c0, after. split; [done|]. split; [done|].
        intros c' [->|Hc']%elem_of_cons; [by exists msg|by apply Herr].
      * intros (before & c0 & after & Heq & Hnil & Herr).
        destruct before as [|b before]; simpl in Heq; simplify_eq;
          [congruence|].
        exists before, c0, after. split; [done|]. split; [done|].
        intros c' Hc'. apply Herr. by right.
    + split; [done|]. intros (before & c0 & after & Heq & Hnil & Herr).
      destruct before as [|b before]; simpl in Heq; simplify_eq;
        [congruence|].
      destruct (Herr b ltac:(left)) as [msg Hmsg]. congruence.
Qed.

End WaiterLemmas.

(** X17.  What the waiter guarantees.  A poll returns nil exactly when the pods are
    listed and every listed pod without a deletion timestamp answers the
    health call with a parsable response whose version satisfies the
    comparison; pods marked for deletion do not count.  Hence a pod whose
    health call fails, whose response does not parse or whose version fails
    the comparison keeps the poll from returning nil; the poll then returns
    an error, and the wait goes on with the next poll, when no live pod
    listed before that pod answers with an object that has no string
    version.  The waiter reports convergence exactly when some poll returns
    nil after polls that all returned errors. *)
Theorem waiter_convergence (podLabel target : string) (cmp : compare) :
  (forall c,
      poll podLabel target cmp c = ReturnsNil
      <-> exists pods,
            list_pods c podLabel = Ok pods
            /\ forall pod, pod ∈ pods -> live pod -> passes cmp target c pod)
  /\ (forall c pods pod,
        list_pods c podLabel = Ok pods -> pod ∈ pods -> live pod ->
        falls_short cmp target c pod ->
        poll podLabel target cmp c <> ReturnsNil)
  /\ (forall c before pod after,
        list_pods c podLabel = Ok (before ++ pod :: after) ->
        (forall p, p ∈ before -> live p -> ~ lacks_version c p) ->
        live pod -> falls_short cmp target c pod ->
        exists msg,
          poll podLabel target cmp c = ReturnsError msg
          /\ forall last later,
               Eventually podLabel target cmp last (c :: later)
               = Eventually podLabel target cmp msg later)
  /\ (forall c pods,
        list_pods c podLabel = Ok pods ->
        poll podLabel target cmp c
        = check_pods podLabel target cmp c (filter live pods))
  /\ (forall attempts,
        WaitForConfigToBePropagatedToComponent podLabel target cmp attempts
          = Converged
        <-> exists before c after,
              attempts = before ++ c :: after
              /\ poll podLabel target cmp c = ReturnsNil
              /\ forall c', c' ∈ before ->
                   exists msg, poll podLabel target cmp c' = ReturnsError msg).
Proof.
  assert (Hnil : forall c,
    poll podLabel target cmp c = ReturnsNil
    <-> exists pods,
          list_pods c podLabel = Ok pods
          /\ forall pod, pod ∈ pods -> live pod -> passes cmp target c pod).
  { intros c. unfold poll.
    destruct (list_pods c podLabel) as [pods|e].
    - rewrite check_pods_nil_iff. split; [by exists pods|].
      by intros (pods' & [= <-] & Hall).
    - split; [done|]. by intros (pods & ? & _). }
  split; [exact Hnil|]. split; [|split; [|split]].
  - intros c pods pod Hlist Hpod Hlive Hshort Hpoll.
    apply Hnil in Hpoll as (pods' & Hlist' & Hall).
    rewrite Hlist in Hlist'. injection Hlist' as <-.
    destruct (Hall pod Hpod Hlive) as (fields & observed & Hcall & Hkey & Hc).
    destruct Hshort as [[e He]|[Hno|(fields' & observed' & Hcall' & Hkey' & Hc')]];
      congruence.
  - intros c before pod after Hlist Hbefore Hlive Hshort.
    destruct (check_pods_falls_short podLabel target cmp c before pod after
                Hbefore Hlive Hshort) as [msg Hmsg].
    exists msg.
    assert (Hpoll : poll podLabel target cmp c = ReturnsError msg)
      by (unfold poll; by rewrite Hlist).
    split; [exact Hpoll|]. intros last later. simpl. by rewrite Hpoll.
  - intros c pods Hlist. unfold poll. rewrite Hlist.
    apply check_pods_filter_live.
  - intros attempts. apply Eventually_converged_iff.
Qed.

Lemma waiter_convergence_witness :
  let c := WaitFixture.settled "5" in
  exists msg,
    poll "kubevirt.io=virt-api" "10"
      ExpectResourceVersionToBeLessThanConfigVersion c = ReturnsError msg
    /\ WaitForConfigToBePropagatedToComponent "kubevirt.io=virt-api" "10"
         ExpectResourceVersionToBeLessThanConfigVersion
         [c; WaitFixture.settled "10"] = Converged.
Proof.
  intros c.
  destruct (waiter_convergence "kubevirt.io=virt-api" "10"
              ExpectResourceVersionToBeLessThanConfigVersion)
    as (_ & _ & Hretry & _ & Hwait).
  destruct (Hretry c [] (WaitFixture.podOf "virt-api-a")
              [WaitFixture.podOf "virt-api-b"]) as (msg & Hpoll & _).
  - reflexivity.
  - intros p Hp. by apply elem_of_nil in Hp.
  - reflexivity.
  - right. right.
    exists {[ version_key := JString "5" ]}, "5".
    split; [reflexivity|]. split; vm_compute; reflexivity.
  - exists msg. split; [exact Hpoll|]. apply Hwait.
    exists [c], (WaitFixture.settled "10"), [].
    split; [reflexivity|]. split; [vm_compute; reflexivity|].
    intros c' Hc'. apply list_elem_of_singleton in Hc'. subst c'.
    by exists msg.
Defined.

(** C8.  A failed health call is to make the poll not-yet-converged and
    the wait retry.  With a first pod that answers the empty JSON object and
    a second pod whose health call fails, the unchecked type assertion on
    the first pod's version makes the poll panic instead: no error is
    returned, and the wait ends there although the next poll would have
    found every pod at the target version. *)
Lemma failed_health_call_is_not_retried_after_a_panic :
  let c := WaitFixture.half_broken in
  let pod := WaitFixture.podOf "virt-api-b" in
  list_pods c "kubevirt.io=virt-api"
    = Ok [WaitFixture.podOf "virt-api-a"; pod]
  /\ live pod
  /\ falls_short ExpectResourceVersionToBeLessThanConfigVersion "10" c pod
  /\ poll "kubevirt.io=virt-api" "10"
       ExpectResourceVersionToBeLessThanConfigVersion c = Panics
  /\ WaitForConfigToBePropagatedToComponent "kubevirt.io=virt-api" "10"
       ExpectResourceVersionToBeLessThanConfigVersion
       [c; WaitFixture.settled "10"] = Panicked.
Proof.
  intros c pod. split; [reflexivity|]. split; [reflexivity|].
  split; [left; by eexists|]. split; vm_compute; reflexivity.
Qed.

(* ===================================================================== *)
(** ** Paths of the disk images *)
(* ===================================================================== *)

Lemma split_slash_nonempty s : split_slash s <> [].
Proof.
  destruct s as [|c s]; simpl; [done|].
  destruct (Ascii.eqb c slash); [done|]. by destruct (split_slash s).
Qed.

Lemma split_slash_no_slash s : has_slash s = false -> split_slash s = [s].
Proof.
  induction s as [|c s IH]; simpl; [done|].
  intros [Hc Hs]%orb_false_iff. rewrite Hc, (IH Hs). done.
Qed.

Lemma split_slash_app a b :
  split_slash (a +:+ String slash b) = split_slash a ++ split_slash b.
Proof.
  induction a as [|c a IH]; simpl.
  - done.
  - destruct (Ascii.eqb c slash); rewrite IH; [done|].
    pose proof (split_slash_nonempty a).
    by destruct (split_slash a).
Qed.

Lemma split_slash_elems s e : e ∈ split_slash s -> has_slash e = false.
Proof.
  revert e. induction s as [|c s IH]; intros e; simpl.
  - by intros ->%list_elem_of_singleton.
  - destruct (Ascii.eqb c slash) eqn:Hc.
    + intros [->|He]%elem_of_cons; [done|by apply IH].
    + pose proof (split_slash_nonempty s).
      destruct (split_slash s) as [|h t]; [done|].
      intros [->|He]%elem_of_cons.
      * simpl. rewrite Hc. apply IH. by left.
      * apply IH. by right.
Qed.

Lemma string_app_assoc (a b c : string) :
  (a +:+ b) +:+ c = a +:+ (b +:+ c).
Proof.
  induction a as [|x a IH]; [done|].
  change (String x ((a +:+ b) +:+ c) = String x (a +:+ b +:+ c)).
  by rewrite IH.
Qed.

Lemma join_slash_snoc l d :
  l <> [] -> join_slash (l ++ [d]) = join_slash l +:+ String slash d.
Proof.
  induction l as [|x l IH]; [done|]. intros _.
  destruct l as [|y l]; [done|].
  change (join_slash ((x :: y :: l) ++ [d]))
    with (x +:+ "/" +:+ join_slash ((y :: l) ++ [d])).
  rewrite IH by done.
  change (join_slash (x :: y :: l)) with (x +:+ "/" +:+ join_slash (y :: l)).
  by rewrite !string_app_assoc.
Qed.

Lemma split_join_slash l :
  l <> [] -> Forall (fun e => has_slash e = false) l ->
  split_slash (join_slash l) = l.
Proof.
  induction l as [|x l IH] using rev_ind; [done|]. intros _ Hall.
  apply Forall_app in Hall as [Hl Hx]. apply Forall_inv in Hx.
  destruct l as [|y l]; [simpl; by apply split_slash_no_slash|].
  rewrite join_slash_snoc by done. rewrite split_slash_app.
  rewrite IH by done. by rewrite (split_slash_no_slash x).
Qed.

Lemma clean_step_plain rooted out e :
  plain e -> clean_step rooted out e = e :: out.
Proof.
  intros (_ & H1 & H2 & H3). unfold clean_step.
  destruct (String.eqb_spec e ""); [done|].
  destruct (String.eqb_spec e "."); [done|].
  by destruct (String.eqb_spec e "..").
Qed.

Lemma clean_step_no_slash rooted out e :
  has_slash e = false ->
  Forall (fun x => has_slash x = false) out ->
  Forall (fun x => has_slash x = false) (clean_step rooted out e).
Proof.
  intros He Hout. unfold clean_step.
  repeat case_match; subst; try done; try (by constructor).
  by apply Forall_cons in Hout as [_ ?].
Qed.

Lemma clean_fold_no_slash rooted l out :
  Forall (fun x => has_slash x = false) l ->
  Forall (fun x => has_slash x = false) out ->
  Forall (fun x => has_slash x = false) (fold_left (clean_step rooted) l out).
Proof.
  revert out. induction l as [|e l IH]; intros out Hl Hout; simpl; [done|].
  apply Forall_cons in Hl as [He Hl].
  apply IH; [done|]. by apply clean_step_no_slash.
Qed.

Lemma clean_fold_plain rooted l out :
  Forall plain l -> fold_left (clean_step rooted) l out = rev l ++ out.
Proof.
  revert out. induction l as [|e l IH]; intros out Hl; simpl; [done|].
  apply Forall_cons in Hl as [He Hl].
  rewrite clean_step_plain by done. rewrite IH by done.
  by rewrite <- app_assoc.
Qed.

(** A path whose last element is plain keeps it through [path.Clean], and
    [filepath.Base] finds it again. *)
Lemma Base_Clean_last xs d :
  plain d ->
  filepath_Base (path_Clean (join_slash (xs ++ [d]))) = d.
Proof.
  intros Hd. pose proof Hd as (Hns & Hne & _ & _).
  remember (join_slash (xs ++ [d])) as p eqn:Hpeq.
  assert (Hsplit : exists comps, split_slash p = comps ++ [d]).
  { subst p. destruct xs as [|x xs].
    - exists []. by apply split_slash_no_slash.
    - rewrite join_slash_snoc by done. rewrite split_slash_app.
      rewrite (split_slash_no_slash d) by done. by eexists. }
  destruct Hsplit as [comps Hsplit]. clear Hpeq.
  destruct p as [|c rest].
  { destruct comps as [|c [|c' comps]]; simpl in Hsplit; simplify_eq; done. }
  unfold path_Clean. rewrite Hsplit.
  set (rooted := Ascii.eqb c slash).
  rewrite fold_left_app. cbn [fold_left]. rewrite clean_step_plain by done.
  set (out := fold_left (clean_step rooted) comps []).
  assert (Hout : Forall (fun x => has_slash x = false) out).
  { apply clean_fold_no_slash; [|done].
    apply Forall_forall. intros e He.
    apply (split_slash_elems (String c rest)).
    rewrite Hsplit. apply elem_of_app. by left. }
  cbn [rev]. set (l := rev out ++ [d]).
  assert (Hl : Forall (fun x => has_slash x = false) l).
  { apply Forall_app. split; [by apply Forall_rev|by apply Forall_singleton]. }
  assert (Hlne : l <> []) by (subst l; by destruct (rev out)).
  assert (Hbody : split_slash (join_slash l) = l) by by apply split_join_slash.
  assert (Hbne : join_slash l <> "").
  { intros Hb. rewrite Hb in Hbody. simpl in Hbody. subst l.
    destruct (rev out) as [|r [|r' rs]]; simpl in Hbody; simplify_eq; done. }
  assert (Hbase : forall q, q <> "" ->
            (split_slash q = l \/ split_slash q = "" :: l) ->
            filepath_Base q = d).
  { intros q Hq Hsq. unfold filepath_Base. destruct q as [|qc qr]; [done|].
    assert (Hrev : exists pre, rev (split_slash (String qc qr)) = d :: pre).
    { destruct Hsq as [-> | ->]; subst l.
      - rewrite rev_app_distr. simpl. by eexists.
      - change ("" :: rev out ++ [d]) with (("" :: rev out) ++ [d]).
        rewrite rev_app_distr. simpl. by eexists. }
    destruct Hrev as [pre ->]. rewrite filter_cons.
    by rewrite decide_True. }
  destruct rooted.
  - apply Hbase; [done|]. right.
    change ("/" +:+ join_slash l) with (String slash (join_slash l)).
    simpl. by rewrite Hbody.
  - destruct (String.eqb_spec (join_slash l) ""); [done|].
    apply Hbase; [done|by left].
Qed.

Lemma path_Join_last b n d :
  d <> "" ->
  exists xs, path_Join [b; n; d] = path_Clean (join_slash (xs ++ [d])).
Proof.
  intros Hd. simpl.
  destruct (String.eqb_spec b ""); [|by exists [b; n]].
  destruct (String.eqb_spec n ""); [|by exists [n]].
  destruct (String.eqb_spec d ""); [done|]. by exists [].
Qed.

Section ImagePaths.

Context (E : Env).

Lemma GetMountedHostDiskPath_of_image_path_aux (volumeName : string) :
  filepath_Base (getPVCDiskImgPath E volumeName "disk.img") = "disk.img"
  /\ GetMountedHostDiskPath E volumeName
       (getPVCDiskImgPath E volumeName "disk.img")
     = getPVCDiskImgPath E volumeName "disk.img"
  /\ getPVCDiskImgPath E volumeName "disk.img" <> "".
Proof.
  assert (Hd : plain "disk.img") by (repeat split; discriminate).
  assert (Hbase :
    filepath_Base (getPVCDiskImgPath E volumeName "disk.img") = "disk.img").
  { unfold getPVCDiskImgPath.
    destruct (path_Join_last (pvcBaseDir E) volumeName "disk.img"
                ltac:(discriminate)) as [xs ->].
    by apply Base_Clean_last. }
  split; [exact Hbase|]. split.
  - unfold GetMountedHostDiskPath. by rewrite Hbase.
  - intros Hempty. rewrite Hempty in Hbase. discriminate.
Qed.

(** X1.  The image path keeps its file name: for a plain [diskName] (no
    slash, not empty, not "." or ".."), whatever the base directory and the
    volume name, [filepath.Base] of [getPVCDiskImgPath] is [diskName], so
    [GetMountedHostDiskPath] maps the path back to itself.  The rewriter
    (which writes [getPVCDiskImgPath name "disk.img"] into the HostDisk) and
    the materialiser (which goes through [GetMountedHostDiskPath]) therefore
    use the same file. *)
Theorem GetMountedHostDiskPath_of_image_path
    (volumeName diskName : string) :
  plain diskName ->
  filepath_Base (getPVCDiskImgPath E volumeName diskName) = diskName
  /\ GetMountedHostDiskPath E volumeName
       (getPVCDiskImgPath E volumeName diskName)
     = getPVCDiskImgPath E volumeName diskName
  /\ getPVCDiskImgPath E volumeName diskName <> "".
Proof.
  intros Hd. pose proof Hd as (_ & Hne & _ & _).
  assert (Hbase :
    filepath_Base (getPVCDiskImgPath E volumeName diskName) = diskName).
  { unfold getPVCDiskImgPath.
    destruct (path_Join_last (pvcBaseDir E) volumeName diskName Hne)
      as [xs ->].
    by apply Base_Clean_last. }
  split; [exact Hbase|]. split.
  - unfold GetMountedHostDiskPath. by rewrite Hbase.
  - intros Hempty. rewrite Hempty in Hbase. simpl in Hbase.
    destruct Hd as (_ & _ & Hdot & _). congruence.
Qed.

End ImagePaths.

Lemma plain_disk_img : plain "disk.img".
Proof. repeat split; discriminate. Qed.

Lemma GetMountedHostDiskPath_of_image_path_witness :
  GetMountedHostDiskPath (Fixture.quiet Fixture.roomy) "volume1"
    "/tmp/host-disk-images/volume1/disk.img"
  = "/tmp/host-disk-images/volume1/disk.img".
Proof.
  apply (proj1 (proj2 (GetMountedHostDiskPath_of_image_path
                         (Fixture.quiet Fixture.roomy) "volume1" "disk.img"
                         ltac:(repeat split; discriminate)))).
Defined.

Lemma plain_no_slash l :
  Forall plain l -> Forall (fun e => has_slash e = false) l.
Proof. intros H. eapply Forall_impl; [exact H|]. by intros e (? & _). Qed.

(** [path.Clean] leaves a clean rooted path alone, and takes a trailing
    slash off it. *)
Lemma path_Clean_clean_rooted l :
  l <> [] -> Forall plain l ->
  path_Clean (String slash (join_slash l)) = String slash (join_slash l)
  /\ path_Clean (String slash (join_slash l) +:+ "/")
     = String slash (join_slash l).
Proof.
  intros Hne Hl.
  assert (Hfold : fold_left (clean_step true) l [] = rev l).
  { rewrite clean_fold_plain by done. by rewrite app_nil_r. }
  split.
  - unfold path_Clean.
    change (Ascii.eqb slash slash) with true. cbv iota.
    change (split_slash (String slash (join_slash l)))
      with ("" :: split_slash (join_slash l)).
    rewrite split_join_slash by (done || by apply plain_no_slash).
    cbn [fold_left]. change (clean_step true [] "") with (@nil string).
    by rewrite Hfold, rev_involutive.
  - change (String slash (join_slash l) +:+ "/")
      with (String slash (join_slash l +:+ String slash "")).
    unfold path_Clean.
    change (Ascii.eqb slash slash) with true. cbv iota.
    change (split_slash (String slash (join_slash l +:+ String slash "")))
      with ("" :: split_slash (join_slash l +:+ String slash "")).
    rewrite split_slash_app.
    rewrite split_join_slash by (done || by apply plain_no_slash).
    cbn [fold_left]. change (clean_step true [] "") with (@nil string).
    rewrite fold_left_app, Hfold. cbn [fold_left split_slash].
    change (clean_step true (rev l) "") with (rev l).
    by rewrite rev_involutive.
Qed.

Section ImageLayout.

Context (E : Env).

(** [path.Join] on a clean rooted base and plain elements is plain
    concatenation with slashes. *)
Lemma getPVCDiskImgPath_clean (volumeName diskName : string) :
  clean_rooted (pvcBaseDir E) -> plain volumeName -> plain diskName ->
  getPVCDiskImgPath E volumeName diskName
    = pvcBaseDir E +:+ "/" +:+ volumeName +:+ "/" +:+ diskName
  /\ GetMountedHostDiskDir E volumeName
     = pvcBaseDir E +:+ "/" +:+ volumeName.
Proof.
  intros (comps & Hne & Hcomps & Hbase) Hn Hd.
  unfold GetMountedHostDiskDir, getPVCDiskImgPath. rewrite Hbase.
  assert (Hnonempty : forall s, (String.eqb (String slash s) "") = false)
    by done.
  split.
  - cbn [path_Join]. change ("/" +:+ join_slash comps)
      with (String slash (join_slash comps)).
    rewrite Hnonempty.
    assert (Hjoin :
      join_slash [String slash (join_slash comps); volumeName; diskName]
      = String slash (join_slash ((comps ++ [volumeName]) ++ [diskName]))).
    { rewrite !join_slash_snoc by (done || by destruct comps).
      cbn [join_slash]. rewrite !string_app_assoc. done. }
    rewrite Hjoin.
    destruct (path_Clean_clean_rooted ((comps ++ [volumeName]) ++ [diskName]))
      as [Hclean _].
    + by destruct comps.
    + rewrite !Forall_app. repeat split; try done; by apply Forall_singleton.
    + rewrite Hclean.
      rewrite !join_slash_snoc by (done || by destruct comps).
      by rewrite !string_app_assoc.
  - cbn [path_Join]. change ("/" +:+ join_slash comps)
      with (String slash (join_slash comps)).
    rewrite Hnonempty.
    assert (Hjoin :
      join_slash [String slash (join_slash comps); volumeName; ""]
      = String slash (join_slash (comps ++ [volumeName])) +:+ "/").
    { rewrite !join_slash_snoc by (done || by destruct comps).
      change (String slash (join_slash comps
                            +:+ String slash (volumeName +:+ "/"))
              = String slash ((join_slash comps +:+ String slash volumeName)
                              +:+ "/")).
      by rewrite string_app_assoc. }
    rewrite Hjoin.
    destruct (path_Clean_clean_rooted (comps ++ [volumeName])) as [_ Hclean].
    + by destruct comps.
    + rewrite !Forall_app. repeat split; try done; by apply Forall_singleton.
    + rewrite Hclean.
      by rewrite !join_slash_snoc by (done || by destruct comps).
Qed.

(** X2.  Layout of the images.  When the base directory is a clean rooted
    path and the volume name is a plain path element, the image of the
    volume is [<pvcBaseDir>/<volumeName>/disk.img] and its directory is
    [<pvcBaseDir>/<volumeName>], character for character. *)
Theorem image_path_layout (volumeName diskName : string) :
  clean_rooted (pvcBaseDir E) -> plain volumeName -> plain diskName ->
  getPVCDiskImgPath E volumeName diskName
    = pvcBaseDir E +:+ "/" +:+ volumeName +:+ "/" +:+ diskName
  /\ GetMountedHostDiskDir E volumeName
     = pvcBaseDir E +:+ "/" +:+ volumeName.
Proof. apply getPVCDiskImgPath_clean. Qed.

(** X3.  One image per volume name.  Under the same conditions, two volumes
    share their image path, or their image directory, only if they have the
    same name. *)
Theorem image_path_injective (name1 name2 diskName : string) :
  clean_rooted (pvcBaseDir E) -> plain name1 -> plain name2 ->
  plain diskName ->
  (getPVCDiskImgPath E name1 diskName = getPVCDiskImgPath E name2 diskName
   -> name1 = name2)
  /\ (GetMountedHostDiskDir E name1 = GetMountedHostDiskDir E name2
      -> name1 = name2).
Proof.
  intros Hbase H1 H2 Hd.
  destruct (getPVCDiskImgPath_clean name1 diskName Hbase H1 Hd) as [Hp1 Hd1].
  destruct (getPVCDiskImgPath_clean name2 diskName Hbase H2 Hd) as [Hp2 Hd2].
  rewrite Hp1, Hp2, Hd1, Hd2.
  assert (Hsplit : forall n, plain n ->
            split_slash (n +:+ String slash diskName) = [n; diskName]).
  { intros n Hn. rewrite split_slash_app.
    rewrite (split_slash_no_slash n), (split_slash_no_slash diskName);
      [done|by destruct Hd|by destruct Hn]. }
  split; intros Heq; apply (inj (String.append (pvcBaseDir E))) in Heq.
  - change (String slash (name1 +:+ String slash diskName)
            = String slash (name2 +:+ String slash diskName)) in Heq.
    injection Heq as Heq.
    pose proof (Hsplit name1 H1) as Hs1. rewrite Heq, (Hsplit name2 H2) in Hs1.
    by injection Hs1.
  - change (String slash name1 = String slash name2) in Heq.
    by injection Heq.
Qed.

(** X4.  What the rewriter writes, the materialiser picks up.  The HostDisk
    volume written in place of a claim is one [Create] materialises, and the
    file [Create] checks, allocates and owns for it is the very file whose
    ownership the rewriter has set. *)
Theorem rewritten_volume_is_materialised
    (volume : Volume) (info : PersistentVolumeClaimInfo) :
  let volume' := hostDiskVolume E volume info in
  shouldMountHostDisk (vs_HostDisk (Source volume')) = true
  /\ mounted_targets E [volume']
     = [getPVCDiskImgPath E (Name volume) "disk.img"]
  /\ forall before after,
       mounted_targets E (before ++ volume' :: after)
       = mounted_targets E before
         ++ getPVCDiskImgPath E (Name volume) "disk.img"
         :: mounted_targets E after.
Proof.
  intros volume'.
  destruct (GetMountedHostDiskPath_of_image_path_aux E (Name volume))
    as (Hbase & Hround & Hne).
  assert (Hshould : shouldMountHostDisk (vs_HostDisk (Source volume')) = true).
  { simpl.
    by destruct (String.eqb_spec (getPVCDiskImgPath E (Name volume) "disk.img")
                   ""). }
  assert (Hone : mounted_targets E [volume']
                 = [getPVCDiskImgPath E (Name volume) "disk.img"]).
  { set (hd := {| Path := getPVCDiskImgPath E (Name volume) "disk.img";
                  Type_ := HostDiskExistsOrCreate;
                  Capacity :=
                    default 0 (info_Capacity info !! ResourceStorage);
                  Shared := Some (HasSharedAccessMode E (AccessModes info)) |}).
    assert (Hhd : vs_HostDisk (Source volume') = Some hd) by reflexivity.
    rewrite mounted_targets_cons. rewrite Hhd in Hshould |- *.
    rewrite Hshould.
    change (GetMountedHostDiskPath E (Name volume') (Path hd))
      with (GetMountedHostDiskPath E (Name volume)
              (getPVCDiskImgPath E (Name volume) "disk.img")).
    by rewrite Hround. }
  split; [done|]. split; [done|].
  intros before after. unfold mounted_targets in *.
  rewrite omap_app. f_equal.
  change (volume' :: after) with ([volume'] ++ after).
  rewrite omap_app. by rewrite Hone.
Qed.

End ImageLayout.

Lemma image_path_layout_witness :
  let E := Fixture.quiet Fixture.roomy in
  getPVCDiskImgPath E "volume1" "disk.img"
    = pvcBaseDir E +:+ "/" +:+ "volume1" +:+ "/" +:+ "disk.img"
  /\ GetMountedHostDiskDir E "volume1" = pvcBaseDir E +:+ "/" +:+ "volume1".
Proof.
  intros E. apply (image_path_layout E "volume1" "disk.img").
  - exists ["tmp"; "host-disk-images"]. split; [discriminate|].
    split; [|reflexivity].
    repeat constructor; discriminate.
  - repeat split; discriminate.
  - repeat split; discriminate.
Defined.

Lemma image_path_injective_witness :
  let E := Fixture.quiet Fixture.roomy in
  getPVCDiskImgPath E "volume1" "disk.img"
  <> getPVCDiskImgPath E "volume2" "disk.img".
Proof.
  intros E Heq.
  apply (proj1 (image_path_injective E "volume1" "volume2" "disk.img"
    ltac:(exists ["tmp"; "host-disk-images"]; split; [discriminate|];
          split; [repeat constructor; discriminate|reflexivity])
    ltac:(repeat split; discriminate)
    ltac:(repeat split; discriminate)
    ltac:(repeat split; discriminate))) in Heq.
  discriminate Heq.
Defined.

(* ===================================================================== *)
(** ** More on [Create] *)
(* ===================================================================== *)

Lemma settles_refl w : settles w w.
Proof. intros p f Hp. by left. Qed.

Lemma settles_trans w1 w2 w3 :
  settles w1 w2 -> settles w2 w3 -> settles w1 w3.
Proof.
  intros H12 H23 p f Hp.
  destruct (H12 p f Hp) as [Hp2|Hp2];
    destruct (H23 p _ Hp2) as [Hp3|Hp3]; auto.
Qed.

Lemma settles_eq w w' : files w' = files w -> settles w w'.
Proof. intros Heq p f Hp. left. by rewrite Heq. Qed.

Lemma settles_keeps w w' : settles w w' -> keeps_files w w'.
Proof.
  intros Hs p f Hp. destruct (Hs p f Hp) as [Hp'|Hp']; eexists;
    (split; [exact Hp'|by split]).
Qed.

Lemma settles_owned w w' p :
  settles w w' -> owned_by_qemu w p -> owned_by_qemu w' p.
Proof.
  intros Hs (f & Hf & Ho). destruct (Hs p f Hf) as [Hp'|Hp'];
    eexists; (split; [exact Hp'|done]).
Qed.

Section MoreOnCreate.

Context (E : Env) (hdc : DiskImgCreator) (vmi : VirtualMachineInstance).

Lemma SetFileOwnership_settles path w r w' :
  SetFileOwnership E path w = (r, w') -> settles w w'.
Proof.
  intros Hrun p f Hp.
  destruct (SetFileOwnership_files _ _ _ _ _ Hrun) as [_ Hall].
  destruct (Hall p) as [Heq | (-> & _ & f0 & Hf0 & Hf')].
  - left. by rewrite Heq.
  - right. simplify_eq. done.
Qed.

Lemma createSparseRaw_settles path size w r w' :
  files w !! path = None ->
  createSparseRaw E path size w = (r, w') -> settles w w'.
Proof.
  intros Hnone Hrun p f Hp. left.
  destruct (createSparseRaw_files _ _ _ _ _ _ Hrun) as [Hother _].
  rewrite Hother; [done|]. intros ->. congruence.
Qed.

Lemma mount_settles volumeName hostDisk w r w' :
  mountHostDiskAndSetOwnership E hdc vmi volumeName hostDisk w = (r, w') ->
  settles w w'.
Proof.
  unfold mountHostDiskAndSetOwnership, bind. rewrite FileExists_run.
  set (diskPath := GetMountedHostDiskPath E volumeName (Path hostDisk)).
  destruct (stat_fault E w diskPath);
    [intros [= <- <-]; by apply settles_eq|].
  intros Hrun.
  destruct (files w !! diskPath) as [f|] eqn:Hf.
  - rewrite bool_decide_eq_true_2 in Hrun by eauto. simpl in Hrun.
    eapply settles_trans; [|by eapply SetFileOwnership_settles].
    by apply settles_eq.
  - rewrite bool_decide_eq_false_2 in Hrun by (intros [? ?]; congruence).
    simpl in Hrun.
    unfold handleRequestedSizeAndCreateSparseRaw, bind, probe, ret in Hrun.
    set (w1 := record_op (OpStat diskPath) w) in *.
    destruct (dirBytesAvailableFunc hdc w1 _ _) as [size|e];
      [|simplify_eq; by apply settles_eq].
    set (w2 := record_op _ w1) in *.
    assert (H2 : files w2 !! diskPath = None) by done.
    assert (Hfinish : forall sz w3,
      files w3 = files w ->
      (let (r0, w4) := createSparseRaw E diskPath sz w3 in
       match r0 with
       | Ok _ => SetFileOwnership E diskPath w4
       | Err e => (Err e, w4)
       end) = (r, w') -> settles w w').
    { intros sz w3 H3 Hfin.
      destruct (createSparseRaw E diskPath sz w3) as [[[]|e] w4] eqn:Hc;
        apply createSparseRaw_settles in Hc; try (by rewrite H3).
      - eapply settles_trans; [|by eapply SetFileOwnership_settles].
        eapply settles_trans; [|done]. by apply settles_eq.
      - simplify_eq. eapply settles_trans; [|done]. by apply settles_eq. }
    destruct (_ >? _).
    + rewrite shrinkRequestedSize_run in Hrun.
      destruct (_ >? _); [simplify_eq; by apply settles_eq|].
      cbv beta iota in Hrun. eapply Hfinish; [|exact Hrun]. done.
    + cbv beta iota in Hrun. eapply Hfinish; [|exact Hrun]. done.
Qed.

Lemma create_volumes_settles vols w r w' :
  create_volumes E hdc vmi vols w = (r, w') -> settles w w'.
Proof.
  revert w. induction vols as [|v vols IH]; intros w; cbn [create_volumes].
  - intros [= <- <-]. apply settles_refl.
  - destruct (vs_HostDisk (Source v)) as [hd|]; [|by apply IH].
    destruct (shouldMountHostDisk (Some hd)); [|by apply IH].
    unfold bind.
    destruct (mountHostDiskAndSetOwnership _ _ _ _ _ _) as [[[]|e] w1] eqn:Hm;
      apply mount_settles in Hm.
    + intros Hrun. eapply settles_trans; [done|by eapply IH].
    + by intros [= <- <-].
Qed.

(** The run of a volume whose image is there: the existence check and, if
    that goes through, the change of owner. *)
Lemma mount_existing_run volumeName hostDisk w f :
  let diskPath := GetMountedHostDiskPath E volumeName (Path hostDisk) in
  files w !! diskPath = Some f ->
  mountHostDiskAndSetOwnership E hdc vmi volumeName hostDisk w =
    match stat_fault E w diskPath with
    | Some msg => (Err (ErrOS msg), record_op (OpStat diskPath) w)
    | None => SetFileOwnership E diskPath (record_op (OpStat diskPath) w)
    end.
Proof.
  intros diskPath Hf. unfold mountHostDiskAndSetOwnership, bind.
  rewrite FileExists_run. fold diskPath.
  destruct (stat_fault E w diskPath); [done|].
  rewrite bool_decide_eq_true_2 by eauto. done.
Qed.

(** X5.  Nothing to materialise, nothing done.  When no volume of the
    instance has a HostDisk of type ExistsOrCreate with a non-empty path
    (no HostDisk at all, type "Disk", an unknown type, or an empty path),
    [Create] returns nil and makes no call at all: the world is as it
    was. *)
Theorem Create_nothing_to_mount (w : World) :
  (forall v, v ∈ Spec_Volumes vmi ->
             shouldMountHostDisk (vs_HostDisk (Source v)) = false) ->
  Create E hdc vmi w = (Ok tt, w).
Proof.
  unfold Create. induction (Spec_Volumes vmi) as [|v vols IH]; [done|].
  intros Hall. cbn [create_volumes].
  pose proof (Hall v ltac:(left)) as Hv.
  destruct (vs_HostDisk (Source v)) as [hd|].
  - rewrite Hv. apply IH. intros v' Hv'. apply Hall. by right.
  - apply IH. intros v' Hv'. apply Hall. by right.
Qed.

(** X6.  Every error of [Create] is the error of one volume: when [Create]
    returns an error, the volumes before some volume were gone through
    without error, that volume is one [Create] materialises, and the error
    and the final world are those of its materialisation. *)
Theorem Create_error_origin (w w' : World) (e : error) :
  Create E hdc vmi w = (Err e, w') ->
  exists before volume hostDisk after w1,
    Spec_Volumes vmi = before ++ volume :: after
    /\ create_volumes E hdc vmi before w = (Ok tt, w1)
    /\ vs_HostDisk (Source volume) = Some hostDisk
    /\ shouldMountHostDisk (Some hostDisk) = true
    /\ mountHostDiskAndSetOwnership E hdc vmi (Name volume) hostDisk w1
       = (Err e, w').
Proof.
  unfold Create. revert w.
  induction (Spec_Volumes vmi) as [|v vols IH]; intros w; [done|].
  cbn [create_volumes].
  assert (Hskip :
    (forall hd, vs_HostDisk (Source v) = Some hd ->
                shouldMountHostDisk (Some hd) = false) ->
    create_volumes E hdc vmi vols w = (Err e, w') ->
    exists before volume hostDisk after w1,
      v :: vols = before ++ volume :: after
      /\ create_volumes E hdc vmi before w = (Ok tt, w1)
      /\ vs_HostDisk (Source volume) = Some hostDisk
      /\ shouldMountHostDisk (Some hostDisk) = true
      /\ mountHostDiskAndSetOwnership E hdc vmi (Name volume) hostDisk w1
         = (Err e, w')).
  { intros Hno Hrun.
    destruct (IH _ Hrun) as (before & volume & hd & after & w1
                             & -> & Hb & Hhd & Hs & Hm).
    exists (v :: before), volume, hd, after, w1.
    split; [done|]. split; [|done]. cbn [create_volumes].
    destruct (vs_HostDisk (Source v)) as [hd0|]; [|done].
    by rewrite (Hno hd0 eq_refl). }
  destruct (vs_HostDisk (Source v)) as [hd|] eqn:Hhd;
    [|apply Hskip; intros; discriminate].
  destruct (shouldMountHostDisk (Some hd)) eqn:Hshould;
    [|apply Hskip; by intros ? [= <-]].
  unfold bind.
  destruct (mountHostDiskAndSetOwnership _ _ _ _ _ _) as [[[]|e0] w1] eqn:Hm.
  - intros Hrun.
    destruct (IH _ Hrun) as (before & volume & hd' & after & w2
                             & -> & Hb & Hhd' & Hs & Hm').
    exists (v :: before), volume, hd', after, w2.
    split; [done|]. split; [|done]. cbn [create_volumes].
    rewrite Hhd, Hshould. unfold bind. by rewrite Hm.
  - intros [= <- <-]. exists [], v, hd, vols, w. done.
Qed.

Lemma create_volumes_ok_owned vols w w' :
  create_volumes E hdc vmi vols w = (Ok tt, w') ->
  forall p, p ∈ mounted_targets E vols -> owned_by_qemu w' p.
Proof.
  revert w.
  induction vols as [|v vols IH]; intros w;
    [intros _ p Hp; by apply elem_of_nil in Hp|].
  rewrite mounted_targets_cons. cbn [create_volumes].
  destruct (vs_HostDisk (Source v)) as [hd|]; [|by apply IH].
  destruct (shouldMountHostDisk (Some hd)); [|by apply IH].
  unfold bind.
  destruct (mountHostDiskAndSetOwnership _ _ _ _ _ _) as [[[]|e] w1] eqn:Hm;
    [|done].
  intros Hrun p [->|Hp]%elem_of_cons; [|by eapply IH].
  eapply settles_owned; [by eapply create_volumes_settles|].
  revert Hm. unfold mountHostDiskAndSetOwnership, bind.
  destruct (FileExists _ _ _) as [[b|e] w2]; [|done].
  destruct (negb b).
  - destruct (handleRequestedSizeAndCreateSparseRaw _ _ _ _ _ _ _)
      as [[[]|e] w3]; [|done].
    intros (f & _ & Hf)%SetFileOwnership_ok. by eexists.
  - simpl. intros (f & _ & Hf)%SetFileOwnership_ok. by eexists.
Qed.

(** X7.  After a [Create] that returned nil, the image of every volume it
    materialises exists and belongs to qemu. *)
Theorem Create_ok_images_owned (w w' : World) :
  Create E hdc vmi w = (Ok tt, w') ->
  forall p, p ∈ mounted_targets E (Spec_Volumes vmi) -> owned_by_qemu w' p.
Proof. apply create_volumes_ok_owned. Qed.

Lemma create_volumes_present vols w r w' :
  (forall p, p ∈ mounted_targets E vols -> is_Some (files w !! p)) ->
  create_volumes E hdc vmi vols w = (r, w') ->
  (exists ops, trace w' = trace w ++ ops /\ Forall housekeeping ops)
  /\ ((forall w0 p, stat_fault E w0 p = None /\ chown_fault E w0 p = None) ->
      r = Ok tt).
Proof.
  revert w. induction vols as [|v vols IH]; intros w.
  { intros _ [= <- <-]. split; [|done]. exists []. by rewrite app_nil_r. }
  rewrite mounted_targets_cons. cbn [create_volumes].
  destruct (vs_HostDisk (Source v)) as [hd|]; [|by apply IH].
  destruct (shouldMountHostDisk (Some hd)); [|by apply IH].
  intros Hpresent.
  destruct (Hpresent _ ltac:(left)) as [f Hf].
  unfold bind. rewrite (mount_existing_run _ _ _ _ Hf).
  set (p := GetMountedHostDiskPath E (Name v) (Path hd)) in *.
  destruct (stat_fault E w p) as [msg|] eqn:Hstat.
  { intros [= <- <-]. split.
    - exists [OpStat p]. split; [done|]. repeat constructor. by exists p; left.
    - intros Hnf. destruct (Hnf w p). congruence. }
  destruct (SetFileOwnership E p (record_op (OpStat p) w)) as [[[]|e] w1]
    eqn:Hown.
  - intros Hrun.
    pose proof (SetFileOwnership_keeps _ _ _ _ _ Hown) as Hkeep.
    destruct (SetFileOwnership_files _ _ _ _ _ Hown) as [Htr _].
    destruct (IH w1) with (2 := Hrun) as [(ops & Hops & Hall) Hok].
    { intros q Hq. destruct (Hpresent q ltac:(by right)) as [fq Hfq].
      destruct (Hkeep q fq Hfq) as (fq' & Hfq' & _). eauto. }
    split; [|done].
    exists ([OpStat p; OpChown p] ++ ops). split.
    + rewrite Hops, Htr. simpl. by rewrite <- !app_assoc.
    + apply Forall_app. split; [|done].
      repeat constructor; exists p; auto.
  - intros [= <- <-].
    destruct (SetFileOwnership_files _ _ _ _ _ Hown) as [Htr _].
    split.
    + exists [OpStat p; OpChown p]. split.
      * rewrite Htr. simpl. by rewrite <- app_assoc.
      * repeat constructor; exists p; auto.
    + intros Hnf. exfalso. revert Hown. unfold SetFileOwnership.
      simpl. rewrite Hf. destruct (Hnf (record_op (OpStat p) w) p) as [_ ->].
      done.
Qed.

(** X8.  A second [Create] after one that returned nil allocates nothing:
    its calls are existence checks and changes of owner only (no probe, no
    event, no create, no write), every file keeps its length and its
    modification time, and it returns nil when no existence check and no
    change of owner fails. *)
Theorem Create_again (w w1 w2 : World) (r : res unit) :
  Create E hdc vmi w = (Ok tt, w1) ->
  Create E hdc vmi w1 = (r, w2) ->
  (exists ops, trace w2 = trace w1 ++ ops /\ Forall housekeeping ops)
  /\ keeps_files w1 w2
  /\ ((forall w0 p, stat_fault E w0 p = None /\ chown_fault E w0 p = None) ->
      r = Ok tt).
Proof.
  intros Hfirst Hsecond.
  pose proof (create_volumes_ok_exists _ _ _ _ _ _ Hfirst) as Hpresent.
  destruct (create_volumes_present _ _ _ _ Hpresent Hsecond) as [Hops Hok].
  split; [done|]. split; [|done]. by eapply create_volumes_keeps.
Qed.

End MoreOnCreate.

Lemma Create_nothing_to_mount_witness :
  let E := Fixture.quiet Fixture.roomy in
  let hdc := NewHostDiskCreator E Fixture.MockNotifier 0 0 in
  let vmi := Fixture.addHostDisk
               (Fixture.addHostDisk (Fixture.NewMinimalVMI "fake-vmi")
                  "volume1" HostDiskExists 0)
               "volume2" "UnknownType" (64 * Fixture.Mi) in
  let w := RewriteFixture.world_with "volume1" in
  Create E hdc vmi w = (Ok tt, w).
Proof.
  intros E hdc vmi w. apply (Create_nothing_to_mount E hdc vmi w).
  intros v Hv. simpl in Hv.
  repeat (apply elem_of_cons in Hv as [->|Hv]; [reflexivity|]).
  by apply elem_of_nil in Hv.
Defined.

Lemma Create_error_origin_witness :
  let E := Fixture.quiet Fixture.roomy in
  let hdc := NewHostDiskCreator E Fixture.MockNotifier 0 0 in
  let vmi :=
    Fixture.addHostDisk
      (Fixture.addHostDisk (Fixture.NewMinimalVMI "fake-vmi")
         "volume1" HostDiskExistsOrCreate (64 * Fixture.Mi))
      "volume2" HostDiskExistsOrCreate (10 ^ 18) in
  exists before volume hostDisk after w1,
    Spec_Volumes vmi = before ++ volume :: after
    /\ create_volumes E hdc vmi before Fixture.empty_world = (Ok tt, w1)
    /\ vs_HostDisk (Source volume) = Some hostDisk
    /\ shouldMountHostDisk (Some hostDisk) = true.
Proof.
  intros E hdc vmi.
  set (out := Create E hdc vmi Fixture.empty_world).
  destruct (fst out) as [u|e] eqn:Hr; [vm_compute in Hr; discriminate|].
  destruct (Create_error_origin E hdc vmi Fixture.empty_world (snd out) e)
    as (before & volume & hostDisk & after & w1 & H1 & H2 & H3 & H4 & _).
  - rewrite <- Hr. apply surjective_pairing.
  - exists before, volume, hostDisk, after, w1.
    exact (conj H1 (conj H2 (conj H3 H4))).
Defined.

Lemma Create_ok_images_owned_witness :
  let E := Fixture.quiet Fixture.roomy in
  let hdc := NewHostDiskCreator E Fixture.MockNotifier 10 Fixture.Mi in
  let vmi := Fixture.addHostDisk (Fixture.NewMinimalVMI "fake-vmi")
               "volume1" HostDiskExistsOrCreate (64 * Fixture.Mi) in
  owned_by_qemu (snd (Create E hdc vmi Fixture.empty_world))
    Fixture.volume1_img.
Proof.
  intros E hdc vmi.
  apply (Create_ok_images_owned E hdc vmi Fixture.empty_world).
  - vm_compute. reflexivity.
  - assert (mounted_targets E (Spec_Volumes vmi) = [Fixture.volume1_img])
      as -> by (vm_compute; reflexivity).
    by apply list_elem_of_singleton.
Defined.

Lemma Create_again_witness :
  let E := Fixture.quiet Fixture.roomy in
  let hdc := NewHostDiskCreator E Fixture.MockNotifier 10 Fixture.Mi in
  let vmi := Fixture.addHostDisk (Fixture.NewMinimalVMI "fake-vmi")
               "volume1" HostDiskExistsOrCreate (64 * Fixture.Mi) in
  let w1 := snd (Create E hdc vmi Fixture.empty_world) in
  fst (Create E hdc vmi w1) = Ok tt
  /\ keeps_files w1 (snd (Create E hdc vmi w1)).
Proof.
  intros E hdc vmi w1.
  destruct (Create_again E hdc vmi Fixture.empty_world w1
              (snd (Create E hdc vmi w1)) (fst (Create E hdc vmi w1)))
    as (_ & Hkeep & Hok).
  - vm_compute. reflexivity.
  - apply surjective_pairing.
  - split; [|exact Hkeep]. apply Hok. intros w0 p. split; reflexivity.
Defined.

Section SizesAndFailures.

Context (E : Env) (hdc : DiskImgCreator) (vmi : VirtualMachineInstance).

(** An allocation of a size that is not positive: the file is created,
    the write is refused, and the file stays behind, empty. *)
Lemma createSparseRaw_not_positive path size w :
  is_int64 size -> size <= 0 -> no_faults E path ->
  exists e w',
    createSparseRaw E path size w = (Err e, w')
    /\ exists f, files w' !! path = Some f /\ Size f = 0.
Proof.
  intros Hrange Hsize (_ & Hc & _ & Hcl & _).
  unfold createSparseRaw, bind, defer_check, os_Create, os_WriteAt, os_Close.
  rewrite Hc. simpl.
  set (offset := I64.sub size 1).
  assert (Hoff : (offset <? 0) = true \/
                 ((offset <? 0) = false /\ (MaxInt64 <=? offset) = true)).
  { unfold is_int64, MinInt64, MaxInt64 in *.
    destruct (decide (size = - 2 ^ 63)) as [->|Hne].
    - right. by vm_compute.
    - left. subst offset. unfold I64.sub.
      rewrite int64_id by (unfold is_int64, MinInt64, MaxInt64; lia).
      apply Z.ltb_lt. lia. }
  destruct Hoff as [-> | [-> ->]]; rewrite Hcl; simpl;
    eexists _, _; (split; [reflexivity|]); simpl;
    rewrite lookup_insert_eq; by eexists.
Qed.

(** X9.  A request that is not positive leaves an empty image behind.  For a
    volume whose image is missing and whose requested capacity is zero or
    negative and within the available bytes (zero is also what a capacity
    beyond 64 signed bits is read as), without failing system calls: the
    materialisation returns an error but the image file now exists, with
    length 0, so the next materialisation of the volume finds it, takes it
    as the disk and returns nil. *)
Theorem empty_image_after_refused_size
    (volumeName : string) (hostDisk : HostDisk) (w : World) (size : Z) :
  let diskPath := GetMountedHostDiskPath E volumeName (Path hostDisk) in
  let diskDir := GetMountedHostDiskDir E volumeName in
  let reserve := minimumPVCReserveBytes hdc in
  let requested := fst (Quantity_AsInt64 (Capacity hostDisk)) in
  files w !! diskPath = None ->
  no_faults E diskPath ->
  dirBytesAvailableFunc hdc (record_op (OpStat diskPath) w) diskDir reserve
    = Ok size ->
  requested <= 0 -> requested <= int64 size ->
  (~ is_int64 (Capacity hostDisk) -> requested = 0)
  /\ exists e w1,
       mountHostDiskAndSetOwnership E hdc vmi volumeName hostDisk w
         = (Err e, w1)
       /\ (exists f, files w1 !! diskPath = Some f /\ Size f = 0)
       /\ exists w2,
            mountHostDiskAndSetOwnership E hdc vmi volumeName hostDisk w1
              = (Ok tt, w2)
            /\ exists f, files w2 !! diskPath = Some f /\ Size f = 0.
Proof.
  intros diskPath diskDir reserve requested Hnone Hnf Hprobe Hle0 Hle.
  split.
  { intros Hbig. unfold requested, Quantity_AsInt64. by case_decide. }
  pose proof (mount_missing_run E hdc vmi volumeName hostDisk w size
                Hnone (proj1 Hnf w) Hprobe) as Hrun.
  cbv zeta in Hrun. fold diskPath diskDir reserve requested in Hrun.
  assert (Hgt : (requested >? int64 size) = false)
    by (rewrite Z.gtb_ltb; apply Z.ltb_ge; lia).
  rewrite Hgt in Hrun. unfold bind at 1, ret in Hrun.
  set (w0 := record_op (OpProbe diskDir reserve)
               (record_op (OpStat diskPath) w)) in *.
  destruct (createSparseRaw_not_positive diskPath requested w0
              (AsInt64_range _) Hle0 Hnf) as (e & w1 & Hc & f & Hf & Hsz).
  unfold bind in Hrun. rewrite Hc in Hrun.
  exists e, w1. split; [exact Hrun|]. split; [by exists f|].
  rewrite (mount_existing_run E hdc vmi volumeName hostDisk w1 f Hf).
  fold diskPath. rewrite (proj1 Hnf w1).
  destruct Hnf as (_ & _ & _ & _ & Hch).
  destruct (SetFileOwnership_no_fault E diskPath
              (record_op (OpStat diskPath) w1) f Hf (Hch _)) as [w2 Hown].
  exists w2. split; [exact Hown|].
  apply SetFileOwnership_ok in Hown as (f0 & Hf0 & Hf2).
  eexists. split; [exact Hf2|]. simpl. simpl in Hf0. congruence.
Qed.

(** X10.  When no system call fails, the materialisation of a missing image
    succeeds exactly when the request is admitted (it is within the
    available bytes, or its tolerated size is) and the size to allocate, the
    smaller of requested and available, is at least one byte.  The image
    then has exactly that length: never more than requested, never more
    than the probe reported. *)
Theorem mount_without_faults
    (volumeName : string) (hostDisk : HostDisk) (w : World) (size : Z) :
  let diskPath := GetMountedHostDiskPath E volumeName (Path hostDisk) in
  let diskDir := GetMountedHostDiskDir E volumeName in
  let reserve := minimumPVCReserveBytes hdc in
  let requested := fst (Quantity_AsInt64 (Capacity hostDisk)) in
  let available := int64 size in
  files w !! diskPath = None ->
  no_faults E diskPath ->
  dirBytesAvailableFunc hdc (record_op (OpStat diskPath) w) diskDir reserve
    = Ok size ->
  ((exists w',
      mountHostDiskAndSetOwnership E hdc vmi volumeName hostDisk w
        = (Ok tt, w'))
   <-> (requested <= available \/ toleratedSize hdc requested <= available)
       /\ 1 <= Z.min requested available)
  /\ forall w',
       mountHostDiskAndSetOwnership E hdc vmi volumeName hostDisk w
         = (Ok tt, w') ->
       exists f, files w' !! diskPath = Some f
                 /\ Size f = Z.min requested available
                 /\ Size f <= requested /\ Size f <= available.
Proof.
  intros diskPath diskDir reserve requested available Hnone Hnf Hprobe.
  pose proof (mount_missing_run E hdc vmi volumeName hostDisk w size
                Hnone (proj1 Hnf w) Hprobe) as Hrun.
  cbv zeta in Hrun. fold diskPath diskDir reserve requested available in Hrun.
  pose proof (AsInt64_range (Capacity hostDisk)) as Hreq.
  fold requested in Hreq.
  pose proof (int64_range size) as Hav. fold available in Hav.
  set (w0 := record_op (OpProbe diskDir reserve)
               (record_op (OpStat diskPath) w)) in *.
  unfold bind at 1 in Hrun.
  destruct (requested >? available) eqn:Hgt; rewrite Z.gtb_ltb in Hgt.
  - apply Z.ltb_lt in Hgt. rewrite shrinkRequestedSize_run in Hrun.
    rewrite (Z.min_r requested available) by lia.
    destruct (toleratedSize hdc requested >? available) eqn:Htol;
      rewrite Z.gtb_ltb in Htol.
    + apply Z.ltb_lt in Htol. rewrite Hrun. split.
      * split; [by intros [w' ?]|]. intros [[?|?] _]; lia.
      * intros w' [=].
    + apply Z.ltb_ge in Htol. split.
      * split.
        -- intros [w' Hok]. rewrite Hrun in Hok.
           apply allocate_then_own in Hok as [Hpos _]; [|done].
           split; [by right|done].
        -- intros [_ Hpos]. rewrite Hrun.
           apply allocate_then_own_no_fault; [done|].
           unfold is_int64 in Hav. lia.
      * intros w' Hok. rewrite Hrun in Hok.
        apply allocate_then_own in Hok as (_ & f & Hf & Hsz); [|done].
        exists f. repeat split; try done; lia.
  - apply Z.ltb_ge in Hgt. unfold ret in Hrun.
    rewrite (Z.min_l requested available) by lia. split.
    + split.
      * intros [w' Hok]. rewrite Hrun in Hok.
        apply allocate_then_own in Hok as [Hpos _]; [|done].
        split; [by left|done].
      * intros [_ Hpos]. rewrite Hrun.
        apply allocate_then_own_no_fault; [done|].
        unfold is_int64 in Hreq. lia.
    + intros w' Hok. rewrite Hrun in Hok.
      apply allocate_then_own in Hok as (_ & f & Hf & Hsz); [|done].
      exists f. repeat split; try done; lia.
Qed.

End SizesAndFailures.

(** X11.  The probe without wrap-around.  When the product
    [blocksAvailable * blockSize] fits 64 unsigned bits and the reserve does
    not exceed it, [dirBytesAvailable] returns exactly the free bytes minus
    the reserve, which the conversion to [int64] keeps when it is below
    2^63; and an error of [statfs] is returned as it is. *)
Theorem dirBytesAvailable_exact
    (E : Env) (w : World) (path : string) (reserve : Z) :
  (forall stat,
      statfs E w path = Ok stat ->
      0 <= reserve <= Bavail stat * Bsize stat ->
      Bavail stat * Bsize stat <= MaxUint64 ->
      dirBytesAvailable E w path reserve
        = Ok (Bavail stat * Bsize stat - reserve)
      /\ (Bavail stat * Bsize stat - reserve <= MaxInt64 ->
          int64 (Bavail stat * Bsize stat - reserve)
          = Bavail stat * Bsize stat - reserve))
  /\ (forall e, statfs E w path = Err e ->
                dirBytesAvailable E w path reserve = Err e).
Proof.
  unfold MaxUint64, MaxInt64. split.
  - intros stat Hstat Hres Hfit.
    unfold dirBytesAvailable. rewrite Hstat. split.
    + f_equal. unfold U64.sub, U64.mul.
      assert (Hmul : uint64 (Bavail stat * uint64 (Bsize stat))
                     = Bavail stat * Bsize stat).
      { unfold uint64. rewrite Z.mul_mod_idemp_r by lia.
        apply Z.mod_small. lia. }
      rewrite Hmul. apply uint64_id. unfold is_uint64, MaxUint64. lia.
    + intros Hsmall. apply int64_id.
      unfold is_int64, MinInt64, MaxInt64. lia.
  - intros e Hstat. unfold dirBytesAvailable. by rewrite Hstat.
Qed.

Lemma empty_image_after_refused_size_witness :
  let E := Fixture.quiet Fixture.roomy in
  let hdc := NewHostDiskCreator E Fixture.MockNotifier 0 0 in
  let vmi := Fixture.NewMinimalVMI "fake-vmi" in
  let hostDisk := mkHostDisk Fixture.volume1_img HostDiskExistsOrCreate
                    (2 ^ 70) None in
  exists e w1,
    mountHostDiskAndSetOwnership E hdc vmi "volume1" hostDisk
      Fixture.empty_world = (Err e, w1)
    /\ (exists f, files w1 !! Fixture.volume1_img = Some f /\ Size f = 0)
    /\ exists w2,
         mountHostDiskAndSetOwnership E hdc vmi "volume1" hostDisk w1
           = (Ok tt, w2)
         /\ exists f, files w2 !! Fixture.volume1_img = Some f /\ Size f = 0.
Proof.
  intros E hdc vmi hostDisk.
  apply (empty_image_after_refused_size E hdc vmi "volume1" hostDisk
           Fixture.empty_world (262144 * 4096)).
  - vm_compute. reflexivity.
  - vm_compute. repeat split.
  - vm_compute. reflexivity.
  - vm_compute. discriminate.
  - vm_compute. discriminate.
Defined.

Lemma mount_without_faults_witness :
  let E := Fixture.quiet Fixture.roomy in
  let hdc := Fixture.with_probe
               (NewHostDiskCreator E Fixture.MockNotifier 10 Fixture.Mi)
               (Fixture.fixed_probe (64 * Fixture.Mi)) in
  let vmi := Fixture.NewMinimalVMI "fake-vmi" in
  let hostDisk := mkHostDisk Fixture.volume1_img HostDiskExistsOrCreate
                    (64 * Fixture.Mi) None in
  exists w',
    mountHostDiskAndSetOwnership E hdc vmi "volume1" hostDisk
      Fixture.empty_world = (Ok tt, w').
Proof.
  intros E hdc vmi hostDisk.
  apply (proj1 (mount_without_faults E hdc vmi "volume1" hostDisk
                  Fixture.empty_world (63 * Fixture.Mi)
                  ltac:(vm_compute; reflexivity)
                  ltac:(vm_compute; repeat split)
                  ltac:(vm_compute; reflexivity))).
  split.
  - right. vm_compute. discriminate.
  - vm_compute. discriminate.
Defined.

Lemma dirBytesAvailable_exact_witness :
  dirBytesAvailable (Fixture.quiet Fixture.roomy) Fixture.empty_world
    "/tmp/host-disk-images/volume1" Fixture.Mi
  = Ok (262144 * 4096 - Fixture.Mi).
Proof.
  apply (proj1 (dirBytesAvailable_exact (Fixture.quiet Fixture.roomy)
                  Fixture.empty_world "/tmp/host-disk-images/volume1"
                  Fixture.Mi) Fixture.roomy).
  - reflexivity.
  - vm_compute. split; discriminate.
  - vm_compute. discriminate.
Defined.

(** X12.  Bounds of the tolerated size.  For a toleration between 0 and 100
    and a request that is not negative and whose hundredfold fits 64 signed
    bits: the tolerated size lies between 0 and the request, it is the
    request itself for toleration 0 (any shortfall is then refused) and 0
    for toleration 100, and a larger toleration never gives a larger
    tolerated size. *)
Theorem toleratedSize_bounds
    (hdc : DiskImgCreator) (requested : Z) (t1 t2 : Z) :
  0 <= requested -> requested * 100 <= MaxInt64 ->
  0 <= t1 <= t2 -> t2 <= 100 ->
  0 <= toleratedSize (setlessPVCSpaceToleration hdc t2) requested
  /\ toleratedSize (setlessPVCSpaceToleration hdc t2) requested
     <= toleratedSize (setlessPVCSpaceToleration hdc t1) requested
  /\ toleratedSize (setlessPVCSpaceToleration hdc t1) requested <= requested
  /\ toleratedSize (setlessPVCSpaceToleration hdc 0) requested = requested
  /\ toleratedSize (setlessPVCSpaceToleration hdc 100) requested = 0
  /\ forall vmi available hostDisk w,
       available < requested ->
       fst (shrinkRequestedSize (setlessPVCSpaceToleration hdc 0) vmi
              requested available hostDisk w)
       = Err (shrink_error (setlessPVCSpaceToleration hdc 0) hostDisk
                requested available).
Proof.
  unfold MaxInt64. intros Hreq Hfit Ht1 Ht2.
  assert (Hexact : forall t, 0 <= t <= 100 ->
    toleratedSize (setlessPVCSpaceToleration hdc t) requested
    = Z.quot (requested * (100 - t)) 100).
  { intros t Ht. apply toleratedSize_exact; simpl; [done|].
    unfold is_int64, MinInt64, MaxInt64. nia. }
  assert (Hq : forall t, 0 <= t <= 100 ->
    Z.quot (requested * (100 - t)) 100 = requested * (100 - t) / 100).
  { intros t Ht. apply Z.quot_div_nonneg; nia. }
  rewrite !Hexact, !Hq by lia.
  assert (H0 : requested * (100 - 0) / 100 = requested).
  { replace (requested * (100 - 0)) with (requested * 100) by lia.
    apply Z.div_mul. lia. }
  split; [apply Z.div_pos; nia|].
  split; [apply Z.div_le_mono; nia|].
  split.
  { rewrite <- H0 at 2. apply Z.div_le_mono; nia. }
  split; [exact H0|]. split.
  { replace (requested * (100 - 100)) with 0 by lia. done. }
  intros vmi available hostDisk w Hshort.
  rewrite shrinkRequestedSize_run.
  rewrite Hexact, Hq, H0 by lia.
  assert ((requested >? available) = true) as ->
    by (rewrite Z.gtb_ltb; apply Z.ltb_lt; lia).
  done.
Qed.

Lemma toleratedSize_bounds_witness :
  let hdc := NewHostDiskCreator (Fixture.quiet Fixture.roomy)
               Fixture.MockNotifier 0 0 in
  0 <= toleratedSize (setlessPVCSpaceToleration hdc 10) (64 * Fixture.Mi)
  /\ toleratedSize (setlessPVCSpaceToleration hdc 10) (64 * Fixture.Mi)
     <= toleratedSize (setlessPVCSpaceToleration hdc 5) (64 * Fixture.Mi).
Proof.
  intros hdc.
  destruct (toleratedSize_bounds hdc (64 * Fixture.Mi) 5 10)
    as (H1 & H2 & _).
  - vm_compute. discriminate.
  - vm_compute. discriminate.
  - split; vm_compute; discriminate.
  - vm_compute. discriminate.
  - split; [exact H1|exact H2].
Defined.

(* ===================================================================== *)
(** ** More on the rewriter *)
(* ===================================================================== *)

Section MoreOnTheRewriter.

Context (E : Env).

(** The loop, with the calls it makes: the world changes by changes of
    owner only, one per rewritten volume. *)
Lemma replace_volumes_calls vmi vols w vols' r w' :
  replace_volumes E
    (passthoughFSVolumes_of (Spec_Domain_Devices_Filesystems vmi))
    (snd (index_status (Status_VolumeStatus vmi)))
    (fst (index_status (Status_VolumeStatus vmi))) vols w = (vols', r, w') ->
  Name <$> vols' = Name <$> vols
  /\ now w' = now w
  /\ settles w w'
  /\ (forall p, is_Some (files w' !! p) <-> is_Some (files w !! p))
  /\ exists calls,
       trace w' = trace w ++ calls
       /\ calls `prefix_of` rewriter_calls E vmi vols
       /\ (r = Ok tt -> calls = rewriter_calls E vmi vols).
Proof.
  set (pt := passthoughFSVolumes_of _). set (hot := snd _). set (pvcs := fst _).
  revert w vols' r w'.
  induction vols as [|v vols IH]; intros w vols' r w'.
  { intros [= <- <- <-]. split; [done|]. split; [done|].
    split; [apply settles_refl|]. split; [done|].
    exists []. by rewrite app_nil_r. }
  rewrite replace_volumes_cons.
  assert (Hhead : rewriter_calls E vmi (v :: vols)
                  = match replacement pt hot pvcs v with
                    | Some _ =>
                        OpChown (getPVCDiskImgPath E (Name v) "disk.img")
                        :: rewriter_calls E vmi vols
                    | None => rewriter_calls E vmi vols
                    end).
  { unfold rewriter_calls. cbn [omap list_omap]. unfold replacement_of.
    fold pt hot pvcs. by destruct (replacement pt hot pvcs v). }
  rewrite Hhead.
  destruct (replacement pt hot pvcs v) as [info|] eqn:Hrep.
  - cbv zeta.
    destruct (SetFileOwnership E _ w) as [r1 w1] eqn:Hown.
    pose proof (SetFileOwnership_settles _ _ _ _ _ Hown) as Hsettle.
    destruct (SetFileOwnership_files _ _ _ _ _ Hown) as [Htrace Hfiles].
    assert (Hnow : now w1 = now w).
    { revert Hown. unfold SetFileOwnership.
      destruct (files w !! _); [destruct (chown_fault E w _)|];
        by intros [= <- <-]. }
    assert (Hdom : forall p, is_Some (files w1 !! p) <-> is_Some (files w !! p)).
    { intros p. destruct (Hfiles p) as [->|(_ & _ & f & -> & ->)]; [done|].
      split; eauto. }
    assert (Hgo :
      keep (hostDiskVolume E v info) (replace_volumes E pt hot pvcs vols w1)
        = (vols', r, w') ->
      Name <$> vols' = Name <$> v :: vols /\ now w' = now w /\ settles w w'
      /\ (forall p, is_Some (files w' !! p) <-> is_Some (files w !! p))
      /\ exists calls,
           trace w' = trace w ++ calls
           /\ calls `prefix_of`
                OpChown (getPVCDiskImgPath E (Name v) "disk.img")
                :: rewriter_calls E vmi vols
           /\ (r = Ok tt ->
               calls = OpChown (getPVCDiskImgPath E (Name v) "disk.img")
                       :: rewriter_calls E vmi vols)).
    { destruct (replace_volumes E pt hot pvcs vols w1) as [[vs r0] w2]
        eqn:Hrest.
      intros [= <- <- <-].
      destruct (IH _ _ _ _ Hrest)
        as (Hnames & Hnow2 & Hset2 & Hdom2 & calls & Htr & Hpre & Hall).
      split; [by rewrite !fmap_cons, Hnames|].
      split; [congruence|].
      split; [by eapply settles_trans|].
      split; [intros p; by rewrite Hdom2|].
      exists (OpChown (getPVCDiskImgPath E (Name v) "disk.img") :: calls).
      split; [by rewrite Htr, Htrace, <- app_assoc|].
      split; [by apply prefix_cons|].
      intros Hr. by rewrite (Hall Hr). }
    destruct r1 as [[]|err]; [exact Hgo|].
    destruct (negb (os_IsNotExist err)); [|exact Hgo].
    intros [= <- <- <-].
    split; [done|]. split; [done|]. split; [done|]. split; [done|].
    exists [OpChown (getPVCDiskImgPath E (Name v) "disk.img")].
    split; [done|].
    split; [apply prefix_cons, prefix_nil|done].
  - destruct (replace_volumes E pt hot pvcs vols w) as [[vs r0] w2] eqn:Hrest.
    intros [= <- <- <-].
    destruct (IH _ _ _ _ Hrest)
      as (Hnames & Hnow2 & Hset2 & Hdom2 & calls & Htr & Hpre & Hall).
    split; [by rewrite !fmap_cons, Hnames|].
    do 3 (split; [done|]). by exists calls.
Qed.

(** A volume the loop has rewritten, or has passed over, is passed over by a
    second loop. *)
Lemma replace_volumes_fixed pt hot pvcs vols w :
  let rw v := match replacement pt hot pvcs v with
              | Some info => hostDiskVolume E v info
              | None => v
              end in
  replace_volumes E pt hot pvcs (rw <$> vols) w = (rw <$> vols, Ok tt, w).
Proof.
  intros rw. induction vols as [|v vols IH]; [done|].
  rewrite fmap_cons, replace_volumes_cons.
  assert (Hrw : replacement pt hot pvcs (rw v) = None).
  { unfold rw. destruct (replacement pt hot pvcs v) eqn:Hrep; [done|].
    exact Hrep. }
  by rewrite Hrw, IH.
Qed.

Context (vmi : VirtualMachineInstance).

(** X13.  The rewriter keeps the shape of the instance, and all it does to
    the system is change owners.  On every path, with an error or without:
    namespace, name, filesystems and volume status are as they were; the
    volumes keep their number, order and names; a volume without a claim
    source is untouched; the clock has not moved, no file has appeared or
    gone, every file has its length and modification time; and the calls
    made are changes of owner on the images of rewritten volumes, in the
    order of the volumes: all of them when nil is returned, the first few
    when an error is. *)
Theorem ReplacePVCByHostDisk_shape
    (w w' : World) (vmi' : VirtualMachineInstance) (r : res unit) :
  ReplacePVCByHostDisk E vmi w = (vmi', r, w') ->
  (Namespace vmi' = Namespace vmi /\ vmi_Name vmi' = vmi_Name vmi
   /\ Spec_Domain_Devices_Filesystems vmi'
      = Spec_Domain_Devices_Filesystems vmi
   /\ Status_VolumeStatus vmi' = Status_VolumeStatus vmi)
  /\ Name <$> Spec_Volumes vmi' = Name <$> Spec_Volumes vmi
  /\ (forall i v, Spec_Volumes vmi !! i = Some v ->
        vs_PersistentVolumeClaim (Source v) = None ->
        Spec_Volumes vmi' !! i = Some v)
  /\ now w' = now w
  /\ (forall p, is_Some (files w' !! p) <-> is_Some (files w !! p))
  /\ keeps_files w w'
  /\ exists calls,
       trace w' = trace w ++ calls
       /\ calls `prefix_of` rewriter_calls E vmi (Spec_Volumes vmi)
       /\ (r = Ok tt -> calls = rewriter_calls E vmi (Spec_Volumes vmi)).
Proof.
  rewrite ReplacePVCByHostDisk_run. intros Hrun.
  destruct (replace_volumes E _ _ _ _ w) as [[vols r0] w1] eqn:Hloop.
  injection Hrun as <- <- <-.
  destruct (replace_volumes_calls _ _ _ _ _ _ Hloop)
    as (Hnames & Hnow & Hsettle & Hdom & Hcalls).
  split; [done|]. split; [exact Hnames|]. split.
  { intros i v Hi Hnone. simpl.
    assert (Hnorep : replacement
                       (passthoughFSVolumes_of
                          (Spec_Domain_Devices_Filesystems vmi))
                       (snd (index_status (Status_VolumeStatus vmi)))
                       (fst (index_status (Status_VolumeStatus vmi))) v
                     = None)
      by (unfold replacement; by rewrite Hnone).
    apply replace_volumes_spec in Hloop. simpl in Hloop.
    destruct r0 as [[]|e].
    - rewrite Hloop, list_lookup_fmap, Hi. simpl. by rewrite Hnorep.
    - destruct Hloop as (before & volume & after & info & w0 & Heq & Hrep
                         & -> & _).
      rewrite Heq in Hi.
      destruct (decide (i < length before)%nat) as [Hlt|Hge].
      + rewrite lookup_app_l in Hi by done.
        rewrite lookup_app_l by (by rewrite length_fmap).
        rewrite list_lookup_fmap, Hi. simpl. by rewrite Hnorep.
      + rewrite lookup_app_r in Hi by lia.
        rewrite lookup_app_r by (rewrite length_fmap; lia).
        rewrite length_fmap.
        destruct (i - length before)%nat as [|j] eqn:Hj; simpl in *.
        * simplify_eq; congruence.
        * done. }
  split; [exact Hnow|]. split; [exact Hdom|]. split; [|exact Hcalls].
  intros p f Hp. destruct (Hsettle p f Hp) as [Hf|Hf]; eexists; split;
    try exact Hf; by split.
Qed.

(** X14.  The rewriter does its work once.  After a run that returned nil,
    a second run on the instance it left changes no volume, returns nil and
    makes no call at all, in whatever world it is run: the volumes it has
    rewritten carry no claim any more, and the others fail the test as they
    did before. *)
Theorem ReplacePVCByHostDisk_again
    (w w' : World) (vmi' : VirtualMachineInstance) :
  ReplacePVCByHostDisk E vmi w = (vmi', Ok tt, w') ->
  forall w2, ReplacePVCByHostDisk E vmi' w2 = (vmi', Ok tt, w2).
Proof.
  rewrite ReplacePVCByHostDisk_run. intros Hrun w2.
  destruct (replace_volumes E _ _ _ _ w) as [[vols r0] w1] eqn:Hloop.
  injection Hrun as <- -> <-.
  apply replace_volumes_spec in Hloop. simpl in Hloop. subst vols.
  rewrite ReplacePVCByHostDisk_run. simpl.
  by rewrite replace_volumes_fixed.
Qed.

(** X15.  Without a refused change of owner the rewriter returns nil, also
    when images are missing: the "not exist" error of a missing image is
    dropped and the volume is rewritten all the same, so every volume is as
    the test of the loop decides. *)
Theorem ReplacePVCByHostDisk_nil (w : World) :
  (forall w0 v, v ∈ Spec_Volumes vmi -> is_Some (replacement_of vmi v) ->
     chown_fault E w0 (getPVCDiskImgPath E (Name v) "disk.img") = None) ->
  exists w',
    ReplacePVCByHostDisk E vmi w
    = (set_Volumes vmi (rewritten E vmi <$> Spec_Volumes vmi), Ok tt, w').
Proof.
  rewrite ReplacePVCByHostDisk_run. unfold rewritten, replacement_of.
  set (pt := passthoughFSVolumes_of _). set (hot := snd _). set (pvcs := fst _).
  intros Hquiet.
  enough (Hloop : exists w',
    replace_volumes E pt hot pvcs (Spec_Volumes vmi) w
    = ((fun v => match replacement pt hot pvcs v with
                 | Some info => hostDiskVolume E v info
                 | None => v
                 end) <$> Spec_Volumes vmi, Ok tt, w')).
  { destruct Hloop as [w' ->]. by exists w'. }
  revert w. induction (Spec_Volumes vmi) as [|v vols IH]; intros w.
  { by exists w. }
  assert (IH' : forall w1, exists w',
    replace_volumes E pt hot pvcs vols w1
    = ((fun v => match replacement pt hot pvcs v with
                 | Some info => hostDiskVolume E v info
                 | None => v
                 end) <$> vols, Ok tt, w')).
  { apply IH. intros w0 v0 Hv0. apply Hquiet. by right. }
  rewrite replace_volumes_cons, fmap_cons.
  destruct (replacement pt hot pvcs v) as [info|] eqn:Hrep.
  - cbv zeta. unfold SetFileOwnership.
    destruct (files w !! getPVCDiskImgPath E (Name v) "disk.img") as [f|].
    + rewrite (Hquiet w v) by (by left || by rewrite Hrep).
      match goal with
      | |- context [replace_volumes E pt hot pvcs vols ?w1] =>
          destruct (IH' w1) as [w' ->]
      end.
      by exists w'.
    + simpl.
      match goal with
      | |- context [replace_volumes E pt hot pvcs vols ?w1] =>
          destruct (IH' w1) as [w' ->]
      end.
      by exists w'.
  - destruct (IH' w) as [w' ->]. by exists w'.
Qed.

(** X16.  A volume added by [AddPVCFS] stays a claim.  Whatever the instance
    and its status, and on every path of the rewriter, the last volume of
    the instance [AddPVCFS] returns is the claim volume it appended: its
    name is that of a filesystem device, so the rewriter passes it over. *)
Theorem AddPVCFS_not_rewritten
    (name claimName : string) (w w' : World)
    (vmi' : VirtualMachineInstance) (r : res unit) :
  ReplacePVCByHostDisk E (AddPVCFS vmi name claimName) w = (vmi', r, w') ->
  last (Spec_Volumes vmi')
  = Some {| Name := name;
            Source :=
              {| vs_HostDisk := None;
                 vs_PersistentVolumeClaim :=
                   Some {| ClaimName := claimName |};
                 vs_Other := None |} |}
  /\ length (Spec_Volumes vmi') = S (length (Spec_Volumes vmi)).
Proof.
  set (volume := {| Name := name; Source := _ |}).
  rewrite ReplacePVCByHostDisk_run. intros Hrun.
  destruct (replace_volumes E _ _ _ _ w) as [[vols r0] w1] eqn:Hloop.
  injection Hrun as <- <- <-.
  assert (Hnorep : replacement_of (AddPVCFS vmi name claimName) volume = None).
  { destruct (replacement_of _ volume) as [info|] eqn:Hrep; [|done].
    apply replacement_of_spec in Hrep as (_ & Hpt & _).
    exfalso. apply Hpt. exists {| fs_Name := name |}.
    split; [|done]. simpl. apply elem_of_app. right. by left. }
  unfold replacement_of in Hnorep.
  apply replace_volumes_spec in Hloop. cbv zeta in Hloop.
  change (Spec_Volumes (AddPVCFS vmi name claimName))
    with (Spec_Volumes vmi ++ [volume]) in Hloop.
  cbn [Spec_Volumes set_Volumes].
  destruct r0 as [[]|e].
  - rewrite Hloop, fmap_app, list_fmap_singleton, last_snoc, length_app,
      !length_fmap.
    cbv beta. rewrite Hnorep. split; [done|simpl; lia].
  - destruct Hloop as (before & failing & after & info & w0 & Heq & Hrep
                       & -> & _).
    assert (Hlen : length (Spec_Volumes vmi ++ [volume])
                   = length (before ++ failing :: after)) by by rewrite Heq.
    rewrite !length_app in Hlen. simpl in Hlen.
    rewrite length_app, length_fmap. simpl.
    split; [|lia].
    destruct after as [|a after _] using rev_ind.
    + apply (f_equal last) in Heq.
      rewrite last_snoc in Heq.
      rewrite last_snoc in Heq. simplify_eq; congruence.
    + apply (f_equal last) in Heq.
      rewrite last_snoc in Heq.
      change (failing :: after ++ [a]) with ((failing :: after) ++ [a]) in Heq.
      rewrite app_assoc, last_snoc in Heq. injection Heq as <-.
      change (hostDiskVolume E failing info :: after ++ [volume])
        with ((hostDiskVolume E failing info :: after) ++ [volume]).
      by rewrite app_assoc, last_snoc.
Qed.

End MoreOnTheRewriter.

Lemma ReplacePVCByHostDisk_shape_witness :
  let E := Fixture.chown_refused Fixture.roomy (RewriteFixture.img "v2") in
  let vmi := RewriteFixture.vmiOf
               [RewriteFixture.pvcVolumeOf "v1";
                RewriteFixture.pvcVolumeOf "v2";
                RewriteFixture.pvcVolumeOf "v3"] []
               [RewriteFixture.statusOf "v1" "Filesystem";
                RewriteFixture.statusOf "v2" "Filesystem";
                RewriteFixture.statusOf "v3" "Filesystem"] in
  let out := ReplacePVCByHostDisk E vmi (RewriteFixture.world_with "v2") in
  snd (fst out) = Err (ErrOS "operation not permitted")
  /\ Name <$> Spec_Volumes (fst (fst out)) = ["v1"; "v2"; "v3"]
  /\ now (snd out) = 4%nat.
Proof.
  intros E vmi out. split; [vm_compute; reflexivity|].
  destruct (ReplacePVCByHostDisk_shape E vmi (RewriteFixture.world_with "v2")
              (snd out) (fst (fst out)) (snd (fst out)))
    as (_ & Hnames & _ & Hnow & _).
  - vm_compute. reflexivity.
  - split; [exact Hnames|exact Hnow].
Defined.

Lemma ReplacePVCByHostDisk_again_witness :
  let E := Fixture.quiet Fixture.roomy in
  let vmi := RewriteFixture.vmiOf
               [RewriteFixture.pvcVolumeOf "v1";
                RewriteFixture.pvcVolumeOf "v2"] []
               [RewriteFixture.statusOf "v1" "Filesystem";
                RewriteFixture.statusOf "v2" "Block"] in
  let out := ReplacePVCByHostDisk E vmi (RewriteFixture.world_with "v1") in
  ReplacePVCByHostDisk E (fst (fst out)) Fixture.empty_world
  = (fst (fst out), Ok tt, Fixture.empty_world).
Proof.
  intros E vmi out.
  apply (ReplacePVCByHostDisk_again E vmi (RewriteFixture.world_with "v1")
           (snd out)).
  vm_compute. reflexivity.
Defined.

Lemma ReplacePVCByHostDisk_nil_witness :
  let E := Fixture.quiet Fixture.roomy in
  let vmi := RewriteFixture.vmiOf
               [RewriteFixture.pvcVolumeOf "v1";
                RewriteFixture.pvcVolumeOf "v2"] []
               [RewriteFixture.statusOf "v1" "Filesystem";
                RewriteFixture.statusOf "v2" "Filesystem"] in
  exists w',
    ReplacePVCByHostDisk E vmi (RewriteFixture.world_with "v1")
    = (set_Volumes vmi (rewritten E vmi <$> Spec_Volumes vmi), Ok tt, w').
Proof.
  intros E vmi.
  apply (ReplacePVCByHostDisk_nil E vmi (RewriteFixture.world_with "v1")).
  intros w0 v _ _. reflexivity.
Defined.

Lemma AddPVCFS_not_rewritten_witness :
  let E := Fixture.quiet Fixture.roomy in
  let vmi := RewriteFixture.vmiOf [] []
               [RewriteFixture.statusOf "fs-volume" "Filesystem"] in
  let out := ReplacePVCByHostDisk E (AddPVCFS vmi "fs-volume" "claim")
               Fixture.empty_world in
  last (Spec_Volumes (fst (fst out)))
  = Some {| Name := "fs-volume";
            Source :=
              {| vs_HostDisk := None;
                 vs_PersistentVolumeClaim := Some {| ClaimName := "claim" |};
                 vs_Other := None |} |}
  /\ length (Spec_Volumes (fst (fst out))) = 1%nat.
Proof.
  intros E vmi out.
  apply (AddPVCFS_not_rewritten E vmi "fs-volume" "claim" Fixture.empty_world
           (snd out) (fst (fst out)) (snd (fst out))).
  vm_compute. reflexivity.
Defined.

(* ===================================================================== *)
(** ** More on the waiter and the helpers of the tests *)
(* ===================================================================== *)

(** The numeric policy answers true exactly for two base-10 integers of 32
    signed bits in order. *)
Lemma numeric_policy_true target observed :
  ExpectResourceVersionToBeLessThanConfigVersion target observed = true
  <-> exists a b,
        base10_integer target = Some a /\ base10_integer observed = Some b
        /\ is_int32 a /\ is_int32 b /\ a <= b.
Proof.
  unfold ExpectResourceVersionToBeLessThanConfigVersion.
  pose proof (ParseInt10_32_spec target) as Ht.
  pose proof (ParseInt10_32_spec observed) as Ho.
  destruct (ParseInt10 target 32) as [rv [et|]].
  { split; [done|]. intros (a & b & Ha & _ & Hra & _).
    by pose proof (proj2 (Ht a) (conj Ha Hra)). }
  destruct (ParseInt10 observed 32) as [crv [eo|]].
  { split; [done|]. intros (a & b & _ & Hb & _ & Hrb & _).
    by pose proof (proj2 (Ho b) (conj Hb Hrb)). }
  destruct (proj1 (Ht rv) eq_refl) as [Hrv Hrrv].
  destruct (proj1 (Ho crv) eq_refl) as [Hcrv Hrcrv].
  destruct (rv >? crv) eqn:Hc; rewrite Z.gtb_ltb in Hc.
  - apply Z.ltb_lt in Hc. split; [done|].
    intros (a & b & Ha & Hb & _ & _ & Hle).
    rewrite Hrv in Ha. rewrite Hcrv in Hb. simplify_eq. lia.
  - apply Z.ltb_ge in Hc. split; [|done]. intros _.
    exists rv, crv. split; [done|]. split; [done|]. split; [done|].
    split; [done|lia].
Qed.

Lemma lexical_policy_true target observed :
  ExpectResourceVersionToBeEqualConfigVersion target observed = true
  <-> lex_le target observed.
Proof.
  unfold ExpectResourceVersionToBeEqualConfigVersion, string_gt.
  rewrite lex_le_compare.
  destruct (String.compare target observed); split; done.
Qed.

Lemma lex_le_trans s t u : lex_le s t -> lex_le t u -> lex_le s u.
Proof.
  intros Hst. revert u.
  induction Hst as [s|a s b t Hlt|a s t Hle IH]; intros u Htu.
  - constructor.
  - inversion Htu; subst.
    + apply lex_le_lt. lia.
    + by apply lex_le_lt.
  - inversion Htu; subst.
    + by apply lex_le_lt.
    + apply lex_le_eq. by apply IH.
Qed.

Lemma lex_le_antisym s t : lex_le s t -> lex_le t s -> s = t.
Proof.
  induction 1 as [s|a s b t Hlt|a s t Hle IH]; intros Hts.
  - by inversion Hts.
  - inversion Hts; subst; lia.
  - inversion Hts; subst; [lia|]. f_equal. by apply IH.
Qed.

Lemma poll_nil_in_sync podLabel target c :
  poll podLabel target ExpectResourceVersionToBeLessThanConfigVersion c
    = ReturnsNil
  <-> in_sync podLabel target c.
Proof.
  unfold poll, in_sync.
  assert (Hpass : forall pod,
    passes ExpectResourceVersionToBeLessThanConfigVersion target c pod
    <-> reports_at_least target c pod).
  { intros pod. unfold passes, reports_at_least. split.
    - intros (fields & observed & Hcall & Hkey & Hcmp).
      apply numeric_policy_true in Hcmp as (a & b & ?).
      by exists fields, observed, a, b.
    - intros (fields & observed & a & b & Hcall & Hkey & Hab).
      exists fields, observed. split; [done|]. split; [done|].
      apply numeric_policy_true. by exists a, b. }
  destruct (list_pods c podLabel) as [pods|e].
  - rewrite check_pods_nil_iff. split.
    + intros Hall. exists pods. split; [done|].
      intros pod Hpod Hlive. by apply Hpass, Hall.
    + intros (pods' & [= <-] & Hall) pod Hpod Hlive. by apply Hpass, Hall.
  - split; [done|]. by intros (pods & ? & _).
Qed.

Lemma WaitForConfig_converges_on podLabel target attempts :
  WaitForConfigToBePropagatedToComponent podLabel target
    ExpectResourceVersionToBeLessThanConfigVersion attempts = Converged
  <-> converges_on podLabel target attempts.
Proof.
  unfold WaitForConfigToBePropagatedToComponent, converges_on.
  rewrite Eventually_converged_iff.
  split; intros (before & c & after & Heq & Hnil & Hbefore);
    exists before, c, after; (split; [done|]); (split; [|done]);
    by apply poll_nil_in_sync.
Qed.

(** X18.  What [waitForConfigToBePropagated] has seen when it returns.  It
    gets through exactly when each of the three components, controller, api
    and handler in this order, converges on its own polls: some poll lists
    its pods and finds every pod that is not marked for deletion reporting a
    version that is, as a base-10 integer of 32 signed bits, at least the
    target, after polls that all returned an error.  So with a target that
    is no such integer it gets through only if the poll that settles each
    component lists no pod that is not marked for deletion. *)
Theorem waitForConfigToBePropagated_converged
    (resourceVersion : string) (controller api handler : list Cluster) :
  (waitForConfigToBePropagated resourceVersion controller api handler
     = Converged
   <-> converges_on "kubevirt.io=virt-controller" resourceVersion controller
       /\ converges_on "kubevirt.io=virt-api" resourceVersion api
       /\ converges_on "kubevirt.io=virt-handler" resourceVersion handler)
  /\ ((forall a, base10_integer resourceVersion = Some a -> ~ is_int32 a) ->
      forall podLabel attempts,
        converges_on podLabel resourceVersion attempts ->
        exists c pods,
          c ∈ attempts /\ list_pods c podLabel = Ok pods
          /\ forall pod, pod ∈ pods -> ~ live pod).
Proof.
  split.
  - unfold waitForConfigToBePropagated.
    rewrite <- !WaitForConfig_converges_on.
    destruct (WaitForConfigToBePropagatedToComponent
                "kubevirt.io=virt-controller" _ _ controller);
      [|split; [done|by intros [? _]]..].
    destruct (WaitForConfigToBePropagatedToComponent
                "kubevirt.io=virt-api" _ _ api);
      [|split; [done|by intros (_ & ? & _)]..].
    split; [done|]. by intros (_ & _ & ?).
  - intros Hbad podLabel attempts
      (before & c & after & -> & (pods & Hlist & Hall) & _).
    exists c, pods. split; [apply elem_of_app; right; by left|].
    split; [done|]. intros pod Hpod Hlive.
    destruct (Hall pod Hpod Hlive)
      as (fields & observed & a & b & _ & _ & Ha & _ & Hra & _).
    by apply (Hbad a).
Qed.

(** X19.  The lexical policy is a total order on version strings, not an
    equality: it accepts every observed version that is not before the
    target, byte by byte.  It holds of a version and itself, of one of any
    two versions in one direction at least, in both directions only for
    equal strings, and it is transitive. *)
Theorem lexical_policy_is_an_order (a b c : string) :
  ExpectResourceVersionToBeEqualConfigVersion a a = true
  /\ (ExpectResourceVersionToBeEqualConfigVersion a b = true
      \/ ExpectResourceVersionToBeEqualConfigVersion b a = true)
  /\ (ExpectResourceVersionToBeEqualConfigVersion a b = true ->
      ExpectResourceVersionToBeEqualConfigVersion b a = true -> a = b)
  /\ (ExpectResourceVersionToBeEqualConfigVersion a b = true ->
      ExpectResourceVersionToBeEqualConfigVersion b c = true ->
      ExpectResourceVersionToBeEqualConfigVersion a c = true).
Proof.
  split; [|split; [|split]].
  - apply lexical_policy_true. induction a; by constructor.
  - unfold ExpectResourceVersionToBeEqualConfigVersion, string_gt.
    rewrite (String.compare_antisym a b).
    destruct (String.compare b a); simpl; auto.
  - rewrite !lexical_policy_true. apply lex_le_antisym.
  - rewrite !lexical_policy_true. apply lex_le_trans.
Qed.

(** The loop of [RetryIfModified], from the call number [calls] on. *)
Lemma retry_loop_spec {Err : Type} (IsConflict : Err -> bool)
    (do : nat -> option Err) (left calls : nat) :
  let r := fst (retry_loop IsConflict do calls left) in
  let n := snd (retry_loop IsConflict do calls left) in
  (calls < n <= calls + left + 1)%nat
  /\ (forall k, (calls <= k)%nat -> (k < n - 1)%nat ->
        exists e, do k = Some e /\ IsConflict e = true)
  /\ match r with
     | None => do (n - 1)%nat = None
     | Some (Passed e) => do (n - 1)%nat = Some e /\ IsConflict e = false
     | Some (PermanentlyModified e) =>
         n = (calls + left + 1)%nat
         /\ do (n - 1)%nat = Some e /\ IsConflict e = true
     end.
Proof.
  revert calls. induction left as [|left IH]; intros calls; cbn [retry_loop].
  - destruct (do calls) as [e|] eqn:Hdo.
    + destruct (IsConflict e) eqn:Hc; simpl;
        replace (calls - 0)%nat with calls by lia;
        (split; [lia|]); (split; [intros; lia|]); [|done].
      split; [lia|]. done.
    + simpl. replace (calls - 0)%nat with calls by lia.
      split; [lia|]. split; [intros; lia|done].
  - destruct (do calls) as [e|] eqn:Hdo.
    + destruct (IsConflict e) eqn:Hc.
      * destruct (IH (S calls)) as (Hn & Hbefore & Hres).
        split; [lia|]. split.
        -- intros k Hk Hlt.
           destruct (decide (k = calls)) as [->|Hne]; [by exists e|].
           apply Hbefore; lia.
        -- destruct (fst (retry_loop IsConflict do (S calls) left))
             as [[e'|e']|]; [done| |done].
           destruct Hres as (-> & Hres). split; [lia|done].
      * simpl. replace (calls - 0)%nat with calls by lia.
        split; [lia|]. split; [intros; lia|done].
    + simpl. replace (calls - 0)%nat with calls by lia.
      split; [lia|]. split; [intros; lia|done].
Qed.

(** X20.  [RetryIfModified] calls the closure at least once and at most
    eleven times; every call but the last one returned a conflict.  It
    returns nil when the last call did, the error of the last call when
    that is no conflict, and after eleven conflicts the error that says the
    object is permanently modified: it never returns a conflict as it is. *)
Theorem RetryIfModified_result {Err : Type} (IsConflict : Err -> bool)
    (do : nat -> option Err) :
  let r := fst (RetryIfModified IsConflict do) in
  let n := snd (RetryIfModified IsConflict do) in
  (1 <= n <= 11)%nat
  /\ (forall k, (k < n - 1)%nat ->
        exists e, do k = Some e /\ IsConflict e = true)
  /\ match r with
     | None => do (n - 1)%nat = None
     | Some (Passed e) => do (n - 1)%nat = Some e /\ IsConflict e = false
     | Some (PermanentlyModified e) =>
         n = 11%nat /\ do 10%nat = Some e /\ IsConflict e = true
     end.
Proof.
  unfold RetryIfModified.
  destruct (retry_loop_spec IsConflict do 10 0) as (Hn & Hbefore & Hres).
  split; [lia|]. split; [intros k Hk; apply Hbefore; lia|].
  destruct (fst (retry_loop IsConflict do 0 10)) as [[e|e]|]; [done| |done].
  destruct Hres as (Hn11 & Hres). split; [exact Hn11|].
  by rewrite Hn11 in Hres.
Qed.

(** X21.  [RetryWithMetadataIfModified] hands the closure the metadata it
    was given, on every retry: a closure whose answer to that metadata is a
    conflict, whatever the call, is called eleven times, and the result is
    the error of the permanently modified object. *)
Theorem RetryWithMetadataIfModified_stale {Meta Err : Type}
    (IsConflict : Err -> bool) (objectMeta : Meta)
    (do : Meta -> nat -> option Err) (e : Err) :
  (forall k, do objectMeta k = Some e) -> IsConflict e = true ->
  RetryWithMetadataIfModified IsConflict objectMeta do
  = (Some (PermanentlyModified e), 11%nat).
Proof.
  intros Hdo Hc. unfold RetryWithMetadataIfModified, RetryIfModified.
  pose proof (retry_loop_spec IsConflict (do objectMeta) 10 0) as H.
  cbv zeta in H. destruct H as (Hn & Hbefore & Hres).
  destruct (retry_loop IsConflict (do objectMeta) 0 10) as [r n].
  simpl in *.
  destruct r as [[e'|e']|].
  - destruct Hres as [He' Hc']. rewrite Hdo in He'. congruence.
  - destruct Hres as (-> & He' & _). rewrite Hdo in He'. congruence.
  - by rewrite Hdo in Hres.
Qed.

Lemma all_DeepEqual_spec first certs :
  all_DeepEqual first certs = true <-> forall crt, crt ∈ certs -> crt = first.
Proof.
  induction certs as [|crt rest IH]; simpl.
  - split; [|done]. intros _ crt Hcrt. by apply elem_of_nil in Hcrt.
  - case_bool_decide as Heq; simpl.
    + rewrite IH. split.
      * intros Hall c [->|Hc]%elem_of_cons; [done|by apply Hall].
      * intros Hall c Hc. apply Hall. by right.
    + split; [done|]. intros Hall. exfalso. apply Heq.
      symmetry. apply Hall. by left.
Qed.

(** X22.  [GetPodsCertIfSynced] on the certificates of the pods.  It
    reports no error; it says "synced" exactly when any two of the
    certificates are deeply equal, and then returns one that equals them
    all (nil when there is no pod); when it says "not synced" the
    certificate returned is nil.  An error of the lookup is handed on, with
    "not synced" and no certificate. *)
Theorem GetPodsCertIfSynced_spec (certs : list bytes) (err : error) :
  let '(cert, synced, e) := GetPodsCertIfSynced (Ok certs) in
  e = None
  /\ (synced = true
      <-> forall c1 c2, c1 ∈ certs -> c2 ∈ certs -> c1 = c2)
  /\ (synced = true -> forall crt, crt ∈ certs -> crt = cert)
  /\ (synced = true -> certs <> [] -> cert ∈ certs)
  /\ (synced = false -> cert = None)
  /\ GetPodsCertIfSynced (Err err) = (None, false, Some err).
Proof.
  unfold GetPodsCertIfSynced.
  destruct certs as [|first rest].
  { split; [done|]. split.
    - split; [|done]. intros _ c1 c2 Hc1. by apply elem_of_nil in Hc1.
    - split; [intros _ crt Hcrt; by apply elem_of_nil in Hcrt|]. done. }
  destruct (all_DeepEqual first (first :: rest)) eqn:Hall.
  - pose proof (proj1 (all_DeepEqual_spec _ _) Hall) as Hsame.
    split; [done|]. split.
    + split; [|done]. intros _ c1 c2 Hc1 Hc2.
      by rewrite (Hsame c1 Hc1), (Hsame c2 Hc2).
    + split; [by intros _|]. split; [intros _ _; by left|done].
  - split; [done|]. split.
    + split; [done|]. intros Hsame.
      assert (all_DeepEqual first (first :: rest) = true) as Hyes.
      { apply all_DeepEqual_spec. intros crt Hcrt.
        apply Hsame; [done|by left]. }
      congruence.
    + done.
Qed.

Lemma RetryWithMetadataIfModified_stale_witness :
  RetryWithMetadataIfModified (fun e => String.eqb e "conflict")
    "resourceVersion=7" (fun _ _ => Some "conflict")
  = (Some (PermanentlyModified "conflict"), 11%nat).
Proof.
  apply (RetryWithMetadataIfModified_stale (fun e => String.eqb e "conflict")
           "resourceVersion=7" (fun _ _ => Some "conflict") "conflict").
  - intros k. reflexivity.
  - reflexivity.
Defined.

(* ===================================================================== *)
(** ** What [Create] leaves alone *)
(* ===================================================================== *)

Section Frame.

Context (E : Env) (hdc : DiskImgCreator) (vmi : VirtualMachineInstance).

Lemma handle_frame diskDir diskPath hostDisk w r w' :
  handleRequestedSizeAndCreateSparseRaw E hdc vmi diskDir diskPath hostDisk w
    = (r, w') ->
  forall p, p <> diskPath -> files w' !! p = files w !! p.
Proof.
  unfold handleRequestedSizeAndCreateSparseRaw, bind, probe, ret.
  intros Hrun p Hp.
  destruct (dirBytesAvailableFunc hdc w diskDir _) as [size|e];
    [|injection Hrun as <- <-; reflexivity].
  destruct (_ >? _).
  - destruct (shrinkRequestedSize _ _ _ _ _ _) as [[sz|e] w1] eqn:Hs;
      apply shrinkRequestedSize_files in Hs; simpl in Hs.
    + destruct (createSparseRaw_files _ _ _ _ _ _ Hrun) as [Hother _].
      rewrite Hother by done. by rewrite Hs.
    + injection Hrun as <- <-. by rewrite Hs.
  - destruct (createSparseRaw_files _ _ _ _ _ _ Hrun) as [Hother _].
    by rewrite Hother.
Qed.

Lemma mount_frame volumeName hostDisk w r w' :
  mountHostDiskAndSetOwnership E hdc vmi volumeName hostDisk w = (r, w') ->
  forall p, p <> GetMountedHostDiskPath E volumeName (Path hostDisk) ->
    files w' !! p = files w !! p.
Proof.
  unfold mountHostDiskAndSetOwnership, bind. rewrite FileExists_run.
  set (diskPath := GetMountedHostDiskPath E volumeName (Path hostDisk)).
  destruct (stat_fault E w diskPath); [by intros [= <- <-]|].
  intros Hrun p Hp.
  assert (Hown : forall w1 r1 w2,
    SetFileOwnership E diskPath w1 = (r1, w2) ->
    files w2 !! p = files w1 !! p).
  { intros w1 r1 w2 Hset.
    destruct (SetFileOwnership_files _ _ _ _ _ Hset) as [_ Hall].
    by destruct (Hall p) as [Heq | (-> & _)]. }
  destruct (bool_decide (is_Some (files w !! diskPath))); simpl in Hrun.
  - by rewrite (Hown _ _ _ Hrun).
  - destruct (handleRequestedSizeAndCreateSparseRaw _ _ _ _ _ _ _)
      as [[[]|e] w1] eqn:Hh;
      pose proof (handle_frame _ _ _ _ _ _ Hh p Hp) as Hframe.
    + by rewrite (Hown _ _ _ Hrun), Hframe.
    + by simplify_eq.
Qed.

Lemma create_volumes_frame vols w r w' :
  create_volumes E hdc vmi vols w = (r, w') ->
  forall p, p ∉ mounted_targets E vols -> files w' !! p = files w !! p.
Proof.
  revert w. induction vols as [|v vols IH]; intros w; cbn [create_volumes].
  - by intros [= <- <-].
  - rewrite mounted_targets_cons.
    destruct (vs_HostDisk (Source v)) as [hd|]; [|by apply IH].
    destruct (shouldMountHostDisk (Some hd)); [|by apply IH].
    unfold bind.
    destruct (mountHostDiskAndSetOwnership _ _ _ _ _ _) as [[[]|e] w1] eqn:Hm;
      intros Hrun p [Hp Hrest]%not_elem_of_cons;
      pose proof (mount_frame _ _ _ _ _ Hm p Hp) as Hframe.
    + by rewrite (IH _ Hrun p Hrest).
    + by simplify_eq.
Qed.

(** X23.  [Create] touches the images of the volumes it materialises and
    nothing else.  On every path, with an error or without, a path that is
    the target of no volume [Create] materialises holds after the run what
    it held before: the same file with its length, modification time and
    owner, or no file. *)
Theorem Create_touches_only_its_targets (w w' : World) (r : res unit) :
  Create E hdc vmi w = (r, w') ->
  forall p, p ∉ mounted_targets E (Spec_Volumes vmi) ->
    files w' !! p = files w !! p.
Proof. apply create_volumes_frame. Qed.

End Frame.

Lemma Create_touches_only_its_targets_witness :
  let E := Fixture.quiet Fixture.roomy in
  let hdc := NewHostDiskCreator E Fixture.MockNotifier 0 0 in
  let vmi :=
    Fixture.addHostDisk
      (Fixture.addHostDisk (Fixture.NewMinimalVMI "fake-vmi")
         "volume1" HostDiskExistsOrCreate (64 * Fixture.Mi))
      "volume2" HostDiskExistsOrCreate (10 ^ 18) in
  let w := RewriteFixture.world_with "volume3" in
  let out := Create E hdc vmi w in
  files (snd out) !! RewriteFixture.img "volume3"
  = Some (mkFileInfo (64 * Fixture.Mi) 3 OwnerProcess).
Proof.
  intros E hdc vmi w out.
  rewrite (Create_touches_only_its_targets E hdc vmi w (snd out) (fst out)).
  - vm_compute. reflexivity.
  - apply surjective_pairing.
  - vm_compute. intros H.
    repeat (apply elem_of_cons in H as [H|H]; [discriminate H|]).
    by apply elem_of_nil in H.
Defined.

(* ===================================================================== *)
(** ** The rewriter and the materialiser, one after the other *)
(* ===================================================================== *)

Section Pipeline.

Context (E : Env) (hdc : DiskImgCreator) (vmi : VirtualMachineInstance).

(** The image of a volume the rewriter has rewritten is a target of
    [Create] on the rewritten instance. *)
Lemma rewritten_image_is_target (vols : list Volume) (v : Volume)
    (info : PersistentVolumeClaimInfo) :
  v ∈ vols -> replacement_of vmi v = Some info ->
  getPVCDiskImgPath E (Name v) "disk.img"
    ∈ mounted_targets E (rewritten E vmi <$> vols).
Proof.
  intros Hv Hrep. unfold mounted_targets. apply list_elem_of_omap.
  exists (hostDiskVolume E v info). split.
  { apply list_elem_of_fmap. exists v. split; [|done].
    unfold rewritten. by rewrite Hrep. }
  destruct (GetMountedHostDiskPath_of_image_path_aux E (Name v))
    as (_ & Hround & Hne).
  set (hd := {| Path := getPVCDiskImgPath E (Name v) "disk.img";
                Type_ := HostDiskExistsOrCreate;
                Capacity := default 0 (info_Capacity info !! ResourceStorage);
                Shared := Some (HasSharedAccessMode E (AccessModes info)) |}).
  assert (Hhd : vs_HostDisk (Source (hostDiskVolume E v info)) = Some hd)
    by reflexivity.
  assert (Hshould : shouldMountHostDisk (Some hd) = true).
  { simpl.
    by destruct (String.eqb_spec (getPVCDiskImgPath E (Name v) "disk.img")
                   ""). }
  rewrite Hhd, Hshould.
  change (GetMountedHostDiskPath E (Name (hostDiskVolume E v info)) (Path hd))
    with (GetMountedHostDiskPath E (Name v)
            (getPVCDiskImgPath E (Name v) "disk.img")).
  by rewrite Hround.
Qed.

(** X24.  The two halves of the package fit together.  When the rewriter
    has returned nil and [Create], run on the instance it left (in whatever
    world), returns nil as well, every volume of the original instance that
    was eligible for rewriting has its image
    [<pvcBaseDir>/<name>/disk.img], and the image belongs to qemu. *)
Theorem ReplacePVCByHostDisk_then_Create
    (w w1 w2 w3 : World) (vmi' : VirtualMachineInstance) :
  ReplacePVCByHostDisk E vmi w = (vmi', Ok tt, w1) ->
  Create E hdc vmi' w2 = (Ok tt, w3) ->
  forall v info,
    v ∈ Spec_Volumes vmi -> eligible vmi v info ->
    owned_by_qemu w3 (getPVCDiskImgPath E (Name v) "disk.img").
Proof.
  rewrite ReplacePVCByHostDisk_run. intros Hrun Hcreate v info Hv Helig.
  destruct (replace_volumes E _ _ _ _ w) as [[vols r0] w0] eqn:Hloop.
  injection Hrun as <- -> <-.
  apply replace_volumes_spec in Hloop. simpl in Hloop. subst vols.
  apply replacement_of_spec in Helig.
  eapply create_volumes_ok_owned; [exact Hcreate|].
  by eapply rewritten_image_is_target.
Qed.

End Pipeline.

Lemma ReplacePVCByHostDisk_then_Create_witness :
  let E := Fixture.quiet Fixture.roomy in
  let hdc := NewHostDiskCreator E Fixture.MockNotifier 10 Fixture.Mi in
  let info :=
    {| VolumeMode := Some PersistentVolumeFilesystem; AccessModes := [];
       info_Capacity := {[ ResourceStorage := 64 * Fixture.Mi ]} |} in
  let vmi := RewriteFixture.vmiOf
               [RewriteFixture.pvcVolumeOf "v1"] []
               [ {| status_Name := "v1"; HotplugVolume := None;
                    status_PersistentVolumeClaimInfo := Some info |} ] in
  let replaced := ReplacePVCByHostDisk E vmi Fixture.empty_world in
  let created := Create E hdc (fst (fst replaced)) (snd replaced) in
  fst created = Ok tt
  /\ owned_by_qemu (snd created) "/tmp/host-disk-images/v1/disk.img".
Proof.
  intros E hdc info vmi replaced created.
  split; [vm_compute; reflexivity|].
  apply (ReplacePVCByHostDisk_then_Create E hdc vmi Fixture.empty_world
           (snd replaced) (snd replaced) (snd created)
           (fst (fst replaced)))
    with (v := RewriteFixture.pvcVolumeOf "v1") (info := info).
  - vm_compute. reflexivity.
  - vm_compute. reflexivity.
  - by left.
  - apply replacement_of_spec. vm_compute. reflexivity.
Defined.
